(** * GridSearchDSVientos: the prediction model, the metrics, the result
      sink, the merger and the dispatcher of [GridSearchDSVientos.js]

    The program is JavaScript.  Its one numeric type is the binary64
    Number.  Two embeddings of it are used, by the role a quantity plays in
    the program:

    - quantities the program keeps integral (time values of [Date] objects in
      milliseconds, lags in hours, array lengths, counters, compass degrees)
      are integers extended with [NaN] and the two infinities ([inum]).
      A sum or a product of two of them is rounded to binary64
      ([Number_of_Z]), as is the integer a digit string denotes; integers of
      magnitude up to [2^53] are exact, so that sums and differences of
      time values within [2^52] milliseconds of the epoch (142 000 years),
      of lags, of lengths and of counters are;
    - measured values, weights and metrics are binary64 floats ([float], the
      kernel's primitive floats, specified by [SpecFloat]).

    The worker builds its model from a parameter set, whose fields may be
    any values: there the lagged time is computed on binary64 data, and it
    is the integer of the first embedding when the lag is a whole number of
    hours.

    A JavaScript value that may be a number, a string, an object or
    [undefined] at run time is a [value].  A call that may throw returns an
    [outcome].  Console output is left out throughout: it changes no state.
    The first part of the file is the embedding, the second the vocabulary
    of the properties, the third the properties and their proofs. *)

From Stdlib Require Import ZArith QArith Lia List String Ascii Bool Sorted.
From Stdlib Require Import DecimalString DecimalNat Uint63 Floats.
From stdpp Require Import base option list gmap strings.

Set Warnings "-inexact-float,-register-all".
#[local] Open Scope Z_scope.

(** ** Integral Numbers *)

Inductive inum : Type :=
| Int (z : Z)
| Infinity
| NegInfinity
| NaN.

(** The Number nearest to an integer: the integer rounded to binary64 (to
    nearest, ties to even), an infinity from magnitude [2^1024 - 2^970] on.
    Integers of magnitude up to [2^53] are their own nearest Number. *)
Definition Number_of_Z (z : Z) : inum :=
  match binary_normalize prec emax z 0 false with
  | S754_zero _ => Int 0
  | S754_finite s m e => Int (cond_Zopp s (Z.shiftl (Z.pos m) e))
  | S754_infinity s => if s then NegInfinity else Infinity
  | S754_nan => NaN
  end.

Module Num.

(** [ToBoolean] on a Number: [0] and [NaN] are falsy. *)
Definition truthy (a : inum) : bool :=
  match a with
  | Int 0 | NaN => false
  | _ => true
  end.

(** [a || d] *)
Definition or_else (a d : inum) : inum := if truthy a then a else d.

Definition isNaN (a : inum) : bool :=
  match a with NaN => true | _ => false end.

Definition opp (a : inum) : inum :=
  match a with
  | Int z => Int (- z)
  | Infinity => NegInfinity
  | NegInfinity => Infinity
  | NaN => NaN
  end.

(** [a + b]: the sum of two integers, rounded. *)
Definition add (a b : inum) : inum :=
  match a, b with
  | NaN, _ | _, NaN => NaN
  | Int u, Int v => Number_of_Z (u + v)
  | Infinity, NegInfinity | NegInfinity, Infinity => NaN
  | Infinity, _ | _, Infinity => Infinity
  | NegInfinity, _ | _, NegInfinity => NegInfinity
  end.

Definition sub (a b : inum) : inum := add a (opp b).

Definition sgn_inf (neg : bool) : inum := if neg then NegInfinity else Infinity.

(** [a * b]: the product of two integers, rounded. *)
Definition mul (a b : inum) : inum :=
  match a, b with
  | NaN, _ | _, NaN => NaN
  | Int u, Int v => Number_of_Z (u * v)
  | Int u, Infinity | Infinity, Int u =>
      if u =? 0 then NaN else sgn_inf (u <? 0)
  | Int u, NegInfinity | NegInfinity, Int u =>
      if u =? 0 then NaN else sgn_inf (0 <? u)
  | Infinity, Infinity | NegInfinity, NegInfinity => Infinity
  | Infinity, NegInfinity | NegInfinity, Infinity => NegInfinity
  end.

(** [Math.abs] *)
Definition abs (a : inum) : inum :=
  match a with
  | Int z => Int (Z.abs z)
  | Infinity | NegInfinity => Infinity
  | NaN => NaN
  end.

(** [a < b]; every comparison with [NaN] is false. *)
Definition ltb (a b : inum) : bool :=
  match a, b with
  | NaN, _ | _, NaN => false
  | Int u, Int v => u <? v
  | NegInfinity, NegInfinity | Infinity, _ | _, NegInfinity => false
  | NegInfinity, _ | _, Infinity => true
  end.

(** [a <= b] *)
Definition leb (a b : inum) : bool :=
  match a, b with
  | NaN, _ | _, NaN => false
  | Int u, Int v => u <=? v
  | NegInfinity, _ | _, Infinity => true
  | Infinity, _ | _, NegInfinity => false
  end.

(** [a % b]: the remainder has the sign of the dividend, and is exact. *)
Definition rem (a b : inum) : inum :=
  match a, b with
  | NaN, _ | _, NaN => NaN
  | Infinity, _ | NegInfinity, _ => NaN
  | Int u, Int v => if v =? 0 then NaN else Int (Z.rem u v)
  | Int u, _ => Int u
  end.

End Num.

(** ** Dates *)

(** A [Date] object holds a time value: an integral number of milliseconds,
    or [NaN] (an invalid date). *)
Record Date : Type := mkDate { getTime : inum }.

Definition TimeClip (v : inum) : inum :=
  match v with
  | Int z => if Z.abs z <=? 8640000000000000 then Int z else NaN
  | _ => NaN
  end.

(** [new Date(v)] on a Number. *)
Definition new_Date (v : inum) : Date := mkDate (TimeClip v).

(** ** Series points *)

(** A point of a series: [{x, y}]; a wind point carries [speed] and
    [direction] besides.  The accumulator of the nearest-neighbour scan
    starts as [{y: 0}], a point with no [x]. *)
Module Pt.
Record t : Type := mk {
  x : option Date;
  y : float;
  speed : option float;
  direction : option string
}.
End Pt.

(** [{ y: 0 }] *)
Definition y0 : Pt.t := Pt.mk None 0%float None None.

(** [p.x?.getTime()] as a Number operand: where the source uses it
  ([… || 0] and [… - targetTime]) an [undefined] acts as [NaN] does. *)
Definition x_getTime (p : Pt.t) : inum :=
  match Pt.x p with
  | Some d => getTime d
  | None => NaN
  end.

(** ** RiverModel.findClosestValue *)

(** The callback of [data.reduce]. *)
Definition closer (targetTime : inum) (prev curr : Pt.t) : Pt.t :=
  let currTime := Num.or_else (x_getTime curr) (Int 0) in
  let prevDiff := Num.or_else (Num.abs (Num.sub (x_getTime prev) targetTime)) Infinity in
  let currDiff := Num.or_else (Num.abs (Num.sub currTime targetTime)) Infinity in
  if Num.ltb currDiff prevDiff then curr else prev.

(** [targetDate] is a [Date] at both call sites, so the guard
    [!targetDate || !(targetDate instanceof Date)] never fires. *)
Definition findClosestValue (data : list Pt.t) (targetDate : Date) : float :=
  let targetTime := getTime targetDate in
  if Num.isNaN targetTime then 0%float
  else Pt.y (fold_left (closer targetTime) data y0).

(** ** JavaScript values *)

Inductive value : Type :=
| VUndef
| VNum (f : float)
| VStr (s : string)
| VObj (props : list (string * value)).

(** What the run-time provides and the repository does not define: the
    decimal rendering of a Number ([Number::toString]) and the value of a
    string that is a numeric literal ([StringToNumber] on its domain). *)
Class Runtime : Type := {
  Number_toString : float → string;
  StringNumericLiteral_value : string → float
}.

(** An exception, by the constructor of the error thrown. *)
Inductive error : Type := TypeError | RangeError.

Inductive outcome (A : Type) : Type :=
| Return (a : A)
| Throw (e : error).
Arguments Return {A} a.
Arguments Throw {A} e.

#[global] Instance outcome_ret : MRet outcome := @Return.

#[global] Instance outcome_bind : MBind outcome := λ A B k c,
  match c with
  | Return a => k a
  | Throw e => Throw e
  end.

Module JS.

(** ToBoolean of a Number: [0], [-0] and [NaN] are falsy. *)
Definition truthy_num (f : float) : bool :=
  negb (PrimFloat.eqb f 0 || PrimFloat.is_nan f).

Definition truthy (v : value) : bool :=
  match v with
  | VUndef => false
  | VNum f => truthy_num f
  | VStr s => negb (String.eqb s "")
  | VObj _ => true
  end.

Definition is_undefined (v : value) : bool :=
  match v with VUndef => true | _ => false end.

(** A character that can occur in a [StringNumericLiteral]: white space, a
    digit, a sign, the dot, an exponent mark, a letter of [Infinity], or a
    letter of a [0x], [0o] or [0b] literal. *)
Definition numeric_char (c : ascii) : bool :=
  let n := N_of_ascii c in
  (((9 <=? n) && (n <=? 13)) || (n =? 32) || (n =? 160)
   || ((48 <=? n) && (n <=? 57))
   || existsb (Ascii.eqb c) (list_ascii_of_string "+-.eEInfityxXoObBaAcCdDfF"))%N.

Section WithRuntime.
Context `{Runtime}.

(** [StringToNumber]: a string with a character outside the literals'
    alphabet is no numeric literal, and its value is [NaN]. *)
Definition StringToNumber (s : string) : float :=
  if forallb numeric_char (list_ascii_of_string s)
  then StringNumericLiteral_value s
  else PrimFloat.nan.

(** ToString; an object literal has [Object.prototype.toString]. *)
Definition ToString (v : value) : string :=
  match v with
  | VUndef => "undefined"
  | VNum f => Number_toString f
  | VStr s => s
  | VObj _ => "[object Object]"
  end.

(** ToNumber; an object goes through ToPrimitive, that is its string. *)
Definition ToNumber (v : value) : float :=
  match v with
  | VUndef => PrimFloat.nan
  | VNum f => f
  | VStr s => StringToNumber s
  | VObj _ => StringToNumber "[object Object]"
  end.

(** ToPrimitive with no hint, as [+] applies it. *)
Definition ToPrimitive (v : value) : value :=
  match v with
  | VObj _ => VStr "[object Object]"
  | _ => v
  end.

(** [a + b]: concatenation as soon as one operand is a string. *)
Definition add (a b : value) : value :=
  match ToPrimitive a, ToPrimitive b with
  | VStr s, q => VStr (s +:+ ToString q)
  | p, VStr s => VStr (ToString p +:+ s)
  | p, q => VNum (ToNumber p + ToNumber q)
  end.

Definition sub (a b : value) : value := VNum (ToNumber a - ToNumber b).
Definition mul (a b : value) : value := VNum (ToNumber a * ToNumber b).

(** The global [isNaN]. *)
Definition isNaN (v : value) : bool := PrimFloat.is_nan (ToNumber v).

(** [arr.join(sep)]: [undefined] elements render as the empty string. *)
Definition join (sep : string) (arr : list value) : string :=
  String.concat sep
    (map (λ v, match v with VUndef => ""%string | _ => ToString v end) arr).

End WithRuntime.

(** [o[k]] on an object held as a map; a missing key reads [undefined]. *)
Definition get (o : gmap string value) (k : string) : value :=
  default VUndef (o !! k).

(** [n.k] on a Number for a key [Number.prototype] does not have. *)
Definition Number_get (n : float) (k : string) : value := VUndef.

End JS.

(** ** RiverModel *)

(** The model's configuration.  [weights], [lags] and [windCoeffs] are the
    objects the constructor is given, read by key; a key that is missing
    reads [undefined]. *)
Record RiverModel : Type := {
  weights : gmap string float;
  lags : gmap string Z;
  windCoeffs : gmap string float;
  windFactor : float;
  offset : float
}.

(** The series handed to [predict] and [evaluate]. *)
Record InputData : Type := {
  palmas : list Pt.t;
  itu : list Pt.t;
  ba : list Pt.t;
  vientos : list Pt.t;
  target : list Pt.t
}.

(** [this.lags[k]] as an operand of [*]: [undefined] is [NaN] there. *)
Definition lag_hours (m : RiverModel) (k : string) : inum :=
  from_option Int NaN (lags m !! k).

(** [this.weights[k]] as an operand of [*]. *)
Definition weight_of (m : RiverModel) (k : string) : float :=
  default PrimFloat.nan (weights m !! k).

(** [t - lag * 3600 * 1000] *)
Definition lagged_time (t : inum) (lag : inum) : inum :=
  Num.sub t (Num.mul (Num.mul lag (Int 3600)) (Int 1000)).

(** [calculateComponent].  [targetPoint.x.getTime()] throws on a point with
    no [x]; the log line calls [laggedDate.toISOString()], which throws a
    RangeError on an invalid date, after the contribution is computed. *)
Definition calculateComponent (m : RiverModel) (source : string)
    (targetPoint : Pt.t) (data : list Pt.t) : outcome float :=
  match Pt.x targetPoint with
  | None => Throw TypeError
  | Some d =>
      let laggedDate := new_Date (lagged_time (getTime d) (lag_hours m source)) in
      let value := findClosestValue data laggedDate in
      let contribution := (value * weight_of m source)%float in
      if Num.isNaN (getTime laggedDate) then Throw RangeError
      else Return contribution
  end.

(** [getDefaultWindValues]: an object, not a number. *)
Definition getDefaultWindValues : value :=
  VObj [("direction", VStr "N"); ("speed", VNum 0); ("contribution", VNum 0)]%string.

Section Model.
Context `{Runtime}.

(** [calculateWindComponent].  [findClosestValue] returns the [y] of the
    nearest point, a Number, so [windPoint.direction] and [windPoint.speed]
    are reads on a Number.  The logging between steps 3 and 4 sits in a
    [try]/[catch] and changes nothing. *)
Definition calculateWindComponent (m : RiverModel) (targetPoint : Pt.t)
    (windData : list Pt.t) : value :=
  match Pt.x targetPoint with
  | None => getDefaultWindValues
  | Some d =>
      if Num.isNaN (getTime d) then getDefaultWindValues
      else
        let laggedDate := new_Date (lagged_time (getTime d) (lag_hours m "vientos")) in
        if Num.isNaN (getTime laggedDate) then getDefaultWindValues
        else
          let windPoint := findClosestValue windData laggedDate in
          let direction := JS.Number_get windPoint "direction" in
          let speed := JS.Number_get windPoint "speed" in
          if negb (JS.truthy_num windPoint) || JS.is_undefined direction
          then getDefaultWindValues
          else
            let coeff := from_option VNum VUndef (windCoeffs m !! JS.ToString direction) in
            if negb (JS.truthy coeff) || JS.isNaN speed then getDefaultWindValues
            else JS.mul (JS.mul coeff speed) (VNum (windFactor m))
  end.

(** [predict]: the four components are computed in the order of the object
    literal, then summed left to right with [+]. *)
Definition predict (m : RiverModel) (targetPoint : Pt.t) (inputData : InputData)
    : outcome value :=
  c_palmas ← calculateComponent m "palmas" targetPoint (palmas inputData);
  c_itu ← calculateComponent m "itu" targetPoint (itu inputData);
  c_ba ← calculateComponent m "ba" targetPoint (ba inputData);
  let c_wind := calculateWindComponent m targetPoint (vientos inputData) in
  Return (JS.add (JS.add (JS.add (JS.add (VNum c_palmas) (VNum c_itu)) (VNum c_ba)) c_wind)
                 (VNum (offset m))).

End Model.

(** ** Metrics *)

Record Results : Type := {
  predictions : list value;
  observations : list float;
  errors : list float
}.

Record Metrics : Type := {
  r2 : float;
  rmse : float;
  returned_predictions : option (list value)
}.

(** An array length as a Number (lengths are below [2^32]). *)
Definition Number_of_length (n : nat) : float :=
  PrimFloat.of_uint63 (Uint63.of_Z (Z.of_nat n)).

(** [Math.pow(v, 2)], taken as the product [v * v]. *)
Definition Math_pow2 (v : float) : float := (v * v)%float.

(** [parseFloat(v.toFixed(4))].  [toFixed(4)] prints the integer [n] nearest
    to [|v| * 10^4] (the larger one on a tie) with four decimals, and a
    minus sign when [v < 0]; [parseFloat] reads the decimal back to the
    nearest binary64.  From [2^39] on, the binary64 values are at least
    [2^-13] apart and the decimal printed lies within [10^-4 / 2] of [v], so
    [v] itself is read back; below, [n < 2^53] is exact as a binary64 and
    the division rounds once.  [NaN] and the infinities print as their
    names. *)
Definition parseFloat_toFixed4 (v : float) : float :=
  match Prim2SF v with
  | S754_nan | S754_infinity _ => v
  | S754_zero _ => 0%float
  | S754_finite s m e =>
      if -13 <=? e then v
      else
        let n := (Z.pos m * 10000 * 2 + 2 ^ (- e)) / 2 ^ (- e + 1) in
        let r := (PrimFloat.of_uint63 (Uint63.of_Z n) / 10000)%float in
        if s then (- r)%float else r
  end.

Definition sumSquaredErrors_of (errs : list float) : float :=
  fold_left (λ sum err, (sum + err * err)%float) errs 0%float.

Definition meanObserved_of (obs : list float) : float :=
  (fold_left (λ sum o, (sum + o)%float) obs 0 / Number_of_length (length obs))%float.

Definition ssTotal_of (obs : list float) : float :=
  let meanObserved := meanObserved_of obs in
  fold_left (λ sum o, (sum + Math_pow2 (o - meanObserved))%float) obs 0%float.

(** [calculateMetrics] *)
Definition calculateMetrics (res : Results) : Metrics :=
  let n := length (observations res) in
  if Nat.eqb n 0 then
    {| r2 := 0; rmse := PrimFloat.infinity; returned_predictions := None |}
  else
    let sumSquaredErrors := sumSquaredErrors_of (errors res) in
    let rmse_ := PrimFloat.sqrt (sumSquaredErrors / Number_of_length n) in
    let ssTotal := ssTotal_of (observations res) in
    let r2_ :=
      if (ssTotal <=? 1e-10)%float then 0%float
      else (1 - sumSquaredErrors / ssTotal)%float in
    {| r2 := parseFloat_toFixed4 r2_;
       rmse := parseFloat_toFixed4 rmse_;
       returned_predictions := Some (predictions res) |}.

Section Evaluate.
Context `{Runtime}.

(** The body of [data.target.forEach]: one prediction, its error
    [targetPoint.y - prediction], and the three pushes. *)
Fixpoint evaluate_points (m : RiverModel) (data : InputData)
    (targets : list Pt.t) (results : Results) : outcome Results :=
  match targets with
  | [] => Return results
  | targetPoint :: rest =>
      prediction ← predict m targetPoint data;
      let error := (Pt.y targetPoint - JS.ToNumber prediction)%float in
      evaluate_points m data rest
        {| predictions := predictions results ++ [prediction];
           observations := observations results ++ [Pt.y targetPoint];
           errors := errors results ++ [error] |}
  end.

(** [evaluate] *)
Definition evaluate (m : RiverModel) (data : InputData) : outcome Metrics :=
  results ← evaluate_points m data (target data)
              {| predictions := []; observations := []; errors := [] |};
  Return (calculateMetrics results).

End Evaluate.

(** ** Strings *)

#[local] Open Scope string_scope.
#[local] Open Scope list_scope.

(** White space as [String.prototype.trim] sees it, among the code units
    below 256. *)
Definition is_white (c : ascii) : bool :=
  let n := N_of_ascii c in
  (((9 <=? n) && (n <=? 13)) || (n =? 32) || (n =? 160))%N.

Fixpoint trimStart (s : string) : string :=
  match s with
  | String c rest => if is_white c then trimStart rest else s
  | EmptyString => EmptyString
  end.

Definition reverse_string (s : string) : string :=
  string_of_list_ascii (rev (list_ascii_of_string s)).

(** [s.trim()] *)
Definition trim (s : string) : string :=
  reverse_string (trimStart (reverse_string (trimStart s))).

(** [s.split(sep)] for a separator of one character. *)
Fixpoint split_on (sep : ascii) (s : string) : list string :=
  match s with
  | EmptyString => [EmptyString]
  | String c rest =>
      let parts := split_on sep rest in
      if Ascii.eqb c sep then EmptyString :: parts
      else match parts with
           | p :: ps => String c p :: ps
           | [] => [String c EmptyString]
           end
  end.

(** [s.startsWith(p)] *)
Definition startsWith (p s : string) : bool := String.prefix p s.

(** [s.includes(p)] *)
Definition includes (p s : string) : bool :=
  match String.index 0 p s with Some _ => true | None => false end.

Definition semicolon : ascii := ";"%char.
Definition newline : ascii := ascii_of_nat 10.
Definition nl : string := String newline EmptyString.

(** ** The column set *)

Definition directions : list string :=
  ["N"; "NE"; "E"; "SE"; "S"; "SW"; "W"; "NW"].

Definition base_columns : list string :=
  ["pesoPalmas"; "pesoItu"; "pesoBa"; "pesoVientos";
   "lagPalmas"; "lagItu"; "lagBa"; "lagVientos";
   "factorViento"; "offset"].

Definition coef_factor (dir : string) : string := "coef_" +:+ dir +:+ "_factor".
Definition coef_peso (dir : string) : string := "coef_" +:+ dir +:+ "_peso".

Definition metric_columns : list string :=
  ["trainR2"; "testR2"; "trainRmse"; "testRmse"].

(** [CSV_COLUMNS], and the same list as [ResultWriter]'s constructor and
    [combineResults] spell it for the header. *)
Definition CSV_COLUMNS : list string :=
  base_columns
  ++ flat_map (λ dir, [coef_factor dir; coef_peso dir]) directions
  ++ metric_columns.

Definition header : string := String.concat ";" CSV_COLUMNS +:+ nl.

(** ** ResultWriter (the Result Sink) *)

(** The part of [CONFIG] the sink, the dispatcher and the merger read. *)
Record Config : Type := {
  resultsDir : string;
  maxFileSize : nat;
  chunkSize : nat;
  maxWorkers : nat
}.

Definition CONFIG : Config := {|
  resultsDir := "./resultados_parciales";
  maxFileSize := 50 * 1024 * 1000;
  chunkSize := 250;
  maxWorkers := 2
|}.

(** What a sink does to the file system, in order. *)
Inductive fs_op : Type :=
| CreateWriteStream (path : string)
| StreamWrite (path : string) (data : string)
| StreamEnd (path : string).

(** The fields of a [ResultWriter]; [currentFile] is the path the open
    stream was created for. *)
Record ResultWriter : Type := {
  fileIndex : nat;
  currentSize : nat;
  currentFile : option string
}.

(** [new ResultWriter()] *)
Definition new_ResultWriter : ResultWriter :=
  {| fileIndex := 0; currentSize := 0; currentFile := None |}.

(** [path.join(dir, name)], without the normalisation of [dir]. *)
Definition path_join (dir name : string) : string := dir +:+ "/" +:+ name.

Definition decimal (n : nat) : string := NilZero.string_of_uint (Nat.to_uint n).

(** [writeToFile]: the write, then the size update in its callback.  The
    strings written are ASCII, one byte a character. *)
Definition writeToFile (data : string) (w : ResultWriter)
    : outcome (ResultWriter * list fs_op) :=
  match currentFile w with
  | None => Throw TypeError
  | Some p =>
      Return ({| fileIndex := fileIndex w;
                 currentSize := currentSize w + String.length data;
                 currentFile := currentFile w |},
              [StreamWrite p data])
  end.

Definition closeCurrentFile (w : ResultWriter) : list fs_op :=
  match currentFile w with
  | Some p => [StreamEnd p]
  | None => []
  end.

(** [openNewFile] *)
Definition openNewFile (cfg : Config) (w : ResultWriter)
    : outcome (ResultWriter * list fs_op) :=
  let closed := closeCurrentFile w in
  let index := S (fileIndex w) in
  let filePath := path_join (resultsDir cfg) ("results_" +:+ decimal index +:+ ".csv") in
  let w' := {| fileIndex := index; currentSize := 0; currentFile := Some filePath |} in
  '(w'', written) ← writeToFile header w';
  Return (w'', closed ++ [CreateWriteStream filePath] ++ written).

(** The row object [write] builds from one result: every column, with its
    default where the result has none. *)
Definition row_of (result : gmap string value) : gmap string value :=
  let or_default (col : string) (d : value) : value :=
    if negb (JS.is_undefined (JS.get result col)) then JS.get result col else d in
  let row1 :=
    fold_left (λ row col, <[col := or_default col (VNum 0)]> row) base_columns ∅ in
  let row2 :=
    fold_left (λ row dir,
                 <[coef_peso dir := or_default (coef_peso dir) (VNum 0.5)]>
                   (<[coef_factor dir := or_default (coef_factor dir) (VNum 0)]> row))
              directions row1 in
  fold_left (λ row col,
               <[col := or_default col
                          (if includes "R2" col then VNum PrimFloat.neg_infinity
                           else VNum PrimFloat.infinity)]> row)
            metric_columns row2.

(** The thirty reads [row.pesoPalmas, …, row.testRmse] of the array that is
    joined into the line. *)
Definition row_reads : list string :=
  ["pesoPalmas"; "pesoItu"; "pesoBa"; "pesoVientos";
   "lagPalmas"; "lagItu"; "lagBa"; "lagVientos";
   "factorViento"; "offset";
   "coef_N_factor"; "coef_N_peso";
   "coef_NE_factor"; "coef_NE_peso";
   "coef_E_factor"; "coef_E_peso";
   "coef_SE_factor"; "coef_SE_peso";
   "coef_S_factor"; "coef_S_peso";
   "coef_SW_factor"; "coef_SW_peso";
   "coef_W_factor"; "coef_W_peso";
   "coef_NW_factor"; "coef_NW_peso";
   "trainR2"; "testR2"; "trainRmse"; "testRmse"].

Definition row_cells (result : gmap string value) : list value :=
  map (JS.get (row_of result)) row_reads.

Section Sink.
Context `{Runtime}.

Definition csv_line (result : gmap string value) : string :=
  JS.join ";" (row_cells result) +:+ nl.

(** [write] *)
Definition write (cfg : Config) (results : list (gmap string value))
    (w : ResultWriter) : outcome (ResultWriter * list fs_op * nat) :=
  '(w1, opened) ←
    (if match currentFile w with None => true | Some _ => false end
        || (maxFileSize cfg <? currentSize w)%nat
     then openNewFile cfg w
     else Return (w, []));
  let csvLines := String.concat "" (map csv_line results) in
  '(w2, written) ← writeToFile csvLines w1;
  Return (w2, opened ++ written, length results).

(** A worker's sink over its life: [new ResultWriter()], [openNewFile()],
    then one [write] a chunk.  The worker's id takes no part. *)
Fixpoint write_all (cfg : Config) (batches : list (list (gmap string value)))
    (w : ResultWriter) : outcome (ResultWriter * list fs_op) :=
  match batches with
  | [] => Return (w, [])
  | results :: rest =>
      '(w1, ops1, _) ← write cfg results w;
      '(w2, ops2) ← write_all cfg rest w1;
      Return (w2, ops1 ++ ops2)
  end.

Definition worker_sink (cfg : Config) (workerId : nat)
    (batches : list (list (gmap string value))) : outcome (list fs_op) :=
  '(w1, ops1) ← openNewFile cfg new_ResultWriter;
  '(w2, ops2) ← write_all cfg batches w1;
  Return (ops1 ++ ops2).

End Sink.

(** The paths a trace opens for writing, in order. *)
Definition created_paths (ops : list fs_op) : list string :=
  omap (λ op, match op with CreateWriteStream p => Some p | _ => None end) ops.

(** ** combineResults (the Result Merger) *)

(** The default of column [i], as the merger's three-way test picks it. *)
Definition default_part (i : nat) : string :=
  if (i <? 10)%nat then "0"
  else if (i <? 26)%nat then (if Nat.eqb (i mod 2) 0 then "0" else "0.5")
  else if (i <? 28)%nat then "-Infinity" else "Infinity".

(** The loop [for (let i = 0; i < 30; i++)] over the parts of one line. *)
Definition normalizedParts (parts : list string) : list string :=
  map (λ i,
         match parts !! i with
         | Some part =>
             if negb (String.eqb (trim part) "") then part else default_part i
         | None => default_part i
         end)
      (seq 0 30).

(** One line of a partial file: the row written for it, if it is not blank
    and not a header. *)
Definition merge_line (line : string) : option string :=
  if negb (String.eqb (trim line) "") && negb (startsWith "pesoPalmas" line)
  then Some (String.concat ";" (normalizedParts (split_on semicolon line)) +:+ nl)
  else None.

(** [combineResults] over the contents of the partial files, in the order
    the numeric sort of their names leaves them: the text written to the
    final file and the count returned. *)
Definition combineResults (contents : list string) : string * nat :=
  let rows := flat_map (λ content, omap merge_line (split_on newline content)) contents in
  (header +:+ String.concat "" rows, length rows).

(** ** The dispatcher *)

(** A message a worker posts.  [processed] and [relevant] are read by
    destructuring; a property the message lacks reads [undefined]. *)
Record Message : Type := {
  type : string;
  processed : option inum;
  relevant : option inum
}.

(** The worker's answer to a chunk: [{ type: 'done', processed:
    paramsChunk.length }]. *)
Definition done_message {P : Type} (paramsChunk : list P) : Message :=
  {| type := "done";
     processed := Some (Int (Z.of_nat (length paramsChunk)));
     relevant := None |}.

(** [c += d] on a counter; [undefined] as an operand of [+] is [NaN]. *)
Definition add_assign (c : inum) (d : option inum) : inum :=
  Num.add c (default NaN d).

Section Dispatcher.
Variable P : Type.

(** An entry of [workers].  [instance] stands for the worker thread: the
    chunk posted to it that it has not answered yet. *)
Record WorkerSlot : Type := {
  instance : option (list P);
  isBusy : bool;
  w_processed : inum;
  w_relevant : inum
}.

(** The state of [main] from step 4 on.  [paramsGenerator] is what the
    generator has still to yield.  [dispatched] and [received] record the
    chunks posted and the messages handled; the program keeps neither. *)
Record Main : Type := {
  workers : list WorkerSlot;
  paramsGenerator : list P;
  totalProcessed : inum;
  totalRelevant : inum;
  isDone : bool;
  terminated : bool;
  dispatched : list (list P);
  received : list Message
}.

Definition initial (cfg : Config) (params : list P) : Main :=
  {| workers := replicate (maxWorkers cfg)
                  {| instance := None; isBusy := false;
                     w_processed := Int 0; w_relevant := Int 0 |};
     paramsGenerator := params;
     totalProcessed := Int 0;
     totalRelevant := Int 0;
     isDone := false;
     terminated := false;
     dispatched := [];
     received := [] |}.

(** [workers.find(w => !w.isBusy)], as an index. *)
Fixpoint find_available (ws : list WorkerSlot) : option nat :=
  match ws with
  | [] => None
  | w :: rest => if negb (isBusy w) then Some 0%nat else S <$> find_available rest
  end.

(** The loop that fills a chunk: [n] pulls are left to do.  When the
    generator is done, [assignWork] returns at once and the chunk built so
    far goes nowhere. *)
Fixpoint fill_chunk (n : nat) (gen chunk : list P) : option (list P) * list P :=
  match n with
  | O => (Some chunk, gen)
  | S n' =>
      match gen with
      | [] => (None, [])
      | v :: gen' => fill_chunk n' gen' (chunk ++ [v])
      end
  end.

(** [assignWork]: the value it resolves to and the state it leaves.  The
    handler it registers is [on_message] below. *)
Definition assignWork (cfg : Config) (st : Main) : bool * Main :=
  match find_available (workers st) with
  | None => (false, st)
  | Some i =>
      match fill_chunk (chunkSize cfg) (paramsGenerator st) [] with
      | (None, gen') =>
          (true,
           {| workers := workers st; paramsGenerator := gen';
              totalProcessed := totalProcessed st; totalRelevant := totalRelevant st;
              isDone := isDone st; terminated := terminated st;
              dispatched := dispatched st; received := received st |})
      | (Some chunk, gen') =>
          (false,
           {| workers :=
                alter (λ w, {| instance := Some chunk; isBusy := true;
                               w_processed := w_processed w;
                               w_relevant := w_relevant w |}) i (workers st);
              paramsGenerator := gen';
              totalProcessed := totalProcessed st; totalRelevant := totalRelevant st;
              isDone := isDone st; terminated := terminated st;
              dispatched := dispatched st ++ [chunk]; received := received st |})
      end
  end.

(** The handler [assignWork] registers with [once('message', …)] for worker
    [i], run on the message [msg].  Its three blocks behind the counter
    updates (the collection hint, the progress line, the checkpoint file)
    read the counters and change none. *)
Definition on_message (i : nat) (msg : Message) (st : Main) : Main :=
  let idle (w : WorkerSlot) :=
    {| instance := None; isBusy := false;
       w_processed := w_processed w; w_relevant := w_relevant w |} in
  let counted (w : WorkerSlot) :=
    {| instance := None; isBusy := false;
       w_processed := add_assign (w_processed w) (processed msg);
       w_relevant := add_assign (w_relevant w) (relevant msg) |} in
  if String.eqb (type msg) "error" then
    {| workers := alter idle i (workers st); paramsGenerator := paramsGenerator st;
       totalProcessed := totalProcessed st; totalRelevant := totalRelevant st;
       isDone := isDone st; terminated := terminated st;
       dispatched := dispatched st; received := received st ++ [msg] |}
  else
    {| workers := alter counted i (workers st); paramsGenerator := paramsGenerator st;
       totalProcessed := add_assign (totalProcessed st) (processed msg);
       totalRelevant := add_assign (totalRelevant st) (relevant msg);
       isDone := isDone st; terminated := terminated st;
       dispatched := dispatched st; received := received st ++ [msg] |}.

(** What can happen next in [main]: one turn of the loop
    [while (!isDone) { isDone = await assignWork(); … }], the answer of worker
    [i] to its chunk, or, once the loop is left, step 6
    ([workers.forEach(w => w.instance.terminate())]) with the merger behind
    it. *)
Inductive event : Type :=
| LoopTurn
| Answer (i : nat)
| Terminate.

Definition set_done (b : bool) (st : Main) : Main :=
  {| workers := workers st; paramsGenerator := paramsGenerator st;
     totalProcessed := totalProcessed st; totalRelevant := totalRelevant st;
     isDone := b; terminated := terminated st;
     dispatched := dispatched st; received := received st |}.

Definition set_terminated (st : Main) : Main :=
  {| workers := workers st; paramsGenerator := paramsGenerator st;
     totalProcessed := totalProcessed st; totalRelevant := totalRelevant st;
     isDone := isDone st; terminated := true;
     dispatched := dispatched st; received := received st |}.

(** An event that cannot happen in the state leaves it as it is. *)
Definition step (cfg : Config) (st : Main) (e : event) : Main :=
  match e with
  | LoopTurn =>
      if isDone st then st
      else let '(done, st') := assignWork cfg st in set_done done st'
  | Answer i =>
      if terminated st then st
      else match workers st !! i with
           | Some {| instance := Some chunk |} => on_message i (done_message chunk) st
           | _ => st
           end
  | Terminate =>
      if isDone st && negb (terminated st) then set_terminated st else st
  end.

Definition run (cfg : Config) (events : list event) (st : Main) : Main :=
  fold_left (step cfg) events st.

(** The chunks posted and not answered. *)
Definition outstanding (st : Main) : list (list P) :=
  omap instance (workers st).

(** The sum of the [processed] deltas of the messages received. *)
Definition processed_sum (msgs : list Message) : inum :=
  fold_left (λ acc msg, add_assign acc (processed msg)) msgs (Int 0).

End Dispatcher.

Arguments instance {P} _.
Arguments isBusy {P} _.
Arguments w_processed {P} _.
Arguments w_relevant {P} _.
Arguments workers {P} _.
Arguments paramsGenerator {P} _.
Arguments totalProcessed {P} _.
Arguments totalRelevant {P} _.
Arguments isDone {P} _.
Arguments terminated {P} _.
Arguments dispatched {P} _.
Arguments received {P} _.
Arguments initial {P} cfg params.
Arguments find_available {P} ws.
Arguments fill_chunk {P} n gen chunk.
Arguments assignWork {P} cfg st.
Arguments on_message {P} i msg st.
Arguments step {P} cfg st e.
Arguments run {P} cfg events st.
Arguments outstanding {P} st.

(** ** gradosACardinal *)

Definition is_digit (c : ascii) : bool :=
  let n := N_of_ascii c in ((48 <=? n) && (n <=? 57))%N.

(** [s.replace(/[^0-9]/g, '')] *)
Fixpoint keep_digits (s : string) : string :=
  match s with
  | EmptyString => EmptyString
  | String c rest =>
      if is_digit c then String c (keep_digits rest) else keep_digits rest
  end.

(** The integer a string of digits denotes, most significant digit first. *)
Definition Z_of_digits (s : string) : Z :=
  fold_left (λ acc c, 10 * acc + (Z.of_N (N_of_ascii c) - 48))
            (list_ascii_of_string s) 0.

(** [parseInt(s)] on a string of digits only: [NaN] on the empty string. *)
Definition parseInt (s : string) : inum :=
  match s with
  | EmptyString => NaN
  | _ => Number_of_Z (Z_of_digits s)
  end.

Record Sector : Type := { max : Q; dir : string }.

Definition sectors : list Sector :=
  [ {| max := 22.5; dir := "N" |};
    {| max := 67.5; dir := "NE" |};
    {| max := 112.5; dir := "E" |};
    {| max := 157.5; dir := "SE" |};
    {| max := 202.5; dir := "S" |};
    {| max := 247.5; dir := "SW" |};
    {| max := 292.5; dir := "W" |};
    {| max := 337.5; dir := "NW" |};
    {| max := 360; dir := "N" |} ]%Q.

(** [normalized <= s.max] *)
Definition le_max (normalized : inum) (bound : Q) : bool :=
  match normalized with
  | Int z => Qle_bool (inject_Z z) bound
  | NegInfinity => true
  | Infinity | NaN => false
  end.

(** [gradosACardinal]: [.dir] on the [undefined] that [find] returns when no
    sector matches is a TypeError. *)
Definition gradosACardinal (grados : string) : outcome string :=
  let numericValue := Num.or_else (parseInt (keep_digits grados)) (Int 0) in
  let normalized :=
    Num.rem (Num.add (Num.rem numericValue (Int 360)) (Int 360)) (Int 360) in
  match List.find (λ s, le_max normalized (max s)) sectors with
  | Some s => Return (dir s)
  | None => Throw TypeError
  end.

(** ** validateData *)

(** The series [loadAllData] returns, for training and for testing. *)
Module DataSet.
Record t : Type := mk {
  palmas : list Pt.t;
  itu : list Pt.t;
  ba : list Pt.t;
  ram : list Pt.t;
  vientos : list Pt.t
}.
End DataSet.

Definition is_positive_zero (f : float) : bool :=
  match Prim2SF f with S754_zero false => true | _ => false end.

Definition is_negative_zero (f : float) : bool :=
  match Prim2SF f with S754_zero true => true | _ => false end.

(** [Math.min(a, b)]: [NaN] when an argument is [NaN]; [-0] is below [+0]. *)
Definition Math_min (a b : float) : float :=
  if PrimFloat.is_nan a || PrimFloat.is_nan b then PrimFloat.nan
  else if (b <? a)%float then b
  else if is_positive_zero a && is_negative_zero b then b
  else a.

(** [Math.max(a, b)] *)
Definition Math_max (a b : float) : float :=
  if PrimFloat.is_nan a || PrimFloat.is_nan b then PrimFloat.nan
  else if (a <? b)%float then b
  else if is_negative_zero a && is_positive_zero b then b
  else a.

(** An entry of [stats]. *)
Module Stats.
Record t : Type := mk { min : float; max : float }.
End Stats.

(** The inner [forEach]: the least and the greatest [y] of a series, from
    [{ min: Infinity, max: -Infinity }]. *)
Definition series_stats (series : list Pt.t) : Stats.t :=
  fold_left (λ st point,
               Stats.mk (Math_min (Stats.min st) (Pt.y point))
                        (Math_max (Stats.max st) (Pt.y point)))
            series (Stats.mk PrimFloat.infinity PrimFloat.neg_infinity).

(** [stats], as [Object.entries] lists it once the series are scanned.  The
    wind series has no entry. *)
Definition stats_entries (data : DataSet.t) : list (string * Stats.t) :=
  [("palmas", series_stats (DataSet.palmas data));
   ("itu", series_stats (DataSet.itu data));
   ("ba", series_stats (DataSet.ba data));
   ("ram", series_stats (DataSet.ram data))].

(** How [validateData] ends: it returns, or it throws the [Error] whose
    message names a series. *)
Inductive validation : Type :=
| Validated
| InvalidData (key : string).

(** [validateData]: the first entry with a [NaN] throws. *)
Definition validateData (data : DataSet.t) : validation :=
  match List.find (λ '(key, vals),
                     PrimFloat.is_nan (Stats.min vals) || PrimFloat.is_nan (Stats.max vals))
                  (stats_entries data) with
  | Some (key, _) => InvalidData key
  | None => Validated
  end.

(** ** generateParametersLazy *)

(** [CONFIG.ranges].  [coeficientesViento] is held as [Object.entries] lists
    it, in the order of the object literal. *)
Module Ranges.
Record per_source : Type := {
  palmas : list float;
  itu : list float;
  ba : list float;
  vientos : list float
}.
Record t : Type := {
  pesos : per_source;
  lags : per_source;
  coeficientesViento : list (string * list float);
  factorViento : list float;
  offset : list float
}.
End Ranges.

Definition CONFIG_ranges : Ranges.t := {|
  Ranges.pesos := {| Ranges.palmas := [1.0; 1.5; 2.0; 2.5; 3.0];
                     Ranges.itu := [0.5; 1.0; 1.5; 2.0];
                     Ranges.ba := [0.5; 1.0; 1.5];
                     Ranges.vientos := [0.5; 1.0; 1.5; 2.0] |};
  Ranges.lags := {| Ranges.palmas := [8; 9; 10; 11; 12];
                    Ranges.itu := [6; 7; 8; 9];
                    Ranges.ba := [0; 1; 2];
                    Ranges.vientos := [0; 1; 2] |};
  Ranges.coeficientesViento :=
    [("N", [-0.02; -0.015; -0.01; -0.005]);
     ("NE", [-0.015; -0.01; -0.005; 0]);
     ("E", [0.005; 0.01; 0.015; 0.02]);
     ("SE", [0.01; 0.015; 0.02; 0.025]);
     ("S", [-0.005; 0; 0.005; 0.01]);
     ("SW", [-0.01; -0.005; 0; 0.005]);
     ("W", [-0.02; -0.015; -0.01; -0.005]);
     ("NW", [-0.025; -0.02; -0.015; -0.01])];
  Ranges.factorViento := [0.8; 0.9; 1.0; 1.1; 1.2];
  Ranges.offset := [-0.2; -0.1; 0; 0.1; 0.2]
|}%float.

(** [values[Math.floor(x)]]: the element at the integral part of [x], and
    [undefined] when [x] is negative, infinite or [NaN], or the index is
    past the end. *)
Definition at_floor (values : list float) (x : float) : value :=
  let at_index (i : Z) := from_option VNum VUndef (values !! Z.to_nat i) in
  match Prim2SF x with
  | S754_zero _ => at_index 0%Z
  | S754_finite false m e => at_index (Z.shiftl (Z.pos m) e)
  | _ => VUndef
  end.

(** [for (const x of l) body], on a state. *)
Definition for_of {A S : Type} (l : list A) (body : A → S → S) (s : S) : S :=
  fold_left (λ s x, body x s) l s.

Section Generator.
(** [random n] is what the call of [Math.random] returns that comes after
    [n] others. *)
Variable random : nat → float.

(** [getWindCoefs], from [calls] calls of [Math.random] on: the object, and
    the number of calls after it. *)
Definition getWindCoefs (ranges : Ranges.t) (calls : nat) : gmap string value * nat :=
  for_of (Ranges.coeficientesViento ranges)
         (λ '(dir, values) '(coefs, calls),
            let randomValue :=
              at_floor values (random calls * Number_of_length (length values))%float in
            let coefs := <[coef_factor dir := randomValue]> coefs in
            let coefs :=
              <[coef_peso dir := VNum (0.3 + random (S calls) * 0.7)%float]> coefs in
            (coefs, S (S calls)))
         (∅, calls).

(** The generator run to its end: the parameter sets it yields, in order.
    The state of the loops is the number of calls of [Math.random] made and
    the sets yielded so far. *)
Definition generateParametersLazy (ranges : Ranges.t) : list (gmap string value) :=
  snd
    (for_of (Ranges.palmas (Ranges.pesos ranges)) (λ pesoPalmas,
     for_of (Ranges.itu (Ranges.pesos ranges)) (λ pesoItu,
     for_of (Ranges.ba (Ranges.pesos ranges)) (λ pesoBa,
     for_of (Ranges.vientos (Ranges.pesos ranges)) (λ pesoVientos,
     for_of (Ranges.palmas (Ranges.lags ranges)) (λ lagPalmas,
     for_of (Ranges.itu (Ranges.lags ranges)) (λ lagItu,
     for_of (Ranges.ba (Ranges.lags ranges)) (λ lagBa,
     for_of (Ranges.vientos (Ranges.lags ranges)) (λ lagVientos,
     for_of (Ranges.factorViento ranges) (λ factorViento,
     for_of (Ranges.offset ranges) (λ offset '(calls, yielded),
       let '(coefs, calls') := getWindCoefs ranges calls in
       let params : gmap string value :=
         coefs ∪ list_to_map
                   [("pesoPalmas", VNum pesoPalmas); ("pesoItu", VNum pesoItu);
                    ("pesoBa", VNum pesoBa); ("pesoVientos", VNum pesoVientos);
                    ("lagPalmas", VNum lagPalmas); ("lagItu", VNum lagItu);
                    ("lagBa", VNum lagBa); ("lagVientos", VNum lagVientos);
                    ("factorViento", VNum factorViento); ("offset", VNum offset)] in
       (calls', yielded ++ [params])))))))))))
     (0%nat, [])).

End Generator.

(** ** The worker *)

(** A Number that is an integer, as an integer. *)
Definition integral_of (f : float) : option Z :=
  match Prim2SF f with
  | S754_zero _ => Some 0%Z
  | S754_finite s m e =>
      if (0 <=? e)%Z then Some (cond_Zopp s (Z.shiftl (Z.pos m) e))
      else if (Z.pos m mod 2 ^ (- e) =? 0)%Z
           then Some (cond_Zopp s (Z.shiftr (Z.pos m) (- e)))
           else None
  | _ => None
  end.

(** [Number.isFinite] *)
Definition Number_isFinite (f : float) : bool :=
  match Prim2SF f with
  | S754_zero _ | S754_finite _ _ _ => true
  | _ => false
  end.

(** *** Numbers that need not be integers *)

(** An integral Number as a binary64 datum: the integer, rounded. *)
Definition binary64_of (t : inum) : spec_float :=
  match t with
  | Int z => binary_normalize prec emax z 0 false
  | Infinity => S754_infinity false
  | NegInfinity => S754_infinity true
  | NaN => S754_nan
  end.

(** The integral part of a binary64: its fractional part is dropped. *)
Definition truncate (x : spec_float) : inum :=
  match x with
  | S754_zero _ => Int 0
  | S754_finite s m e => Int (cond_Zopp s (Z.shiftl (Z.pos m) e))
  | S754_infinity s => if s then NegInfinity else Infinity
  | S754_nan => NaN
  end.

(** *** The model of the worker *)

(** The class [RiverModel] as the worker instantiates it.  The constructor
    stores what it is given, and the worker gives it the fields of a
    parameter set as they are: a lag need not be a whole number of hours,
    nor a Number.  The record [RiverModel] above holds Numbers, and lags in
    whole hours, as [CONFIG.ranges] gives them; here every field is a
    value, made a Number where a method uses it as one, and the lagged time
    is computed in binary64.  The methods are the same otherwise. *)
Module Dyn.

Record t : Type := mk {
  weights : gmap string value;
  lags : gmap string value;
  windCoeffs : gmap string value;
  windFactor : value;
  offset : value
}.

Section WithRuntime.
Context `{Runtime}.

(** [this.lags[k]] and [this.weights[k]] as operands of [*]. *)
Definition lag_hours (m : t) (k : string) : float := JS.ToNumber (JS.get (lags m) k).
Definition weight_of (m : t) (k : string) : float := JS.ToNumber (JS.get (weights m) k).

(** [new Date(t - lag * 3600 * 1000)]: the time value of the date is the
    integral part of the difference. *)
Definition laggedDate (t : inum) (lag : float) : Date :=
  new_Date (truncate (SFsub prec emax (binary64_of t)
                        (Prim2SF (lag * 3600 * 1000)%float))).

(** [calculateComponent] *)
Definition calculateComponent (m : t) (source : string)
    (targetPoint : Pt.t) (data : list Pt.t) : outcome float :=
  match Pt.x targetPoint with
  | None => Throw TypeError
  | Some d =>
      let laggedDate := laggedDate (getTime d) (lag_hours m source) in
      let value := findClosestValue data laggedDate in
      let contribution := (value * weight_of m source)%float in
      if Num.isNaN (getTime laggedDate) then Throw RangeError
      else Return contribution
  end.

(** [calculateWindComponent] *)
Definition calculateWindComponent (m : t) (targetPoint : Pt.t)
    (windData : list Pt.t) : value :=
  match Pt.x targetPoint with
  | None => getDefaultWindValues
  | Some d =>
      if Num.isNaN (getTime d) then getDefaultWindValues
      else
        let laggedDate := laggedDate (getTime d) (lag_hours m "vientos") in
        if Num.isNaN (getTime laggedDate) then getDefaultWindValues
        else
          let windPoint := findClosestValue windData laggedDate in
          let direction := JS.Number_get windPoint "direction" in
          let speed := JS.Number_get windPoint "speed" in
          if negb (JS.truthy_num windPoint) || JS.is_undefined direction
          then getDefaultWindValues
          else
            let coeff := JS.get (windCoeffs m) (JS.ToString direction) in
            if negb (JS.truthy coeff) || JS.isNaN speed then getDefaultWindValues
            else JS.mul (JS.mul coeff speed) (windFactor m)
  end.

(** [predict] *)
Definition predict (m : t) (targetPoint : Pt.t) (inputData : InputData)
    : outcome value :=
  c_palmas ← calculateComponent m "palmas" targetPoint (palmas inputData);
  c_itu ← calculateComponent m "itu" targetPoint (itu inputData);
  c_ba ← calculateComponent m "ba" targetPoint (ba inputData);
  let c_wind := calculateWindComponent m targetPoint (vientos inputData) in
  Return (JS.add (JS.add (JS.add (JS.add (VNum c_palmas) (VNum c_itu)) (VNum c_ba)) c_wind)
                 (offset m)).

(** The body of [data.target.forEach], and [evaluate]. *)
Fixpoint evaluate_points (m : t) (data : InputData)
    (targets : list Pt.t) (results : Results) : outcome Results :=
  match targets with
  | [] => Return results
  | targetPoint :: rest =>
      prediction ← predict m targetPoint data;
      let error := (Pt.y targetPoint - JS.ToNumber prediction)%float in
      evaluate_points m data rest
        {| predictions := predictions results ++ [prediction];
           observations := observations results ++ [Pt.y targetPoint];
           errors := errors results ++ [error] |}
  end.

Definition evaluate (m : t) (data : InputData) : outcome Metrics :=
  results ← evaluate_points m data (target data)
              {| predictions := []; observations := []; errors := [] |};
  Return (calculateMetrics results).

End WithRuntime.
End Dyn.

(** *** The handler of a chunk *)

Section Worker.
Context `{Runtime}.

(** [new RiverModel({ … })] as the worker builds it from a parameter set:
    each field of the model is the field of the parameter set, a wind
    coefficient that is falsy is 0.  The weight and the lag of the wind go
    under the key [winds]. *)
Definition model_of (params : gmap string value) : Dyn.t :=
  let coeff (dir : string) : value :=
    let v := JS.get params (coef_factor dir) in
    if JS.truthy v then v else VNum 0 in
  {| Dyn.weights := list_to_map [("palmas", JS.get params "pesoPalmas");
                                 ("itu", JS.get params "pesoItu");
                                 ("ba", JS.get params "pesoBa");
                                 ("winds", JS.get params "pesoVientos")];
     Dyn.lags := list_to_map [("palmas", JS.get params "lagPalmas");
                              ("itu", JS.get params "lagItu");
                              ("ba", JS.get params "lagBa");
                              ("winds", JS.get params "lagVientos")];
     Dyn.windCoeffs := list_to_map (map (λ dir, (dir, coeff dir)) directions);
     Dyn.windFactor := JS.get params "factorViento";
     Dyn.offset := JS.get params "offset" |}.

(** [debugPredictions], which only logs: what it does is throw or not.  The
    date of each of the first two target points is printed with
    [toISOString] outside the [try]; everything else that can throw is
    inside it. *)
Definition debugPredictions (trainData : DataSet.t) : outcome unit :=
  let print_date (i : nat) : outcome unit :=
    match DataSet.ram trainData !! i with
    | Some {| Pt.x := Some d |} =>
        if Num.isNaN (getTime d) then Throw RangeError else Return ()
    | _ => Return ()
    end in
  match DataSet.ram trainData with
  | [] => Return ()
  | _ :: _ => _ ← print_date 0%nat; print_date 1%nat
  end.

(** The body of the worker's loop for the parameter set of index [i] in the
    chunk: the result it pushes, if nothing throws.  The parameter sets of a
    chunk are distinct objects (the generator makes a new one at each
    [yield]), so [params === paramsChunk[0]] holds for the first only. *)
Definition process_params (trainData : DataSet.t) (i : nat) (params : gmap string value)
    : outcome (gmap string value) :=
  let model := model_of params in
  _ ← (if Nat.eqb i 0 then debugPredictions trainData else Return ());
  metrics ← Dyn.evaluate model {| palmas := DataSet.palmas trainData;
                                  itu := DataSet.itu trainData;
                                  ba := DataSet.ba trainData;
                                  vientos := DataSet.vientos trainData;
                                  target := DataSet.ram trainData |};
  let r2_ := if Number_isFinite (r2 metrics) then r2 metrics else PrimFloat.neg_infinity in
  let rmse_ := if Number_isFinite (rmse metrics) then rmse metrics else PrimFloat.infinity in
  Return (<["testRmse" := VNum rmse_]>
            (<["trainRmse" := VNum rmse_]>
               (<["testR2" := VNum r2_]> (<["trainR2" := VNum r2_]> params)))).

(** The loop over the chunk: a parameter set whose processing throws is
    logged and left out. *)
Definition process_all (trainData : DataSet.t) (paramsChunk : list (gmap string value))
    : list (gmap string value) :=
  omap (λ '(i, params),
          match process_params trainData i params with
          | Return result => Some result
          | Throw _ => None
          end)
       (imap (λ i params, (i, params)) paramsChunk).


End Worker.

(** ** The partial files the merger reads *)

(** [s.endsWith(suffix)] *)
Definition endsWith (suffix s : string) : bool :=
  String.prefix (reverse_string suffix) (reverse_string s).

(** The digits a string begins with, and what follows them. *)
Fixpoint leading_digits (s : string) : string * string :=
  match s with
  | String c rest =>
      if is_digit c
      then let '(digits, after) := leading_digits rest in (String c digits, after)
      else (EmptyString, s)
  | EmptyString => (EmptyString, EmptyString)
  end.

(** The string after its first [n] characters. *)
Fixpoint string_drop (n : nat) (s : string) : string :=
  match n, s with
  | S n', String _ rest => string_drop n' rest
  | _, _ => s
  end.

(** [/results_(\d+)\.csv/] tried at the start of [s]: the digits captured.
    The digits are taken greedily; giving some back cannot help, the next
    character being a digit then and not the dot. *)
Definition match_here (s : string) : option string :=
  if String.prefix "results_" s then
    let '(digits, after) := leading_digits (string_drop 8 s) in
    if negb (String.eqb digits "") && String.prefix ".csv" after then Some digits else None
  else None.

(** [name.match(/results_(\d+)\.csv/)[1]], where there is a match: the
    capture of the leftmost one. *)
Fixpoint match_results (name : string) : option string :=
  match match_here name with
  | Some digits => Some digits
  | None =>
      match name with
      | String _ rest => match_results rest
      | EmptyString => None
      end
  end.

(** [parseInt(name.match(/results_(\d+)\.csv/)[1])]: reading [[1]] of the
    [null] a failed match returns throws. *)
Definition file_number (name : string) : outcome inum :=
  match match_results name with
  | Some digits => Return (parseInt digits)
  | None => Throw TypeError
  end.

(** The comparison function handed to [sort]. *)
Definition compare_names (a b : string) : outcome inum :=
  numA ← file_number a;
  numB ← file_number b;
  Return (Num.sub numA numB).

(** [sort] with that function, as a stable insertion sort: a name goes
    before the first of the names sorted so far that compares greater than it
    (a comparison that gives [NaN] counts as 0).  Which names the engine
    compares, and in which order, is its own choice; with two names or more
    every name is compared at least once, here as there. *)
Fixpoint insert_name (b : string) (sorted : list string) : outcome (list string) :=
  match sorted with
  | [] => Return [b]
  | a :: rest =>
      v ← compare_names a b;
      if Num.ltb (Int 0) v then Return (b :: a :: rest)
      else rest' ← insert_name b rest; Return (a :: rest')
  end.

Definition sort_names (names : list string) : outcome (list string) :=
  fold_left (λ sorted b, sorted ← sorted; insert_name b sorted) names (Return []).

(** [files] in [combineResults], from the names [readdirSync] returns. *)
Definition partial_files (names : list string) : outcome (list string) :=
  sort_names
    (filter (λ f, startsWith "results_" f && endsWith ".csv" f) names).

(** ** loadAllData: the split of the data *)

(** [Math.floor(x)] as the index of an array: there is none when [x] is
    negative, infinite or [NaN]. *)
Definition floor_index (x : float) : option nat :=
  match Prim2SF x with
  | S754_zero _ => Some 0%nat
  | S754_finite false m e => Some (Z.to_nat (Z.shiftl (Z.pos m) e))
  | _ => None
  end.

(** What [loadAllData] does once the five files are loaded: it throws its
    own [Error] when [ram] is empty, a [TypeError] when there is no point at
    the split index, and returns the training and the test data otherwise. *)
Inductive loaded : Type :=
  | NoRamData
  | SplitThrows (e : error)
  | Loaded (trainData testData : DataSet.t).

(** [series.filter(p => p.x <= splitDate)] and
    [series.filter(p => p.x > splitDate)], where [splitDate] is the [x] of
    the split point.  The comparison takes both dates as Numbers, their time
    values; a missing date acts as [NaN] does. *)
Definition until (splitPoint : Pt.t) (series : list Pt.t) : list Pt.t :=
  filter (λ p, Num.leb (x_getTime p) (x_getTime splitPoint)) series.

Definition after (splitPoint : Pt.t) (series : list Pt.t) : list Pt.t :=
  filter (λ p, Num.ltb (x_getTime splitPoint) (x_getTime p)) series.

(** The five series of a data set, each through [f]. *)
Definition each_series (f : list Pt.t → list Pt.t) (data : DataSet.t) : DataSet.t :=
  {| DataSet.palmas := f (DataSet.palmas data);
     DataSet.itu := f (DataSet.itu data);
     DataSet.ba := f (DataSet.ba data);
     DataSet.ram := f (DataSet.ram data);
     DataSet.vientos := f (DataSet.vientos data) |}.

(** [loadAllData], from the five series that [loadCSV] has loaded (the
    function [loadCSV] is not defined in the file). *)
Definition loadAllData (data : DataSet.t) : loaded :=
  let ram := DataSet.ram data in
  match ram with
  | [] => NoRamData
  | _ :: _ =>
      let splitIndex := floor_index (Number_of_length (length ram) * 0.7)%float in
      match splitIndex ≫= (ram !!.) with
      | Some splitPoint =>
          Loaded (each_series (until splitPoint) data) (each_series (after splitPoint) data)
      | None => SplitThrows TypeError
      end
  end.

(** * The vocabulary of the properties *)

#[local] Open Scope Z_scope.

(** ** Series *)

(** A time within [2^52] milliseconds of the epoch: differences of two
    such times are exact. *)
Definition in_range (t : Z) : Prop := Z.abs t < 2 ^ 52.

(** The point [p] is sampled at the time [t], a time in that range. *)
Definition at_time (p : Pt.t) (t : Z) : Prop :=
  Pt.x p = Some (mkDate (Int t)) ∧ in_range t.

(** ** Predictions *)

(** The text of a prediction: two Numbers around the default object. *)
Definition prediction_text `{Runtime} (sum off : float) : string :=
  (Number_toString sum +:+ "[object Object]") +:+ Number_toString off.

(** The configuration of the worked example: all lags 0, weight 1 on
    [palmas] and 0 on the others, no wind, no offset. *)
Definition example_model : RiverModel :=
  {| weights := list_to_map [("palmas", 1); ("itu", 0); ("ba", 0)]%float;
     lags := list_to_map [("palmas", 0); ("itu", 0); ("ba", 0); ("vientos", 0)];
     windCoeffs := list_to_map (map (λ d, (d, 0%float)) directions);
     windFactor := 0;
     offset := 0 |}.

(** One observation of 2.5 at time 1700000000000, and a [palmas] series
    whose only sample has that time and that value. *)
Definition example_point : Pt.t :=
  Pt.mk (Some (mkDate (Int 1700000000000))) 2.5%float None None.

Definition example_data : InputData :=
  {| palmas := [example_point]; itu := []; ba := []; vientos := [];
     target := [example_point] |}.

(** ** Binary64 *)

(** A zero or a finite non-zero number. *)
Definition sf_finite (x : spec_float) : Prop :=
  match x with S754_zero _ | S754_finite _ _ _ => True | _ => False end.

(** [x] is [NaN]. *)
Definition is_nan_f (x : float) : Prop := Prim2SF x = S754_nan.

(** [x] is [NaN] or the infinity of sign [s]. *)
Definition inf_or_nan (s : bool) (x : float) : Prop :=
  Prim2SF x = S754_nan ∨ Prim2SF x = S754_infinity s.

(** The binary64 [x] is the integer [z], with no exponent above 0: a zero
    for 0, and otherwise a mantissa that is [|z|] shifted left. *)
Definition holds (x : spec_float) (z : Z) : Prop :=
  match x with
  | S754_zero _ => z = 0
  | S754_finite s m e => -52 <= e <= 0 ∧ cond_Zopp s (Z.pos m) = z * 2 ^ (- e)
  | _ => False
  end.

(** ** Sums of squares, in exact arithmetic *)

(** The number a finite binary64 stands for. *)
Definition exact (x : float) : Q :=
  match Prim2SF x with
  | S754_finite s m e => (inject_Z (cond_Zopp s (Z.pos m)) * Qpower 2 e)%Q
  | _ => 0%Q
  end.

Definition exact_sum (l : list Q) : Q := fold_right Qplus 0%Q l.

(** The mean of the observations and their total sum of squares, with no
    rounding. *)
Definition exact_mean (obs : list float) : Q :=
  (exact_sum (map exact obs) / inject_Z (Z.of_nat (length obs)))%Q.

Definition exact_ssTotal (obs : list float) : Q :=
  exact_sum (map (λ o, (exact o - exact_mean obs) * (exact o - exact_mean obs))%Q obs).

(** Three observations of one level, [1.5 * 2^35 + 2^-16], and predictions
    one unit below. *)
Definition level : float := 0x1.8000000000002p+35%float.

Definition constant_results : Results :=
  {| predictions := VNum <$> [level - 1; level - 1; level - 1]%float;
     observations := [level; level; level];
     errors := zip_with PrimFloat.sub [level; level; level]
                 [level - 1; level - 1; level - 1]%float |}.

(** ** Columns *)

(** The default the column named [col] is given when the field is absent. *)
Definition column_default (col : string) : float :=
  if includes "R2" col then PrimFloat.neg_infinity
  else if includes "Rmse" col then PrimFloat.infinity
  else if includes "_peso" col then 0.5%float
  else 0%float.


(** [c] does not occur in [s]. *)
Definition free_of (c : ascii) (s : string) : Prop :=
  ¬ In c (list_ascii_of_string s).

(** ** Files *)

(** The path of the [n]-th partial file. *)
Definition results_path (cfg : Config) (n : nat) : string :=
  path_join (resultsDir cfg) ("results_" +:+ decimal n +:+ ".csv").

(** ** Runs of the dispatcher *)

(** What holds of [main]'s state whatever has happened so far, when the
    generator yields fewer than [2^53] parameter sets. *)
Record invariant {P : Type} (cfg : Config) (params : list P) (st : Main P)
    : Prop := {
  inv_dispatched :
    List.Forall (λ c, length c = chunkSize cfg) (dispatched st);
  inv_outstanding :
    List.Forall (λ c, length c = chunkSize cfg) (outstanding st);
  inv_idle :
    List.Forall (λ w, isBusy w = false → instance w = None) (workers st);
  inv_sum :
    processed_sum (received st)
      = Int (Z.of_nat (chunkSize cfg * length (received st)));
  inv_total : totalProcessed st = processed_sum (received st);
  inv_count :
    (length (received st) + length (outstanding st) = length (dispatched st))%nat;
  inv_pulled :
    (chunkSize cfg * length (dispatched st) + length (paramsGenerator st)
     ≤ length params)%nat;
  inv_bound : Z.of_nat (length params) < 2 ^ 53
}.

(** Three parameter sets and chunks of two. *)
Definition small_config : Config :=
  {| resultsDir := "./resultados_parciales"; maxFileSize := 50 * 1024 * 1000;
     chunkSize := 2; maxWorkers := 2 |}.

(** ** Degrees *)

(** 309 nines: a number above the largest binary64. *)
Definition long_degrees : string := string_of_list_ascii (repeat "9"%char 309).

(** ** Lookups in a series *)

(** Among samples taken at [times], the [i]-th, taken at [t], is the one a
    lookup at [q] selects: it is not taken at [q], no sample taken at
    another time than [q] is nearer to [q], and none before it in the series
    is as near. *)
Definition selects (times : list Z) (q : Z) (i : nat) (t : Z) : Prop :=
  times !! i = Some t ∧ t ≠ q
  ∧ ∀ j u, times !! j = Some u → u ≠ q →
      Z.abs (t - q) <= Z.abs (u - q) ∧ ((j < i)%nat → Z.abs (t - q) < Z.abs (u - q)).

(** A lag of at most a million hours (a little over a century). *)
Definition lag_in_range (h : Z) : Prop := Z.abs h <= 1000000.

(** The model has a lag in that range for each of the three river series. *)
Definition lags_in_range (m : RiverModel) : Prop :=
  ∀ source, In source ["palmas"; "itu"; "ba"]%string →
    ∃ h, lags m !! source = Some h ∧ lag_in_range h.

(** A run-time for the worked examples: every Number prints as [0], and
    every numeric literal reads as 0. *)
Definition example_runtime : Runtime :=
  {| Number_toString := λ _, "0"%string; StringNumericLiteral_value := λ _, 0%float |}.

(** ** The order of the chunks *)

(** The chunks posted so far are the first slices of [chunkSize] of what the
    generator yields, in order, and the generator is where the last of them
    ends, or drained. *)
Record in_order {P : Type} (cfg : Config) (params : list P) (st : Main P) : Prop := {
  ord_chunk :
    ∀ i chunk, dispatched st !! i = Some chunk →
      chunk = take (chunkSize cfg) (drop (chunkSize cfg * i) params)
      ∧ length chunk = chunkSize cfg;
  ord_generator :
    paramsGenerator st = drop (chunkSize cfg * length (dispatched st)) params
    ∨ paramsGenerator st = []
}.

(** [n] turns of the loop, each followed by the answer of the first worker. *)
Definition answered_turns (n : nat) : list event :=
  concat (replicate n [LoopTurn; Answer 0%nat]).

(** A configuration with no worker. *)
Definition no_worker_config : Config :=
  {| resultsDir := "./resultados_parciales"; maxFileSize := 50 * 1024 * 1000;
     chunkSize := 2; maxWorkers := 0 |}.

(** ** The trace of a sink, and rows *)

#[local] Open Scope string_scope.
#[local] Open Scope list_scope.








(** A text with a character that is not white space. *)
Definition nonblank (s : string) : Prop :=
  ∃ c, In c (list_ascii_of_string s) ∧ is_white c = false.

(** The text of a Number: not empty, and made of digits, signs, the dot
    and the letters of [e], [Infinity] and [NaN]. *)
Definition number_text (s : string) : Prop :=
  s ≠ ""
  ∧ List.Forall (λ c, In c (list_ascii_of_string "0123456789+-.eInfityNa"))
      (list_ascii_of_string s).

(** A result whose fields are all Numbers. *)
Definition numeric_result (result : gmap string value) : Prop :=
  ∀ col v, result !! col = Some v → ∃ f, v = VNum f.





(** The content of a partial file that holds the rows of [results]. *)
Definition partial_file `{Runtime} (results : list (gmap string value)) : string :=
  header +:+ String.concat "" (map csv_line results).

#[local] Open Scope Z_scope.

(** ** The compass *)

(** The point of the eight-point compass nearest to [n] degrees: the
    circle is cut into eight sectors of 45 degrees, the first of them centred
    on the north. *)
Definition nearest_compass_point (n : Z) : string :=
  nth (Z.to_nat (((2 * (n mod 360) + 45) / 90) mod 8)) directions "N".

(** ** Validation *)

(** The series has a sample whose value is [NaN]. *)
Definition has_nan (series : list Pt.t) : Prop :=
  ∃ p, In p series ∧ is_nan_f (Pt.y p).

(** ** The grid *)

#[local] Open Scope string_scope.
#[local] Open Scope list_scope.

(** The ten base parameters of a parameter set, in the order of the
    columns. *)
Definition base_values (params : gmap string value) : list value :=
  map (JS.get params) base_columns.

(** Every combination of one value from each of the ten ranges, the last
    range varying fastest. *)
Definition combinations (ranges : Ranges.t) : list (list value) :=
  pesoPalmas ← Ranges.palmas (Ranges.pesos ranges);
  pesoItu ← Ranges.itu (Ranges.pesos ranges);
  pesoBa ← Ranges.ba (Ranges.pesos ranges);
  pesoVientos ← Ranges.vientos (Ranges.pesos ranges);
  lagPalmas ← Ranges.palmas (Ranges.lags ranges);
  lagItu ← Ranges.itu (Ranges.lags ranges);
  lagBa ← Ranges.ba (Ranges.lags ranges);
  lagVientos ← Ranges.vientos (Ranges.lags ranges);
  factorViento ← Ranges.factorViento ranges;
  offset ← Ranges.offset ranges;
  [VNum <$> [pesoPalmas; pesoItu; pesoBa; pesoVientos;
             lagPalmas; lagItu; lagBa; lagVientos; factorViento; offset]].

(** The number of combinations. *)
Definition grid_size (ranges : Ranges.t) : nat :=
  length (Ranges.palmas (Ranges.pesos ranges))
  * (length (Ranges.itu (Ranges.pesos ranges))
  * (length (Ranges.ba (Ranges.pesos ranges))
  * (length (Ranges.vientos (Ranges.pesos ranges))
  * (length (Ranges.palmas (Ranges.lags ranges))
  * (length (Ranges.itu (Ranges.lags ranges))
  * (length (Ranges.ba (Ranges.lags ranges))
  * (length (Ranges.vientos (Ranges.lags ranges))
  * (length (Ranges.factorViento ranges)
  * length (Ranges.offset ranges))))))))).

#[local] Open Scope Z_scope.

(** ** The rows of a worker *)

#[local] Open Scope string_scope.
#[local] Open Scope list_scope.


(** An example of a parameter set: lags of 8, 6 and 0 hours. *)
Definition example_params : gmap string value :=
  list_to_map [("pesoPalmas", VNum 1); ("lagPalmas", VNum 8); ("lagItu", VNum 6);
               ("lagBa", VNum 0)]%float.

Definition example_trainData : DataSet.t :=
  {| DataSet.palmas := [example_point]; DataSet.itu := []; DataSet.ba := [];
     DataSet.ram := [example_point]; DataSet.vientos := [] |}.

(** A parameter set with a lag of half an hour. *)
Definition half_hour_params : gmap string value :=
  list_to_map [("pesoPalmas", VNum 1); ("lagPalmas", VNum 0.5); ("lagItu", VNum 6);
               ("lagBa", VNum 0)]%float.

(** The result a worker pushes for a parameter set: the set itself, with
    [r2] for both R2 fields and [Infinity] for both RMSE fields. *)
Definition result_row (r2 : float) (params : gmap string value) : gmap string value :=
  <["testRmse" := VNum PrimFloat.infinity]>
    (<["trainRmse" := VNum PrimFloat.infinity]>
       (<["testR2" := VNum r2]> (<["trainR2" := VNum r2]> params))).

#[local] Open Scope Z_scope.

(** ** The names of the partial files *)

#[local] Open Scope string_scope.
#[local] Open Scope list_scope.

(** The name of the [n]-th partial file of a sink. *)
Definition file_name (n : nat) : string := "results_" +:+ decimal n +:+ ".csv".

(** Inserting a number in a sorted list: before the first greater one. *)
Fixpoint insert_number (b : nat) (sorted : list nat) : list nat :=
  match sorted with
  | [] => [b]
  | a :: rest => if (b <? a)%nat then b :: a :: rest else a :: insert_number b rest
  end.

#[local] Open Scope Z_scope.

(** ** The split of the data *)

(** The five series of a data set. *)
Definition the_series : list (DataSet.t → list Pt.t) :=
  [DataSet.palmas; DataSet.itu; DataSet.ba; DataSet.ram; DataSet.vientos].

(** A data set without a point. *)
Definition no_data : DataSet.t := DataSet.mk [] [] [] [] [].

(** A point sampled at the time [t]. *)
Definition sampled (t : Z) (v : float) : Pt.t := Pt.mk (Some (mkDate (Int t))) v None None.

(** An example of loaded data: four levels an hour apart at the target
    station, three at [palmas], one of them without a date. *)
Definition example_loaded : DataSet.t :=
  {| DataSet.palmas := [sampled 0 1.5; Pt.mk None 1.25 None None; sampled 9000000 1.75];
     DataSet.itu := [];
     DataSet.ba := [];
     DataSet.ram := [sampled 0 2.5; sampled 3600000 2.75; sampled 7200000 3;
                     sampled 10800000 3.25];
     DataSet.vientos := [] |}%float.

(** ** The wind coefficients *)

(** [Math.random] returns Numbers at least 0 and below 1. *)
Definition in_unit_interval (random : nat → float) : Prop :=
  ∀ n, (0 <=? random n)%float = true ∧ (random n <? 1)%float = true.

(** The values a range gives for each direction: one at least, and fewer
    than [2^32], as in every array. *)
Definition proper_values (entries : list (string * list float)) : Prop :=
  List.Forall (λ entry, snd entry ≠ [] ∧ Z.of_nat (length (snd entry)) < 2 ^ 32) entries.

(** The parameter set has, for the direction [dir], one of the factors that
    [entries] gives for it. *)
Definition factor_from (entries : list (string * list float)) (params : gmap string value)
    (dir : string) : Prop :=
  ∃ values v, In (dir, values) entries ∧ In v values
              ∧ params !! coef_factor dir = Some (VNum v).

(** An example of what [Math.random] may return. *)
Definition example_random (n : nat) : float :=
  if Nat.even n then 0.25%float else 0x1.fffffffffffffp-1%float.

(** * Properties *)

#[local] Open Scope Z_scope.

(** ** Integers as Numbers *)

Lemma digits2_lower (p : positive) : 2 ^ (Z.pos (digits2_pos p) - 1) <= Z.pos p.
Proof.
  induction p as [p IH | p IH |]; cbn [digits2_pos].
  - rewrite Pos2Z.inj_succ. replace (Z.succ (Z.pos (digits2_pos p)) - 1) with (Z.succ (Z.pos (digits2_pos p) - 1)) by lia.
    rewrite Z.pow_succ_r by lia. lia.
  - rewrite Pos2Z.inj_succ. replace (Z.succ (Z.pos (digits2_pos p)) - 1) with (Z.succ (Z.pos (digits2_pos p) - 1)) by lia.
    rewrite Z.pow_succ_r by lia. lia.
  - simpl. lia.
Qed.

Lemma digits2_iter_xO (p k : positive) :
  Z.pos (digits2_pos (Pos.iter xO p k)) = Z.pos (digits2_pos p) + Z.pos k.
Proof.
  induction k as [|k IH] using Pos.peano_ind.
  - simpl. lia.
  - rewrite Pos.iter_succ. cbn [digits2_pos]. lia.
Qed.

Lemma pos_iter_xO (p k : positive) :
  Z.pos (Pos.iter xO p k) = Z.pos p * 2 ^ Z.pos k.
Proof.
  induction k as [|k IH] using Pos.peano_ind.
  - simpl. lia.
  - rewrite Pos.iter_succ, Pos2Z.inj_xO, IH, Pos2Z.inj_succ, Z.pow_succ_r by lia. lia.
Qed.

(** Below [2^53] an integer is a binary64 as it stands. *)
Lemma binary_round_exact (s : bool) (p : positive) :
  Z.pos p < 2 ^ 53 →
  ∃ m e, binary_round prec emax s p 0 = S754_finite s m e
         ∧ Z.shiftl (Z.pos m) e = Z.pos p.
Proof.
  intros Hp.
  assert (Hd : Z.pos (digits2_pos p) <= 53).
  { destruct (Z.le_gt_cases (Z.pos (digits2_pos p)) 53) as [|Hgt]; [assumption|].
    pose proof (digits2_lower p) as Hl.
    assert (2 ^ 53 <= 2 ^ (Z.pos (digits2_pos p) - 1)) by (apply Z.pow_le_mono_r; lia).
    lia. }
  unfold binary_round.
  assert (Hf : ∀ d, 1 <= d <= 53 → fexp prec emax d = d - 53).
  { intros d Hd'. unfold fexp, emin, prec, emax. lia. }
  rewrite Z.add_0_r, Hf by lia.
  unfold shl_align.
  destruct (Z.pos (digits2_pos p) - 53 - 0) as [|k|k] eqn:Ek; [| lia |].
  - unfold binary_round_aux, shr_fexp. cbn [Zdigits2 shr_record_of_loc].
    rewrite Z.add_0_r, Hf by lia.
    replace (Z.pos (digits2_pos p) - 53 - 0) with 0 by lia.
    cbn [shr shr_m loc_of_shr_record round_nearest_even Zdigits2 shr_record_of_loc].
    rewrite Z.add_0_r, Hf by lia.
    replace (Z.pos (digits2_pos p) - 53 - 0) with 0 by lia.
    cbn. eauto.
  - unfold binary_round_aux, shr_fexp. cbn [Zdigits2 shr_record_of_loc].
    rewrite digits2_iter_xO.
    replace (Z.pos (digits2_pos p) + Z.pos k + (Z.pos (digits2_pos p) - 53))
      with (Z.pos (digits2_pos p)) by lia.
    rewrite Hf by lia. rewrite Z.sub_diag.
    cbn [shr shr_m loc_of_shr_record round_nearest_even Zdigits2 shr_record_of_loc].
    rewrite digits2_iter_xO.
    replace (Z.pos (digits2_pos p) + Z.pos k + (Z.pos (digits2_pos p) - 53))
      with (Z.pos (digits2_pos p)) by lia.
    rewrite Hf by lia. rewrite Z.sub_diag.
    cbn [shr shr_m].
    destruct (Z.leb_spec (Z.pos (digits2_pos p) - 53) (emax - prec)) as [|Hgt];
      [|unfold emax, prec in Hgt; lia].
    eexists _, _. split; [reflexivity|].
    replace (Z.pos (digits2_pos p) - 53) with (- Z.pos k) by lia.
    rewrite Z.shiftl_div_pow2, Z.opp_involutive, pos_iter_xO by lia.
    apply Z.div_mul. lia.
Qed.

Lemma Number_of_Z_exact (z : Z) : Z.abs z < 2 ^ 53 → Number_of_Z z = Int z.
Proof.
  intros Hz. unfold Number_of_Z. destruct z as [|p|p]; [reflexivity | |];
    cbn [binary_normalize].
  - destruct (binary_round_exact false p) as (m & e & -> & Hs); [lia|].
    cbn [cond_Zopp]. now rewrite Hs.
  - destruct (binary_round_exact true p) as (m & e & -> & Hs); [lia|].
    cbn [cond_Zopp]. now rewrite Hs.
Qed.

Lemma add_exact (u v : Z) :
  Z.abs (u + v) < 2 ^ 53 → Num.add (Int u) (Int v) = Int (u + v).
Proof. intros Hb. cbn [Num.add]. now apply Number_of_Z_exact. Qed.

Lemma sub_exact (u v : Z) :
  Z.abs (u - v) < 2 ^ 53 → Num.sub (Int u) (Int v) = Int (u - v).
Proof.
  intros Hb. unfold Num.sub. cbn [Num.opp].
  rewrite add_exact by (replace (u + - v) with (u - v) by lia; exact Hb).
  reflexivity.
Qed.

(** ** Nearest-neighbour lookup on a sorted series *)

Section Nearest.
Variable q : Z.
Hypothesis q_in_range : in_range q.

Lemma or_else_Int_0 (t : Z) : Num.or_else (Int t) (Int 0) = Int t.
Proof. unfold Num.or_else. destruct t; reflexivity. Qed.

Lemma or_else_distance (t : Z) :
  in_range t → t ≠ q →
  Num.or_else (Num.abs (Num.sub (Int t) (Int q))) Infinity = Int (Z.abs (t - q)).
Proof.
  unfold in_range in *. intros Hr Ht.
  rewrite sub_exact by lia. cbn [Num.abs]. unfold Num.or_else.
  destruct (Z.abs (t - q)) eqn:E; simpl; [lia | reflexivity | reflexivity].
Qed.

Lemma closer_valid (prev curr : Pt.t) (tp tc : Z) :
  at_time prev tp → at_time curr tc → tp ≠ q → tc ≠ q →
  closer (Int q) prev curr =
    if Z.abs (tc - q) <? Z.abs (tp - q) then curr else prev.
Proof.
  unfold at_time, closer, x_getTime. intros [-> Hrp] [-> Hrc] Hp Hc. cbn [getTime].
  rewrite or_else_Int_0, !or_else_distance by assumption. reflexivity.
Qed.

Lemma closer_y0 (curr : Pt.t) (tc : Z) :
  at_time curr tc → tc ≠ q → closer (Int q) y0 curr = curr.
Proof.
  unfold at_time, closer, x_getTime. intros [-> Hrc] Hc. cbn [getTime Pt.x y0].
  rewrite or_else_Int_0, or_else_distance by assumption. reflexivity.
Qed.

(** The scan returns its start or one of the scanned points. *)
Lemma fold_closer_elem (l : list Pt.t) (c : Pt.t) :
  fold_left (closer (Int q)) l c = c ∨ In (fold_left (closer (Int q)) l c) l.
Proof.
  revert c. induction l as [|p l IH]; intros c; simpl; [now left|].
  destruct (IH (closer (Int q) c p)) as [E|E].
  - rewrite E. unfold closer. destruct (Num.ltb _ _); [right; now left | now left].
  - right. now right.
Qed.

(** Points no nearer than the current candidate leave it in place. *)
Lemma fold_closer_keep (l : list Pt.t) (ts : list Z) (c : Pt.t) (tc : Z) :
  Forall2 at_time l ts → at_time c tc → tc ≠ q →
  Forall (λ t, t ≠ q ∧ Z.abs (tc - q) <= Z.abs (t - q)) ts →
  fold_left (closer (Int q)) l c = c.
Proof.
  intros Hl Hc Hq. revert c Hc.
  induction Hl as [|p t l ts Hp Hl IH]; intros c Hc Hall; simpl; [reflexivity|].
  inversion Hall as [|? ? [Ht Hle] Hall']; subst.
  rewrite (closer_valid c p tc t) by assumption.
  destruct (Z.ltb_spec (Z.abs (t - q)) (Z.abs (tc - q))); [lia|].
  now apply IH.
Qed.

Lemma Forall2_at_time_In (l : list Pt.t) (ts : list Z) (r : Pt.t) :
  Forall2 at_time l ts → In r l → ∃ t, In t ts ∧ at_time r t.
Proof.
  induction 1 as [|p t l ts Hp Hl IH]; simpl; [tauto|].
  intros [<-|Hin]; [exists t; auto|].
  destruct (IH Hin) as (u & Hu & Hr). exists u; auto.
Qed.

(** The scan over a series split around the two neighbours of [q]. *)
Lemma fold_closer_split (l1 l2 : list Pt.t) (ts1 ts2 : list Z)
    (p p' : Pt.t) (t t' : Z) :
  Forall2 at_time l1 ts1 → Forall2 at_time l2 ts2 →
  at_time p t → at_time p' t' →
  Forall (λ u, u < t) ts1 → Forall (λ u, t' < u) ts2 →
  t < q < t' →
  fold_left (closer (Int q)) (l1 ++ p :: p' :: l2) y0
    = if q - t <=? t' - q then p else p'.
Proof.
  intros H1 H2 Hp Hp' Hlt Hgt Hq.
  rewrite fold_left_app. simpl.
  assert (Hfirst : closer (Int q) (fold_left (closer (Int q)) l1 y0) p = p).
  { destruct (fold_closer_elem l1 y0) as [-> | Hin].
    - apply (closer_y0 p t); [assumption | lia].
    - destruct (Forall2_at_time_In _ _ _ H1 Hin) as (u & Hu & Hr).
      rewrite List.Forall_forall in Hlt. specialize (Hlt u Hu).
      rewrite (closer_valid _ p u t) by (assumption || lia).
      destruct (Z.ltb_spec (Z.abs (t - q)) (Z.abs (u - q))); [reflexivity | lia]. }
  rewrite Hfirst.
  rewrite (closer_valid p p' t t') by (assumption || lia).
  destruct (Z.leb_spec (q - t) (t' - q)) as [Hle | Hgt'].
  - destruct (Z.ltb_spec (Z.abs (t' - q)) (Z.abs (t - q))); [lia|].
    apply (fold_closer_keep l2 ts2 p t); [assumption | assumption | lia |].
    eapply List.Forall_impl; [|exact Hgt]. simpl. intros u Hu. lia.
  - destruct (Z.ltb_spec (Z.abs (t' - q)) (Z.abs (t - q))); [|lia].
    apply (fold_closer_keep l2 ts2 p' t'); [assumption | assumption | lia |].
    eapply List.Forall_impl; [|exact Hgt]. simpl. intros u Hu. lia.
Qed.

End Nearest.

Lemma StronglySorted_around (l1 l2 : list Z) (a b : Z) :
  StronglySorted Z.lt (l1 ++ a :: b :: l2) →
  Forall (λ u, u < a) l1 ∧ Forall (λ u, b < u) l2.
Proof.
  induction l1 as [|c l1 IH]; simpl; intros Hs.
  - split; [constructor|].
    apply StronglySorted_inv in Hs as [Hs _].
    apply StronglySorted_inv in Hs as [_ Hb]. exact Hb.
  - apply StronglySorted_inv in Hs as [Hs Hc].
    destruct (IH Hs) as [H1 H2]. split; [|exact H2].
    constructor; [|exact H1].
    rewrite List.Forall_forall in Hc. apply Hc. apply in_or_app. right. now left.
Qed.

Lemma split_two_consecutive {A : Type} (l : list A) (i : nat) (a b : A) :
  l !! i = Some a → l !! S i = Some b →
  l = take i l ++ a :: b :: drop (S (S i)) l.
Proof.
  intros Ha Hb.
  rewrite <- (drop_S l b (S i) Hb), <- (drop_S l a i Ha).
  symmetry. apply take_drop.
Qed.

(** C8.  In a series sampled at strictly increasing times (within [2^52]
    milliseconds of the epoch), a lookup at a time strictly between two
    consecutive samples returns the value of the nearer of the two, and the
    value of the earlier one when both are equally near. *)
Theorem findClosestValue_between_neighbours
    (data : list Pt.t) (times : list Z) (i : nat) (p p' : Pt.t) (t t' q : Z) :
  Forall2 at_time data times →
  StronglySorted Z.lt times →
  data !! i = Some p → data !! S i = Some p' →
  times !! i = Some t → times !! S i = Some t' →
  t < q < t' →
  findClosestValue data (mkDate (Int q))
    = Pt.y (if q - t <=? t' - q then p else p').
Proof.
  intros Hall Hsorted Hp Hp' Ht Ht' Hq.
  pose proof (split_two_consecutive data i p p' Hp Hp') as Hd.
  pose proof (split_two_consecutive times i t t' Ht Ht') as Hts.
  rewrite Hts in Hsorted. apply StronglySorted_around in Hsorted as [Hlt Hgt].
  assert (Hpt : at_time p t) by (eapply Forall2_lookup_lr; eassumption).
  assert (Hpt' : at_time p' t') by (eapply Forall2_lookup_lr; eassumption).
  assert (Hrange : in_range q).
  { destruct Hpt as [_ Hr], Hpt' as [_ Hr']. unfold in_range in *. lia. }
  unfold findClosestValue. simpl. f_equal. rewrite Hd.
  apply (fold_closer_split q Hrange _ _ (take i times) (drop (S (S i)) times) p p' t t');
    try assumption.
  - now apply Forall2_take.
  - now apply Forall2_drop.
Qed.

Lemma findClosestValue_between_neighbours_witness :
  let pt (t : Z) (v : float) := Pt.mk (Some (mkDate (Int t))) v None None in
  findClosestValue [pt 0 1.5%float; pt 10 2.5%float; pt 30 3.5%float] (mkDate (Int 20))
    = 2.5%float.
Proof.
  intros pt.
  apply (findClosestValue_between_neighbours
           [pt 0 1.5%float; pt 10 2.5%float; pt 30 3.5%float] [0; 10; 30] 1
           (pt 10 2.5%float) (pt 30 3.5%float) 10 30 20).
  - repeat constructor.
  - repeat constructor; lia.
  - reflexivity.
  - reflexivity.
  - reflexivity.
  - reflexivity.
  - lia.
Defined.

(** ** The prediction *)

(** A sample taken exactly at the target time has distance [0], which
    [|| Infinity] turns into [Infinity]: it never replaces the candidate. *)
Lemma closer_exact_match (q : Z) (prev curr : Pt.t) :
  at_time curr q → closer (Int q) prev curr = prev.
Proof.
  unfold at_time, closer, x_getTime. intros [-> _]. cbn [getTime].
  rewrite or_else_Int_0.
  assert (E : Num.or_else (Num.abs (Num.sub (Int q) (Int q))) Infinity = Infinity).
  { unfold Num.sub. cbn [Num.opp Num.add].
    replace (q + - q) with 0 by lia. reflexivity. }
  rewrite E. clear E. now destruct (Num.or_else _ Infinity).
Qed.

(** A series of one sample, looked up at the very time of that sample,
    yields 0 and not the sample's value. *)
Lemma findClosestValue_single_exact (q : Z) (p : Pt.t) :
  at_time p q → findClosestValue [p] (mkDate (Int q)) = 0%float.
Proof.
  intros Hp. unfold findClosestValue. cbn [getTime Num.isNaN fold_left].
  now rewrite (closer_exact_match q y0 p Hp).
Qed.

Lemma findClosestValue_single_exact_witness :
  findClosestValue [example_point] (mkDate (Int 1700000000000)) = 0%float.
Proof.
  apply (findClosestValue_single_exact 1700000000000 example_point).
  split; reflexivity.
Defined.

Lemma list_ascii_of_string_app (a b : string) :
  list_ascii_of_string (a +:+ b) = list_ascii_of_string a ++ list_ascii_of_string b.
Proof. induction a as [|c a IH]; simpl; [reflexivity | now rewrite IH]. Qed.

Section PredictionFacts.
Context `{Runtime}.

(** Step 4 of [calculateWindComponent] always takes the default: the
    nearest-neighbour lookup hands back a Number, and a Number has no
    [direction]. *)
Lemma calculateWindComponent_default (m : RiverModel) (targetPoint : Pt.t)
    (windData : list Pt.t) :
  calculateWindComponent m targetPoint windData = getDefaultWindValues.
Proof.
  unfold calculateWindComponent.
  destruct (Pt.x targetPoint) as [d|]; [|reflexivity].
  destruct (Num.isNaN (getTime d)); [reflexivity|].
  destruct (Num.isNaN (getTime (new_Date _))); [reflexivity|].
  cbn [JS.Number_get JS.is_undefined]. now rewrite orb_true_r.
Qed.

Lemma add_default_wind (a b : float) :
  JS.add (JS.add (VNum a) getDefaultWindValues) (VNum b) = VStr (prediction_text a b).
Proof. reflexivity. Qed.

Lemma StringToNumber_prediction_text (a b : float) :
  JS.StringToNumber (prediction_text a b) = PrimFloat.nan.
Proof.
  unfold JS.StringToNumber, prediction_text.
  rewrite !list_ascii_of_string_app, !forallb_app.
  replace (forallb JS.numeric_char (list_ascii_of_string "[object Object]"))
    with false by (vm_compute; reflexivity).
  now rewrite andb_false_r.
Qed.

(** C1.  Whatever the model, the series and the target point, [predict]
    does not return a Number: it throws, or it returns the text of the sum
    of the three components, of the default wind object and of the offset. *)
Theorem predict_is_never_a_number (m : RiverModel) (targetPoint : Pt.t)
    (inputData : InputData) :
  (∃ e, predict m targetPoint inputData = Throw e)
  ∨ (∃ sum, predict m targetPoint inputData
              = Return (VStr (prediction_text sum (offset m)))).
Proof.
  unfold predict.
  destruct (calculateComponent m "palmas" _ _) as [a|e]; [|left; now exists e].
  destruct (calculateComponent m "itu" _ _) as [b|e]; [|left; now exists e].
  destruct (calculateComponent m "ba" _ _) as [c|e]; [|left; now exists e].
  right. exists (a + b + c)%float.
  cbn [mbind outcome_bind]. rewrite calculateWindComponent_default.
  reflexivity.
Qed.

End PredictionFacts.

Section ExampleFacts.
Context `{Runtime}.

(** C5.  On the worked example the lookup skips the sample that matches the
    target time and returns 0; the prediction is a text, not 2.5; RMSE is
    [NaN], not 0. *)
Theorem example_prediction_is_not_the_observation :
  findClosestValue (palmas example_data) (mkDate (Int 1700000000000)) = 0%float
  ∧ predict example_model example_point example_data
      = Return (VStr (prediction_text 0 0))
  ∧ evaluate example_model example_data
      = Return {| r2 := 0; rmse := PrimFloat.nan;
                  returned_predictions := Some [VStr (prediction_text 0 0)] |}.
Proof.
  assert (Hp : predict example_model example_point example_data
               = Return (VStr (prediction_text 0 0))) by (vm_compute; reflexivity).
  split; [reflexivity|]. split; [exact Hp|].
  unfold evaluate. cbn [target example_data evaluate_points].
  rewrite Hp. cbn [mbind outcome_bind JS.ToNumber].
  rewrite StringToNumber_prediction_text. vm_compute. reflexivity.
Qed.

End ExampleFacts.

(** ** The metrics *)

(** *** Binary64 facts, from the specification of the primitive floats *)

Lemma Number_of_length_positive (n : nat) :
  (0 < n)%nat → Z.of_nat n < 2 ^ 53 →
  ∃ m e, Prim2SF (Number_of_length n) = S754_finite false m e.
Proof.
  intros Hn Hb. unfold Number_of_length.
  rewrite of_uint63_spec, Uint63.of_Z_spec.
  rewrite Z.mod_small by (change wB with (2 ^ 63); lia).
  destruct (Z.of_nat n) as [|p|p] eqn:E; [lia | | lia].
  cbn [binary_normalize].
  destruct (binary_round_exact false p) as (m & e & Hr & _); [lia | eauto].
Qed.

Lemma sub_self (x : float) : sf_finite (Prim2SF x) → (x - x)%float = 0%float.
Proof.
  intros Hx. apply Prim2SF_inj. rewrite sub_spec.
  destruct (Prim2SF x) as [s|s| |s m e]; try contradiction.
  - now destruct s.
  - unfold SF64sub, SFsub. rewrite Z.sub_diag. reflexivity.
Qed.

Lemma zero_div_positive (y : float) :
  (0 <? y)%float = true → (0 / y)%float = 0%float.
Proof.
  rewrite ltb_spec. intros Hy. apply Prim2SF_inj. rewrite div_spec.
  change (Prim2SF 0) with (S754_zero false) in *.
  destruct (Prim2SF y) as [s|s| |s m e]; try discriminate Hy.
  - now destruct s.
  - now destruct s.
Qed.

Lemma zero_div_length (n : nat) :
  (0 < n)%nat → Z.of_nat n < 2 ^ 53 → (0 / Number_of_length n)%float = 0%float.
Proof.
  intros Hn Hb. destruct (Number_of_length_positive n Hn Hb) as (m & e & E).
  apply Prim2SF_inj. rewrite div_spec, E. reflexivity.
Qed.

Lemma SFcompare_Lt_Gt (x y : spec_float) :
  SFcompare x y = Some Lt → SFcompare y x = Some Gt.
Proof.
  destruct x as [sx|sx| |sx mx ex], y as [sy|sy| |sy my ey]; unfold SFcompare;
    try discriminate; try (destruct sx; try destruct sy; congruence).
  assert (Hm : Pos.compare_cont Eq my mx = CompOpp (Pos.compare_cont Eq mx my))
    by (symmetry; apply (Pos.compare_cont_antisym mx my Eq)).
  rewrite Hm, (Z.compare_antisym ex ey).
  destruct sx, sy; try congruence;
    destruct (ex ?= ey); cbn [CompOpp]; try congruence;
    destruct (Pos.compare_cont Eq mx my); cbn [CompOpp]; congruence.
Qed.

Lemma ltb_leb_false (x y : float) : (x <? y)%float = true → (y <=? x)%float = false.
Proof.
  rewrite ltb_spec, leb_spec. unfold SFltb, SFleb.
  destruct (SFcompare (Prim2SF x) (Prim2SF y)) as [[| |]|] eqn:E; try discriminate.
  intros _. now rewrite (SFcompare_Lt_Gt _ _ E).
Qed.

Lemma gt_threshold_positive (y : float) :
  (1e-10 <? y)%float = true → (0 <? y)%float = true.
Proof.
  rewrite !ltb_spec.
  replace (Prim2SF 1e-10) with (S754_finite false 7737125245533627 (-86)) by reflexivity.
  change (Prim2SF 0) with (S754_zero false).
  destruct (Prim2SF y) as [s|s| |s m e]; simpl; try discriminate.
  - now destruct s.
  - now destruct s.
Qed.

Lemma add_inf_or_nan_l (s : bool) (a o : float) :
  inf_or_nan s a → inf_or_nan s (a + o).
Proof.
  unfold inf_or_nan. rewrite add_spec. intros [-> | ->].
  - left. now destruct (Prim2SF o).
  - destruct (Prim2SF o) as [s'|s'| |s' m e]; simpl; auto.
    destruct s, s'; auto.
Qed.

Lemma add_inf_or_nan_r (s : bool) (a o : float) :
  inf_or_nan s o → inf_or_nan s (a + o).
Proof.
  unfold inf_or_nan. rewrite add_spec. intros [-> | ->].
  - left. now destruct (Prim2SF a).
  - destruct (Prim2SF a) as [s'|s'| |s' m e]; simpl; auto.
    destruct s, s'; auto.
Qed.

Lemma sum_inf_or_nan (s : bool) (obs : list float) (a o : float) :
  inf_or_nan s a ∨ (In o obs ∧ inf_or_nan s o) →
  inf_or_nan s (fold_left (λ sum v, (sum + v)%float) obs a).
Proof.
  revert a. induction obs as [|v obs IH]; intros a [Ha | [Hin Ho]]; simpl.
  - exact Ha.
  - contradiction.
  - apply IH. left. now apply add_inf_or_nan_l.
  - destruct Hin as [-> | Hin].
    + apply IH. left. now apply add_inf_or_nan_r.
    + apply IH. right. auto.
Qed.

Lemma div_inf_or_nan (s : bool) (a n : float) (m : positive) (e : Z) :
  Prim2SF n = S754_finite false m e → inf_or_nan s a → inf_or_nan s (a / n).
Proof.
  unfold inf_or_nan. rewrite div_spec. intros -> [-> | ->]; simpl; auto.
  right. now destruct s.
Qed.

Lemma sub_inf_or_nan (s : bool) (o mean : float) :
  inf_or_nan s o → inf_or_nan s mean → is_nan_f (o - mean).
Proof.
  unfold inf_or_nan, is_nan_f. rewrite sub_spec. intros [-> | ->] [-> | ->]; simpl; auto.
  now destruct s.
Qed.

Lemma mul_nan (x : float) : is_nan_f x → is_nan_f (x * x).
Proof. unfold is_nan_f. rewrite mul_spec. now intros ->. Qed.

Lemma add_nan_l (a b : float) : is_nan_f a → is_nan_f (a + b).
Proof. unfold is_nan_f. rewrite add_spec. intros ->. now destruct (Prim2SF b). Qed.

Lemma add_nan_r (a b : float) : is_nan_f b → is_nan_f (a + b).
Proof. unfold is_nan_f. rewrite add_spec. intros ->. now destruct (Prim2SF a). Qed.

Lemma fold_nan_term (f : float → float) (obs : list float) (a o : float) :
  is_nan_f a ∨ (In o obs ∧ is_nan_f (f o)) →
  is_nan_f (fold_left (λ sum v, (sum + f v)%float) obs a).
Proof.
  revert a. induction obs as [|v obs IH]; intros a [Ha | [Hin Ho]]; simpl.
  - exact Ha.
  - contradiction.
  - apply IH. left. now apply add_nan_l.
  - destruct Hin as [-> | Hin].
    + apply IH. left. now apply add_nan_r.
    + apply IH. right. auto.
Qed.

(** *** calculateMetrics *)

(** No observation: R2 is 0 and RMSE is [Infinity]. *)
Theorem calculateMetrics_empty (preds : list value) (errs : list float) :
  calculateMetrics {| predictions := preds; observations := []; errors := errs |}
    = {| r2 := 0; rmse := PrimFloat.infinity; returned_predictions := None |}.
Proof. reflexivity. Qed.

Lemma ssTotal_nan_of_nonfinite (obs : list float) (o : float) :
  Z.of_nat (length obs) < 2 ^ 53 → In o obs → ¬ sf_finite (Prim2SF o) →
  is_nan_f (ssTotal_of obs).
Proof.
  intros Hb Hin Ho.
  assert (Hlen : (0 < length obs)%nat) by (destruct obs; [contradiction | simpl; lia]).
  assert (Hs : ∃ s, inf_or_nan s o).
  { unfold inf_or_nan. destruct (Prim2SF o) as [s|s| |s m e]; simpl in Ho;
      try tauto; [exists s; now right | exists false; now left]. }
  destruct Hs as [s Hs].
  destruct (Number_of_length_positive (length obs) Hlen Hb) as (m & e & En).
  assert (Hmean : inf_or_nan s (meanObserved_of obs)).
  { unfold meanObserved_of. apply (div_inf_or_nan s _ _ m e En).
    apply (sum_inf_or_nan s obs 0%float o). right. auto. }
  unfold ssTotal_of.
  apply (fold_nan_term (λ v, Math_pow2 (v - meanObserved_of obs)%float) obs 0%float o).
  right. split; [assumption|]. apply mul_nan. now apply (sub_inf_or_nan s).
Qed.

Lemma observations_finite (obs : list float) :
  Z.of_nat (length obs) < 2 ^ 53 → (1e-10 <? ssTotal_of obs)%float = true →
  List.Forall (λ o, sf_finite (Prim2SF o)) obs.
Proof.
  intros Hb Hgt. apply List.Forall_forall. intros o Hin.
  destruct (Prim2SF o) as [s|s| |s m e] eqn:E; simpl; auto; exfalso.
  - assert (Hn : is_nan_f (ssTotal_of obs)).
    { apply (ssTotal_nan_of_nonfinite obs o Hb Hin). rewrite E. simpl. tauto. }
    rewrite ltb_spec, Hn in Hgt. now destruct (Prim2SF 1e-10).
  - assert (Hn : is_nan_f (ssTotal_of obs)).
    { apply (ssTotal_nan_of_nonfinite obs o Hb Hin). rewrite E. simpl. tauto. }
    rewrite ltb_spec, Hn in Hgt. now destruct (Prim2SF 1e-10).
Qed.

Lemma sumSquaredErrors_identical (obs : list float) :
  List.Forall (λ o, sf_finite (Prim2SF o)) obs →
  sumSquaredErrors_of (zip_with PrimFloat.sub obs obs) = 0%float.
Proof.
  unfold sumSquaredErrors_of. induction 1 as [|o obs Ho Hall IH]; [reflexivity|].
  cbn [zip_with fold_left]. rewrite (sub_self o Ho).
  change (0 + 0 * 0)%float with 0%float. exact IH.
Qed.

(** For predictions and observations of one length (an array's, below
    [2^32]) and the errors [evaluate] derives from them: when the total sum
    of squares is at most [1e-10], R2 is 0 whatever the predictions are; when
    the predictions are the observations and the total sum of squares
    exceeds [1e-10], RMSE is 0 and R2 is 1. *)
Theorem calculateMetrics_identical_or_constant (preds obs : list float) :
  length preds = length obs → Z.of_nat (length obs) < 2 ^ 32 →
  let res := {| predictions := VNum <$> preds;
                observations := obs;
                errors := zip_with PrimFloat.sub obs preds |} in
  ((ssTotal_of obs <=? 1e-10)%float = true → r2 (calculateMetrics res) = 0%float)
  ∧ (preds = obs → (1e-10 <? ssTotal_of obs)%float = true →
     rmse (calculateMetrics res) = 0%float ∧ r2 (calculateMetrics res) = 1%float).
Proof.
  intros Hlen Hb res. split.
  - intros Hle. unfold calculateMetrics. cbn [observations errors predictions res].
    destruct (Nat.eqb (length obs) 0); [reflexivity|].
    cbn [r2]. rewrite Hle. reflexivity.
  - intros -> Hgt.
    assert (Hb' : Z.of_nat (length obs) < 2 ^ 53) by lia.
    assert (Hpos : (0 < length obs)%nat).
    { destruct obs; [discriminate Hgt | simpl; lia]. }
    pose proof (observations_finite obs Hb' Hgt) as Hfin.
    unfold calculateMetrics. cbn [observations errors predictions res].
    destruct (Nat.eqb_spec (length obs) 0) as [E|_]; [lia|].
    cbn [r2 rmse].
    rewrite (sumSquaredErrors_identical obs Hfin).
    rewrite (zero_div_length _ Hpos Hb').
    rewrite (ltb_leb_false _ _ Hgt).
    rewrite (zero_div_positive _ (gt_threshold_positive _ Hgt)).
    split; reflexivity.
Qed.

Lemma calculateMetrics_identical_or_constant_witness :
  r2 (calculateMetrics {| predictions := VNum <$> [7; 9]%float;
                          observations := [3; 3]%float;
                          errors := zip_with PrimFloat.sub [3; 3]%float [7; 9]%float |})
    = 0%float
  ∧ (let obs := [1; 2; 4]%float in
     let res := {| predictions := VNum <$> obs; observations := obs;
                   errors := zip_with PrimFloat.sub obs obs |} in
     rmse (calculateMetrics res) = 0%float ∧ r2 (calculateMetrics res) = 1%float).
Proof.
  split.
  - apply (proj1 (calculateMetrics_identical_or_constant
                    [7; 9]%float [3; 3]%float eq_refl eq_refl)).
    reflexivity.
  - intros obs res.
    apply (proj2 (calculateMetrics_identical_or_constant obs obs eq_refl eq_refl));
      reflexivity.
Defined.

(** C6.  Three observations of one level, [1.5 * 2^35 + 2^-16]: their total
    sum of squares is 0, but the sum of the three rounds up and the mean
    computed is one unit in the last place above the level, so the sum of
    squares computed is [3 * 2^-34], above [1e-10].  The sum of the squared
    errors is then divided by it, whatever the predictions are: with
    predictions one unit below the observations R2 is
    [1 - 3 / (3 * 2^-34) = -17179869183], not 0. *)
Theorem constant_observations_with_R2_far_below_0 :
  (exact_ssTotal (observations constant_results) == 0)%Q
  ∧ meanObserved_of (observations constant_results) = (level + 0x1p-17)%float
  ∧ ssTotal_of (observations constant_results) = 0x1.8p-33%float
  ∧ (1e-10 <? ssTotal_of (observations constant_results))%float = true
  ∧ (∀ preds errs,
       r2 (calculateMetrics {| predictions := preds;
                               observations := observations constant_results;
                               errors := errs |})
       = parseFloat_toFixed4 (1 - sumSquaredErrors_of errs / 0x1.8p-33)%float)
  ∧ r2 (calculateMetrics constant_results) = (-17179869183)%float
  ∧ r2 (calculateMetrics constant_results) ≠ 0%float.
Proof.
  split; [vm_compute; reflexivity|].
  split; [vm_compute; reflexivity|].
  split; [vm_compute; reflexivity|].
  split; [vm_compute; reflexivity|].
  split.
  { intros preds errs. unfold calculateMetrics. cbn [observations constant_results length Nat.eqb r2].
    replace (ssTotal_of [level; level; level]) with 0x1.8p-33%float by (vm_compute; reflexivity).
    replace (0x1.8p-33 <=? 1e-10)%float with false by (vm_compute; reflexivity).
    reflexivity. }
  split; [vm_compute; reflexivity|].
  intros E. apply (f_equal Prim2SF) in E. vm_compute in E. discriminate E.
Qed.

(** ** The rows of the sink and of the merger *)

#[local] Open Scope string_scope.
#[local] Open Scope list_scope.

Lemma row_reads_columns : row_reads = CSV_COLUMNS.
Proof. reflexivity. Qed.


Lemma row_get (result : gmap string value) (col : string) :
  In col CSV_COLUMNS →
  JS.get (row_of result) col
    = (if JS.is_undefined (JS.get result col)
       then VNum (column_default col) else JS.get result col).
Proof.
  intros Hin. unfold row_of, JS.get at 1.
  cbn [fold_left base_columns directions metric_columns].
  cbv [CSV_COLUMNS base_columns directions metric_columns flat_map app coef_factor coef_peso] in Hin.
  cbn [String.append] in *.
  repeat (destruct Hin as [<- | Hin];
    [ repeat (rewrite lookup_insert_ne by discriminate); rewrite lookup_insert_eq;
      cbn [default negb]; unfold column_default;
      destruct (JS.is_undefined _); reflexivity | ]).
  contradiction.
Qed.


Lemma row_cells_length (result : gmap string value) : length (row_cells result) = 30%nat.
Proof. reflexivity. Qed.

Lemma split_on_nonempty (sep : ascii) (s : string) : split_on sep s ≠ [].
Proof.
  induction s as [|c s IH]; simpl; [discriminate|].
  destruct (Ascii.eqb c sep); [discriminate|].
  destruct (split_on sep s); discriminate.
Qed.

Lemma split_on_free (sep : ascii) (s part : string) :
  In part (split_on sep s) → free_of sep part.
Proof.
  revert part. induction s as [|c s IH]; simpl; intros part Hin.
  - destruct Hin as [<- | []]. unfold free_of. simpl. tauto.
  - destruct (Ascii.eqb_spec c sep) as [-> | Hne].
    + destruct Hin as [<- | Hin]; [unfold free_of; simpl; tauto | now apply IH].
    + destruct (split_on sep s) as [|p ps] eqn:E.
      * destruct Hin as [<- | []]. unfold free_of. simpl. intros [-> | []]. congruence.
      * destruct Hin as [<- | Hin].
        -- unfold free_of. simpl. intros [-> | Hc]; [congruence|].
           apply (IH p); [now left | exact Hc].
        -- apply IH. now right.
Qed.

Lemma split_on_free_whole (sep : ascii) (s : string) :
  free_of sep s → split_on sep s = [s].
Proof.
  unfold free_of. induction s as [|c s IH]; simpl; intros Hf; [reflexivity|].
  destruct (Ascii.eqb_spec c sep) as [-> | Hne]; [tauto|].
  rewrite IH by tauto. reflexivity.
Qed.

Lemma split_on_app (sep : ascii) (a b : string) :
  free_of sep a →
  split_on sep (a +:+ String sep b) = a :: split_on sep b.
Proof.
  unfold free_of. induction a as [|c a IH]; simpl; intros Hf.
  - now rewrite Ascii.eqb_refl.
  - destruct (Ascii.eqb_spec c sep) as [-> | Hne]; [tauto|].
    rewrite IH by tauto. reflexivity.
Qed.

(** Splitting the join of cells that hold no separator gives the cells back. *)
Lemma split_on_concat (sep : ascii) (cells : list string) :
  cells ≠ [] → List.Forall (free_of sep) cells →
  split_on sep (String.concat (String sep EmptyString) cells) = cells.
Proof.
  induction cells as [|c cells IH]; [congruence|]. intros _ Hall.
  inversion Hall as [|? ? Hc Hrest]; subst.
  destruct cells as [|c' cells].
  - simpl. now apply split_on_free_whole.
  - change (String.concat (String sep EmptyString) (c :: c' :: cells))
      with (c +:+ String sep (String.concat (String sep EmptyString) (c' :: cells))).
    rewrite split_on_app by assumption. f_equal. apply IH; [discriminate | assumption].
Qed.


Lemma default_part_free (i : nat) : free_of semicolon (default_part i).
Proof.
  unfold default_part, free_of.
  repeat match goal with |- context [if ?b then _ else _] => destruct b end;
    simpl; intros H; repeat (destruct H as [H | H]; [discriminate H|]); exact H.
Qed.

Lemma normalizedParts_lookup (parts : list string) (i : nat) :
  (i < 30)%nat →
  normalizedParts parts !! i
    = Some (match parts !! i with
            | Some part =>
                if negb (String.eqb (trim part) "") then part else default_part i
            | None => default_part i
            end).
Proof.
  intros Hi. unfold normalizedParts.
  rewrite list_lookup_fmap, lookup_seq_lt by assumption. reflexivity.
Qed.



Lemma header_columns :
  header = String.concat ";" CSV_COLUMNS +:+ nl
  ∧ split_on semicolon (String.concat ";" CSV_COLUMNS) = CSV_COLUMNS
  ∧ length CSV_COLUMNS = 30%nat.
Proof. repeat split. Qed.


(** ** The files of the sinks *)

Lemma openNewFile_returns (cfg : Config) (w : ResultWriter) :
  ∃ w' ops,
    openNewFile cfg w = Return (w', ops)
    ∧ currentFile w' = Some (results_path cfg (S (fileIndex w)))
    ∧ fileIndex w' = S (fileIndex w)
    ∧ created_paths ops = [results_path cfg (S (fileIndex w))].
Proof.
  unfold openNewFile, writeToFile. cbn [currentFile mbind outcome_bind].
  eexists _, _. split; [reflexivity|]. repeat split.
  unfold closeCurrentFile. destruct (currentFile w); reflexivity.
Qed.

Lemma writeToFile_returns (data : string) (w : ResultWriter) (p : string) :
  currentFile w = Some p →
  ∃ w', writeToFile data w = Return (w', [StreamWrite p data])
        ∧ currentFile w' = Some p.
Proof.
  intros Hc. unfold writeToFile. destruct (currentFile w) as [p'|] eqn:E; [|discriminate].
  injection Hc as ->. eexists. split; reflexivity.
Qed.

Section SinkFacts.
Context `{Runtime}.

Lemma write_returns (cfg : Config) (results : list (gmap string value))
    (w : ResultWriter) :
  ∃ w' ops n, write cfg results w = Return (w', ops, n) ∧ is_Some (currentFile w').
Proof.
  unfold write.
  destruct (match currentFile w with None => true | Some _ => false end
            || (maxFileSize cfg <? currentSize w)%nat) eqn:E.
  - destruct (openNewFile_returns cfg w) as (w1 & ops1 & -> & Hc & _ & _).
    cbn. destruct (writeToFile_returns (String.concat "" (map csv_line results)) w1 _ Hc)
      as (w2 & -> & Hc2).
    cbn. eexists _, _, _. split; [reflexivity|]. rewrite Hc2. eauto.
  - destruct (currentFile w) as [p|] eqn:Ec; [|discriminate E].
    cbn. destruct (writeToFile_returns (String.concat "" (map csv_line results)) w _ Ec)
      as (w2 & -> & Hc2).
    cbn. eexists _, _, _. split; [reflexivity|]. rewrite Hc2. eauto.
Qed.

Lemma write_all_returns (cfg : Config) (batches : list (list (gmap string value)))
    (w : ResultWriter) :
  ∃ w' ops, write_all cfg batches w = Return (w', ops).
Proof.
  revert w. induction batches as [|results rest IH]; intros w; cbn [write_all].
  - eauto.
  - destruct (write_returns cfg results w) as (w1 & ops1 & n & -> & _).
    cbn.
    destruct (IH w1) as (w2 & ops2 & ->). cbn. eauto.
Qed.

(** C4.  Whatever their ids and whatever they are given to write, two
    workers' sinks open the same first file, [results_1.csv] of the one
    results directory. *)
Theorem worker_sinks_share_first_file (cfg : Config) (workerA workerB : nat)
    (batchesA batchesB : list (list (gmap string value))) :
  ∃ opsA opsB restA restB,
    worker_sink cfg workerA batchesA = Return opsA
    ∧ worker_sink cfg workerB batchesB = Return opsB
    ∧ created_paths opsA = results_path cfg 1 :: restA
    ∧ created_paths opsB = results_path cfg 1 :: restB.
Proof.
  assert (Hone : ∀ id batches, ∃ ops rest,
             worker_sink cfg id batches = Return ops
             ∧ created_paths ops = results_path cfg 1 :: rest).
  { intros id batches. unfold worker_sink.
    destruct (openNewFile_returns cfg new_ResultWriter) as (w1 & ops1 & -> & _ & _ & Hp).
    cbn.
    destruct (write_all_returns cfg batches w1) as (w2 & ops2 & ->).
    cbn. exists (ops1 ++ ops2), (created_paths ops2).
    split; [reflexivity|].
    unfold created_paths in *. rewrite omap_app, Hp. reflexivity. }
  destruct (Hone workerA batchesA) as (opsA & restA & HA & HpA).
  destruct (Hone workerB batchesB) as (opsB & restB & HB & HpB).
  exists opsA, opsB, restA, restB. auto.
Qed.

End SinkFacts.

(** ** The dispatcher's runs *)

Section DispatcherFacts.
Context {P : Type}.
Variable cfg : Config.

Lemma fill_chunk_spec (n : nat) (gen chunk : list P) :
  match fill_chunk n gen chunk with
  | (Some chunk', gen') =>
      (n ≤ length gen)%nat ∧ chunk' = chunk ++ take n gen ∧ gen' = drop n gen
  | (None, gen') => (length gen < n)%nat ∧ gen' = []
  end.
Proof.
  revert gen chunk. induction n as [|n IH]; intros gen chunk; cbn [fill_chunk].
  - rewrite take_0, drop_0, app_nil_r. repeat split. lia.
  - destruct gen as [|v gen]; [simpl; split; [lia | reflexivity]|].
    specialize (IH gen (chunk ++ [v])).
    destruct (fill_chunk n gen (chunk ++ [v])) as [[chunk'|] gen'].
    + destruct IH as (Hn & -> & ->). simpl. rewrite <- app_assoc. repeat split. lia.
    + destruct IH as (Hn & ->). simpl. split; [lia | reflexivity].
Qed.

Lemma find_available_Some (ws : list (WorkerSlot P)) (i : nat) :
  find_available ws = Some i → ∃ w, ws !! i = Some w ∧ isBusy w = false.
Proof.
  revert i. induction ws as [|w ws IH]; intros i; cbn [find_available]; [discriminate|].
  destruct (isBusy w) eqn:E; cbn [negb].
  - destruct (find_available ws) as [j|]; [|discriminate].
    cbn. intros [= <-]. apply (IH j eq_refl).
  - intros [= <-]. exists w. auto.
Qed.

(** Posting a chunk to an idle worker adds it to the outstanding ones. *)
Lemma outstanding_post (f : WorkerSlot P → WorkerSlot P) (chunk : list P)
    (ws : list (WorkerSlot P)) (i : nat) (w : WorkerSlot P) :
  ws !! i = Some w → instance w = None → instance (f w) = Some chunk →
  length (omap instance (alter f i ws)) = S (length (omap instance ws))
  ∧ ∀ c, In c (omap instance (alter f i ws)) → c = chunk ∨ In c (omap instance ws).
Proof.
  revert i. induction ws as [|v ws IH]; intros i Hi Hw Hf; [discriminate|].
  destruct i as [|i]; cbn in Hi |- *.
  - injection Hi as ->. rewrite Hw, Hf. cbn. split; [reflexivity|].
    intros c [<- | Hc]; auto.
  - destruct (IH i Hi Hw Hf) as [Hlen Hin].
    destruct (instance v) as [c'|]; cbn; [|auto].
    split; [now rewrite Hlen|]. intros c [<- | Hc]; [right; now left|].
    destruct (Hin c Hc); auto.
Qed.

(** Handling a worker's answer takes its chunk off the outstanding ones. *)
Lemma outstanding_answer (f : WorkerSlot P → WorkerSlot P) (chunk : list P)
    (ws : list (WorkerSlot P)) (i : nat) (w : WorkerSlot P) :
  ws !! i = Some w → instance w = Some chunk → instance (f w) = None →
  S (length (omap instance (alter f i ws))) = length (omap instance ws)
  ∧ In chunk (omap instance ws)
  ∧ ∀ c, In c (omap instance (alter f i ws)) → In c (omap instance ws).
Proof.
  revert i. induction ws as [|v ws IH]; intros i Hi Hw Hf; [discriminate|].
  destruct i as [|i]; cbn in Hi |- *.
  - injection Hi as ->. rewrite Hw, Hf. cbn. auto.
  - destruct (IH i Hi Hw Hf) as (Hlen & Hc & Hin).
    destruct (instance v) as [c'|]; cbn; [|auto].
    split; [now rewrite Hlen|]. split; [now right|].
    intros c [<- | Hc']; auto.
Qed.

Lemma processed_sum_snoc (msgs : list Message) (msg : Message) :
  processed_sum (msgs ++ [msg]) = add_assign (processed_sum msgs) (processed msg).
Proof. unfold processed_sum. now rewrite fold_left_app. Qed.

Lemma invariant_initial (params : list P) :
  Z.of_nat (length params) < 2 ^ 53 → invariant cfg params (initial cfg params).
Proof.
  intros Hbound.
  assert (Hw : ∀ n, omap instance
                 (replicate n {| instance := @None (list P); isBusy := false;
                                 w_processed := Int 0; w_relevant := Int 0 |}) = []).
  { induction n as [|n IH]; [reflexivity | exact IH]. }
  split; unfold initial, outstanding; cbn [workers dispatched received paramsGenerator totalProcessed].
  - constructor.
  - rewrite Hw. constructor.
  - apply Forall_replicate. reflexivity.
  - cbn. f_equal. lia.
  - reflexivity.
  - rewrite Hw. reflexivity.
  - cbn. lia.
  - exact Hbound.
Qed.

Lemma invariant_step (params : list P) (st : Main P) (e : event) :
  invariant cfg params st → invariant cfg params (step cfg st e).
Proof.
  intros [Hd Ho Hi Hs Ht Hc Hp Hb]. destruct e as [|i|]; cbn [step].
  - (* one turn of the loop *)
    destruct (isDone st); [now split|].
    unfold assignWork.
    destruct (find_available (workers st)) as [i|] eqn:Ef; [|now split].
    destruct (find_available_Some _ _ Ef) as (w & Hw & Hidle).
    pose proof (fill_chunk_spec (chunkSize cfg) (paramsGenerator st) []) as Hfill.
    destruct (fill_chunk (chunkSize cfg) (paramsGenerator st) []) as [[chunk|] gen'].
    + destruct Hfill as (Hn & -> & ->). cbn [app] in *.
      assert (Hnone : instance w = None).
      { rewrite List.Forall_forall in Hi. apply (Hi w); [|exact Hidle].
        apply list_elem_of_In. eapply list_elem_of_lookup_2, Hw. }
      assert (Hlen : length (take (chunkSize cfg) (paramsGenerator st)) = chunkSize cfg)
        by (rewrite length_take; lia).
      destruct (outstanding_post
                  (λ w, {| instance := Some (take (chunkSize cfg) (paramsGenerator st));
                           isBusy := true; w_processed := w_processed w;
                           w_relevant := w_relevant w |})
                  _ (workers st) i w Hw Hnone eq_refl) as [Hout Hin].
      split; unfold outstanding in *;
        cbn [set_done workers dispatched received paramsGenerator totalProcessed].
      * apply Forall_app. split; [exact Hd | repeat constructor; exact Hlen].
      * apply List.Forall_forall. intros c Hc'. destruct (Hin c Hc') as [-> | Hold];
          [exact Hlen|]. rewrite List.Forall_forall in Ho. now apply Ho.
      * apply Forall_alter; [exact Hi|]. intros v _ _. cbn. discriminate.
      * exact Hs.
      * exact Ht.
      * rewrite Hout, length_app. cbn [length]. lia.
      * rewrite length_app, length_drop. cbn [length]. nia.
      * exact Hb.
    + destruct Hfill as (_ & ->).
      split; unfold outstanding in *;
        cbn [set_done workers dispatched received paramsGenerator totalProcessed];
        try assumption. cbn. lia.
  - (* an answer *)
    destruct (terminated st); [now split|].
    destruct (workers st !! i) as [[[chunk|] busy wp wr]|] eqn:Hw; try now split.
    destruct (outstanding_answer
                (λ w, {| instance := None; isBusy := false;
                         w_processed := add_assign (w_processed w)
                                          (processed (done_message chunk));
                         w_relevant := add_assign (w_relevant w)
                                         (relevant (done_message chunk)) |})
                chunk (workers st) i _ Hw eq_refl eq_refl) as (Hout & Hmem & Hin).
    assert (Hlen : length chunk = chunkSize cfg).
    { unfold outstanding in Ho. rewrite List.Forall_forall in Ho. now apply Ho. }
    unfold on_message. cbn [type done_message String.eqb Ascii.eqb Bool.eqb].
    split; unfold outstanding in *;
      cbn [workers dispatched received paramsGenerator totalProcessed processed].
    + exact Hd.
    + apply List.Forall_forall. intros c Hc'. rewrite List.Forall_forall in Ho.
      apply Ho, Hin, Hc'.
    + apply Forall_alter; [exact Hi|]. intros v _ _. cbn. reflexivity.
    + rewrite processed_sum_snoc, Hs. unfold add_assign, done_message.
      cbn [processed default from_option id].
      rewrite Hlen, length_app. cbn [length].
      assert (Hle : (chunkSize cfg * (length (received st) + 1) ≤ length params)%nat).
      { assert (Hr : (length (received st) + 1 ≤ length (dispatched st))%nat) by lia.
        apply (Nat.mul_le_mono_l _ _ (chunkSize cfg)) in Hr. lia. }
      rewrite Nat.mul_add_distr_l, Nat.mul_1_r, Nat2Z.inj_add in *.
      apply add_exact. lia.
    + rewrite processed_sum_snoc, Ht. reflexivity.
    + rewrite length_app. cbn [length]. lia.
    + exact Hp.
    + exact Hb.
  - (* the end *)
    destruct (isDone st && negb (terminated st)); now split.
Qed.

Lemma invariant_run (params : list P) (events : list event) (st : Main P) :
  invariant cfg params st → invariant cfg params (run cfg events st).
Proof.
  revert st. induction events as [|e events IH]; intros st Hinv; [exact Hinv|].
  apply IH. now apply invariant_step.
Qed.

(** C2.  When the number of parameter sets the generator yields is not a
    multiple of the chunk size, the [processed] deltas received never add up
    to that number, whatever the order of loop turns and answers: the sets
    pulled into the last, partial chunk are dropped when the generator
    reports it is done. *)
Theorem partial_chunk_is_never_processed (params : list P) (events : list event) :
  Z.of_nat (length params) < 2 ^ 53 →
  (length params mod chunkSize cfg ≠ 0)%nat →
  processed_sum (received (run cfg events (initial cfg params)))
    ≠ Int (Z.of_nat (length params)).
Proof.
  intros Hbound Hmod.
  destruct (invariant_run params events _ (invariant_initial params Hbound))
    as [_ _ _ Hs _ Hc Hp _].
  rewrite Hs. intros [= Heq]. apply Nat2Z.inj in Heq.
  apply Hmod. rewrite <- Heq, Nat.mul_comm. apply Nat.Div0.mod_mul.
Qed.

Lemma fill_chunk_whole (params : list P) :
  length params = chunkSize cfg →
  fill_chunk (chunkSize cfg) params [] = (Some params, []).
Proof.
  intros Hlen. pose proof (fill_chunk_spec (chunkSize cfg) params []) as Hfill.
  destruct (fill_chunk (chunkSize cfg) params []) as [[chunk|] gen'].
  - destruct Hfill as (_ & -> & ->).
    rewrite take_ge, drop_ge by lia. reflexivity.
  - destruct Hfill as (Hlt & _). lia.
Qed.

Lemma fill_chunk_drained :
  (0 < chunkSize cfg)%nat → fill_chunk (chunkSize cfg) (@nil P) [] = (None, []).
Proof. destruct (chunkSize cfg); [lia | reflexivity]. Qed.

(** C3.  With two workers or more and a generator that yields exactly one
    chunk, two turns of the loop end it: the first posts the chunk to the
    first worker, the second finds the second worker idle and the generator
    done.  The workers are then terminated while the chunk is outstanding
    and no answer has been received. *)
Theorem loop_ends_with_a_chunk_outstanding (params : list P) :
  (2 ≤ maxWorkers cfg)%nat → (0 < chunkSize cfg)%nat →
  length params = chunkSize cfg →
  let st := run cfg [LoopTurn; LoopTurn; Terminate] (initial cfg params) in
  isDone st = true ∧ terminated st = true
  ∧ outstanding st = [params] ∧ received st = [].
Proof.
  intros Hw Hc Hlen.
  destruct (maxWorkers cfg) as [|[|k]] eqn:Ek; [lia | lia |].
  assert (Hidle : ∀ n, omap instance
                    (replicate n {| instance := @None (list P); isBusy := false;
                                    w_processed := Int 0; w_relevant := Int 0 |}) = []).
  { induction n as [|n IH]; [reflexivity | exact IH]. }
  set (idle := {| instance := @None (list P); isBusy := false;
                  w_processed := Int 0; w_relevant := Int 0 |}) in *.
  assert (Hst : run cfg [LoopTurn; LoopTurn; Terminate] (initial cfg params)
                = {| workers := {| instance := Some params; isBusy := true;
                                   w_processed := Int 0; w_relevant := Int 0 |}
                                :: idle :: replicate k idle;
                     paramsGenerator := []; totalProcessed := Int 0;
                     totalRelevant := Int 0; isDone := true; terminated := true;
                     dispatched := [params]; received := [] |}).
  { unfold run, initial. rewrite Ek. cbn [fold_left replicate]. fold idle.
    unfold step at 3. cbn [isDone]. unfold assignWork.
    cbn [workers find_available isBusy negb paramsGenerator idle].
    rewrite (fill_chunk_whole params Hlen). unfold set_done.
    cbn [alter list_alter workers paramsGenerator totalProcessed totalRelevant
         isDone terminated dispatched received app w_processed w_relevant].
    unfold step at 2. cbn [isDone]. unfold assignWork.
    cbn [workers find_available isBusy negb fmap option_fmap option_map
         paramsGenerator idle].
    rewrite (fill_chunk_drained Hc). unfold set_done.
    cbn [workers paramsGenerator totalProcessed totalRelevant
         isDone terminated dispatched received].
    reflexivity. }
  intros st. subst st. rewrite Hst. unfold outstanding.
  cbn [isDone terminated received workers].
  change (omap instance _) with (params :: omap instance (replicate k idle)).
  rewrite Hidle. auto.
Qed.

(** C9.  The answer a worker posts has no [relevant]: handling it adds
    [undefined] to [totalRelevant], which is [NaN] from then on, and [NaN]
    is not greater than or equal to the value before. *)
Theorem relevant_counter_becomes_NaN (i : nat) (chunk : list P) (st : Main P) :
  totalRelevant (on_message i (done_message chunk) st) = NaN
  ∧ Num.leb (totalRelevant st)
            (totalRelevant (on_message i (done_message chunk) st)) = false.
Proof.
  assert (E : totalRelevant (on_message i (done_message chunk) st) = NaN).
  { unfold on_message. cbn. now destruct (totalRelevant st). }
  rewrite E. split; [reflexivity | now destruct (totalRelevant st)].
Qed.

(** Along every run, every chunk posted holds exactly [chunkSize] parameter
    sets, the answers received and the chunks outstanding add up to the
    chunks posted, and [totalProcessed] is [chunkSize] times the number of
    answers received. *)
Theorem dispatcher_invariant (params : list P) (events : list event) :
  Z.of_nat (length params) < 2 ^ 53 →
  invariant cfg params (run cfg events (initial cfg params)).
Proof. intros Hbound. now apply invariant_run, invariant_initial. Qed.

Lemma received_grows (st : Main P) (e : event) :
  (length (received st) ≤ length (received (step cfg st e)))%nat.
Proof.
  destruct e as [|i|]; cbn [step].
  - destruct (isDone st); [lia|]. unfold assignWork.
    destruct (find_available (workers st)); [|cbn; lia].
    destruct (fill_chunk _ _ _) as [[chunk|] gen']; cbn; lia.
  - destruct (terminated st); [lia|].
    destruct (workers st !! i) as [[[chunk|] busy wp wr]|]; try lia.
    unfold on_message. cbn [type done_message String.eqb Ascii.eqb Bool.eqb received].
    rewrite length_app. lia.
  - destruct (isDone st && negb (terminated st)); cbn; lia.
Qed.

(** The [processed] half of the counters: along every run, no event makes
    [totalProcessed] smaller. *)
Theorem processed_counter_is_monotone (params : list P) (events : list event)
    (e : event) :
  Z.of_nat (length params) < 2 ^ 53 →
  let st := run cfg events (initial cfg params) in
  Num.leb (totalProcessed st) (totalProcessed (step cfg st e)) = true.
Proof.
  intros Hbound st.
  pose proof (invariant_run params events _ (invariant_initial params Hbound)) as Hst.
  pose proof (invariant_step params _ e Hst) as Hst'. fold st in Hst, Hst'.
  rewrite (inv_total _ _ _ Hst), (inv_total _ _ _ Hst').
  rewrite (inv_sum _ _ _ Hst), (inv_sum _ _ _ Hst'). cbn [Num.leb].
  apply Z.leb_le. apply inj_le. apply Nat.mul_le_mono_l. apply received_grows.
Qed.

End DispatcherFacts.

Lemma partial_chunk_is_never_processed_witness :
  processed_sum
    (received (run small_config [LoopTurn; Answer 0; LoopTurn; Terminate]
                 (initial small_config [1; 2; 3]%nat)))
    ≠ Int 3.
Proof.
  apply (partial_chunk_is_never_processed small_config [1; 2; 3]%nat
           [LoopTurn; Answer 0; LoopTurn; Terminate]).
  - reflexivity.
  - cbn. discriminate.
Defined.

Lemma dispatcher_invariant_witness :
  invariant small_config [1; 2; 3]%nat
    (run small_config [LoopTurn; Answer 0; LoopTurn; Terminate]
       (initial small_config [1; 2; 3]%nat)).
Proof.
  apply (dispatcher_invariant small_config [1; 2; 3]%nat
           [LoopTurn; Answer 0; LoopTurn; Terminate]).
  reflexivity.
Defined.

Lemma processed_counter_is_monotone_witness :
  let st := run small_config [LoopTurn] (initial small_config [1; 2; 3]%nat) in
  Num.leb (totalProcessed st) (totalProcessed (step small_config st (Answer 0))) = true.
Proof.
  apply (processed_counter_is_monotone small_config [1; 2; 3]%nat [LoopTurn] (Answer 0)).
  reflexivity.
Defined.

Lemma loop_ends_with_a_chunk_outstanding_witness :
  let params := replicate 250 (∅ : gmap string value) in
  let st := run CONFIG [LoopTurn; LoopTurn; Terminate] (initial CONFIG params) in
  isDone st = true ∧ terminated st = true
  ∧ outstanding st = [params] ∧ received st = [].
Proof.
  intros params.
  apply (loop_ends_with_a_chunk_outstanding CONFIG params).
  - cbn. lia.
  - cbn. lia.
  - reflexivity.
Defined.

#[local] Open Scope Z_scope.

(** ** Compass degrees *)

(** C10.  On a string of 309 nines [parseInt] returns [Infinity], the
    normalised value is [NaN], no sector matches and reading [.dir] throws. *)
Theorem gradosACardinal_throws_on_long_digit_string :
  parseInt (keep_digits long_degrees) = Infinity
  ∧ gradosACardinal long_degrees = Throw TypeError.
Proof. split; vm_compute; reflexivity. Qed.

Lemma keep_digits_digits (s : string) :
  List.Forall (λ c, is_digit c = true) (list_ascii_of_string (keep_digits s)).
Proof.
  induction s as [|c s IH]; cbn [keep_digits]; [constructor|].
  destruct (is_digit c) eqn:E; [|exact IH].
  cbn [list_ascii_of_string]. constructor; assumption.
Qed.

Lemma Z_of_digits_nonneg (s : string) :
  List.Forall (λ c, is_digit c = true) (list_ascii_of_string s) → 0 <= Z_of_digits s.
Proof.
  assert (H : ∀ l a, List.Forall (λ c, is_digit c = true) l → 0 <= a →
              0 <= fold_left (λ acc c, 10 * acc + (Z.of_N (N_of_ascii c) - 48)) l a).
  { induction l as [|c l IH]; intros a Hl Ha; [exact Ha|].
    inversion Hl as [|? ? Hc Hl']; subst. cbn [fold_left]. apply IH; [exact Hl'|].
    unfold is_digit in Hc. apply andb_true_iff in Hc as [Hc _].
    apply N.leb_le in Hc. lia. }
  intros Hall. unfold Z_of_digits. apply H; [exact Hall | lia].
Qed.

(** A normalised value within the circle falls in a sector. *)
Lemma sector_found (n : Z) :
  0 <= n < 360 →
  ∃ s, List.find (λ s, le_max (Int n) (max s)) sectors = Some s
       ∧ In (dir s) directions.
Proof.
  intros Hn.
  destruct (List.find (λ s, le_max (Int n) (max s)) sectors) as [s|] eqn:E.
  - exists s. split; [reflexivity|].
    apply find_some in E as [Hin _].
    cbn in Hin. repeat (destruct Hin as [<- | Hin]; [cbn; tauto|]). contradiction.
  - exfalso.
    pose proof (find_none _ _ E {| max := 360; dir := "N" |}) as Hlast.
    cbn [le_max max] in Hlast.
    assert (Hle : Qle_bool (inject_Z n) 360 = true).
    { apply Qle_bool_iff. unfold Qle. cbn. lia. }
    rewrite Hle in Hlast. discriminate Hlast. cbn. tauto.
Qed.

(** Whenever the digits of the input denote a number that [parseInt] does
    not round to an infinity, the input is mapped to one of the eight
    directions. *)
Lemma gradosACardinal_finite_case (grados : string) (z : Z) :
  Num.or_else (parseInt (keep_digits grados)) (Int 0) = Int z →
  ∃ d, In d directions ∧ gradosACardinal grados = Return d.
Proof.
  intros Hz. unfold gradosACardinal. rewrite Hz.
  assert (Hr : -360 < Z.rem z 360 < 360).
  { pose proof (Z.rem_bound_abs z 360). lia. }
  cbn [Num.rem Z.eqb]. rewrite add_exact by lia. cbn [Num.rem Z.eqb].
  destruct (sector_found (Z.rem (Z.rem z 360 + 360) 360)) as (s & -> & Hd).
  - pose proof (Z.rem_bound_pos (Z.rem z 360 + 360) 360). lia.
  - exists (dir s). auto.
Qed.

(** On every input whose digits denote a number below [2^53] (an input
    with at most fifteen digits is one), [gradosACardinal] returns one of
    the eight directions. *)
Theorem gradosACardinal_total_below_2_53 (grados : string) :
  Z_of_digits (keep_digits grados) < 2 ^ 53 →
  ∃ d, In d directions ∧ gradosACardinal grados = Return d.
Proof.
  intros Hb.
  pose proof (Z_of_digits_nonneg _ (keep_digits_digits grados)) as Hnn.
  destruct (keep_digits grados) as [|c s] eqn:E.
  - apply (gradosACardinal_finite_case grados 0). now rewrite E.
  - apply (gradosACardinal_finite_case grados (Z_of_digits (String c s))).
    rewrite E. cbn [parseInt]. rewrite Number_of_Z_exact by lia.
    unfold Num.or_else. now destruct (Z_of_digits (String c s)).
Qed.

Lemma gradosACardinal_total_below_2_53_witness :
  ∃ d, In d directions ∧ gradosACardinal "247.5" = Return d.
Proof.
  apply (gradosACardinal_total_below_2_53 "247.5"). reflexivity.
Defined.

(** ** Lookups in a series, in general *)

#[local] Open Scope Z_scope.

Lemma fold_closer_snoc (q : Z) (l : list Pt.t) (p : Pt.t) :
  fold_left (closer (Int q)) (l ++ [p]) y0
    = closer (Int q) (fold_left (closer (Int q)) l y0) p.
Proof. now rewrite fold_left_app. Qed.

Lemma scan_nearest (q : Z) (data : list Pt.t) :
  in_range q → ∀ times, Forall2 at_time data times →
  (List.Forall (λ t, t = q) times ∧ fold_left (closer (Int q)) data y0 = y0)
  ∨ (∃ i p t, data !! i = Some p ∧ selects times q i t
              ∧ fold_left (closer (Int q)) data y0 = p).
Proof.
  intros Hq. induction data as [|p' data IH] using rev_ind; intros times Hall.
  - apply Forall2_nil_inv_l in Hall as ->. left. split; [constructor | reflexivity].
  - apply Forall2_app_inv_l in Hall as (ts & ts' & Hts & Hlast & ->).
    apply Forall2_cons_inv_l in Hlast as (t' & tl & Hp' & Hnil & ->).
    apply Forall2_nil_inv_l in Hnil as ->.
    pose proof (Forall2_length _ _ _ Hts) as Hlen.
    rewrite fold_closer_snoc.
    destruct (Z.eq_dec t' q) as [-> | Hne].
    + (* the new sample is taken at the target time: it is skipped *)
      rewrite (closer_exact_match q _ p' Hp').
      destruct (IH ts Hts) as [[Hq' Hy0] | (i & p & t & Hi & (Hti & Htq & Hmin) & Hfold)].
      * left. split; [|exact Hy0]. apply Forall_app. split; [exact Hq'|]. now constructor.
      * right. exists i, p, t. split; [now apply lookup_app_l_Some|]. split; [|exact Hfold].
        split; [now apply lookup_app_l_Some|]. split; [exact Htq|].
        intros j u Hj Hu. apply lookup_app_Some in Hj as [Hj | [Hge Hj]].
        -- now apply Hmin.
        -- destruct (j - length ts)%nat; [|discriminate Hj]. injection Hj as <-. congruence.
    + destruct (IH ts Hts) as [[Hq' Hy0] | (i & p & t & Hi & (Hti & Htq & Hmin) & Hfold)].
      * (* the first sample that is not taken at the target time *)
        rewrite Hy0, (closer_y0 q Hq p' t' Hp' Hne).
        right. exists (length data), p', t'.
        split; [now rewrite lookup_app_r, Nat.sub_diag by lia|]. split; [|reflexivity].
        split; [now rewrite Hlen, lookup_app_r, Nat.sub_diag by lia|]. split; [exact Hne|].
        intros j u Hj Hu. apply lookup_app_Some in Hj as [Hj | [Hge Hj]].
        -- rewrite List.Forall_forall in Hq'. exfalso. apply Hu, Hq'.
           apply list_elem_of_In. eapply list_elem_of_lookup_2, Hj.
        -- destruct (j - length ts)%nat eqn:E; [|discriminate Hj]. injection Hj as <-.
           split; [lia|]. intros Hlt. lia.
      * rewrite Hfold.
        assert (Hpt : at_time p t) by (eapply Forall2_lookup_lr; eassumption).
        rewrite (closer_valid q Hq p p' t t' Hpt Hp' Htq Hne).
        destruct (Z.ltb_spec (Z.abs (t' - q)) (Z.abs (t - q))) as [Hlt | Hge].
        -- right. exists (length data), p', t'.
           split; [now rewrite lookup_app_r, Nat.sub_diag by lia|]. split; [|reflexivity].
           split; [now rewrite Hlen, lookup_app_r, Nat.sub_diag by lia|]. split; [exact Hne|].
           intros j u Hj Hu. apply lookup_app_Some in Hj as [Hj | [Hge Hj]].
           ++ destruct (Hmin j u Hj Hu) as [Hle _]. split; [lia|]. intros _. lia.
           ++ destruct (j - length ts)%nat eqn:E; [|discriminate Hj]. injection Hj as <-.
              split; [lia|]. intros Hlt'. lia.
        -- right. exists i, p, t. split; [now apply lookup_app_l_Some|]. split; [|reflexivity].
           split; [now apply lookup_app_l_Some|]. split; [exact Htq|].
           intros j u Hj Hu. apply lookup_app_Some in Hj as [Hj | [Hge' Hj]].
           ++ now apply Hmin.
           ++ destruct (j - length ts)%nat eqn:E; [|discriminate Hj]. injection Hj as <-.
              split; [lia|]. intros Hlt'. apply lookup_lt_Some in Hti. lia.
Qed.

(** In a series whose samples all have a time (within [2^52] milliseconds
    of the epoch), in any order, a lookup at a time [q] returns the value of
    the first of the samples nearest to [q] among those not taken at [q]
    itself, and 0 when every sample is taken at [q] or the series is empty. *)
Theorem findClosestValue_nearest (data : list Pt.t) (times : list Z) (q : Z) :
  Forall2 at_time data times → in_range q →
  (List.Forall (λ t, t = q) times ∧ findClosestValue data (mkDate (Int q)) = 0%float)
  ∨ (∃ i p t, data !! i = Some p ∧ selects times q i t
              ∧ findClosestValue data (mkDate (Int q)) = Pt.y p).
Proof.
  intros Hall Hq. unfold findClosestValue. cbn [getTime Num.isNaN].
  destruct (scan_nearest q data Hq times Hall) as [[Hq' ->] | (i & p & t & Hi & Hsel & ->)].
  - left. split; [exact Hq' | reflexivity].
  - right. exists i, p, t. auto.
Qed.

Lemma findClosestValue_nearest_witness :
  let pt (t : Z) (v : float) := Pt.mk (Some (mkDate (Int t))) v None None in
  let data := [pt 30 3.5%float; pt 20 7.5%float; pt 10 2.5%float; pt 0 1.5%float] in
  (List.Forall (λ t, t = 20) [30; 20; 10; 0]
   ∧ findClosestValue data (mkDate (Int 20)) = 0%float)
  ∨ (∃ i p t, data !! i = Some p ∧ selects [30; 20; 10; 0] 20 i t
              ∧ findClosestValue data (mkDate (Int 20)) = Pt.y p).
Proof.
  intros pt data.
  apply (findClosestValue_nearest data [30; 20; 10; 0] 20).
  - repeat constructor.
  - reflexivity.
Defined.

Lemma fold_closer_member (targetTime : inum) (l : list Pt.t) (c : Pt.t) :
  fold_left (closer targetTime) l c = c ∨ In (fold_left (closer targetTime) l c) l.
Proof.
  revert c. induction l as [|p l IH]; intros c; simpl; [now left|].
  destruct (IH (closer targetTime c p)) as [E|E].
  - rewrite E. unfold closer. destruct (Num.ltb _ _); [right; now left | now left].
  - right. now right.
Qed.

(** Whatever the dates of the samples (missing and invalid ones included)
    and whatever the target date, a lookup returns 0 or the value of a sample
    of the series. *)
Theorem findClosestValue_is_a_sample_or_zero (data : list Pt.t) (targetDate : Date) :
  findClosestValue data targetDate = 0%float
  ∨ ∃ p, In p data ∧ findClosestValue data targetDate = Pt.y p.
Proof.
  unfold findClosestValue. destruct (Num.isNaN (getTime targetDate)); [now left|].
  destruct (fold_closer_member (getTime targetDate) data y0) as [-> | Hin]; [now left|].
  right. eexists. split; [exact Hin | reflexivity].
Qed.

Lemma lagged_time_exact (t h : Z) :
  in_range t → lag_in_range h →
  lagged_time (Int t) (Int h) = Int (t - h * 3600000)
  ∧ TimeClip (Int (t - h * 3600000)) = Int (t - h * 3600000).
Proof.
  unfold in_range, lag_in_range, lagged_time. intros Ht Hh.
  cbn [Num.mul]. rewrite (Number_of_Z_exact (h * 3600)) by lia.
  cbn [Num.mul]. rewrite (Number_of_Z_exact (h * 3600 * 1000)) by lia.
  rewrite sub_exact by lia.
  replace (h * 3600 * 1000) with (h * 3600000) by lia.
  split; [reflexivity|]. cbn [TimeClip].
  destruct (Z.leb_spec (Z.abs (t - h * 3600000)) 8640000000000000); [reflexivity | lia].
Qed.

Lemma calculateComponent_in_range (m : RiverModel) (source : string)
    (targetPoint : Pt.t) (data : list Pt.t) (t h : Z) :
  at_time targetPoint t → lags m !! source = Some h → lag_in_range h →
  calculateComponent m source targetPoint data
    = Return (findClosestValue data (mkDate (Int (t - h * 3600000)))
              * weight_of m source)%float.
Proof.
  intros [Hx Ht] Hlag Hh. unfold calculateComponent, lag_hours, new_Date.
  rewrite Hx, Hlag. cbn [getTime from_option].
  destruct (lagged_time_exact t h Ht Hh) as [-> ->]. reflexivity.
Qed.

(** [calculateComponent] on a target point taken at [t], for a source whose
    lag is [h] hours: the series is looked up at [h] hours before [t], and
    the value found is multiplied by the weight of the source. *)
Theorem calculateComponent_looks_up_lag_hours_before (m : RiverModel) (source : string)
    (targetPoint : Pt.t) (data : list Pt.t) (t h : Z) :
  at_time targetPoint t → lags m !! source = Some h → lag_in_range h →
  calculateComponent m source targetPoint data
    = Return (findClosestValue data (mkDate (Int (t - h * 3600000)))
              * weight_of m source)%float.
Proof. apply calculateComponent_in_range. Qed.

Lemma calculateComponent_looks_up_lag_hours_before_witness :
  calculateComponent example_model "palmas" example_point
    [Pt.mk (Some (mkDate (Int 1699999000000))) 4%float None None]
  = Return (findClosestValue [Pt.mk (Some (mkDate (Int 1699999000000))) 4%float None None]
              (mkDate (Int (1700000000000 - 0 * 3600000)))
            * weight_of example_model "palmas")%float.
Proof.
  apply (calculateComponent_looks_up_lag_hours_before example_model "palmas" example_point
           _ 1700000000000 0).
  - split; reflexivity.
  - reflexivity.
  - unfold lag_in_range. simpl. lia.
Defined.

(** A target point with no date makes [calculateComponent] throw a
    TypeError; a target point whose date is invalid, or a source the model
    has no lag for, makes it throw a RangeError. *)
Theorem calculateComponent_throws (m : RiverModel) (source : string)
    (targetPoint : Pt.t) (data : list Pt.t) :
  (Pt.x targetPoint = None →
   calculateComponent m source targetPoint data = Throw TypeError)
  ∧ (∀ d, Pt.x targetPoint = Some d →
       getTime d = NaN ∨ lags m !! source = None →
       calculateComponent m source targetPoint data = Throw RangeError).
Proof.
  unfold calculateComponent. split.
  - now intros ->.
  - intros d -> Hbad.
    assert (E : lagged_time (getTime d) (lag_hours m source) = NaN).
    { unfold lagged_time, lag_hours. destruct Hbad as [-> | ->].
      - cbn [Num.sub Num.add]. reflexivity.
      - cbn [from_option Num.mul Num.sub Num.opp]. now destruct (getTime d). }
    unfold new_Date. rewrite E. reflexivity.
Qed.

Lemma calculateComponent_throws_witness :
  calculateComponent example_model "ram" example_point [] = Throw RangeError.
Proof.
  apply (proj2 (calculateComponent_throws example_model "ram" example_point [])
           (mkDate (Int 1700000000000)) eq_refl).
  right. reflexivity.
Defined.

Section EvaluateFacts.
Context `{Runtime}.

Lemma predict_returns_text (m : RiverModel) (targetPoint : Pt.t) (inputData : InputData)
    (v : value) :
  predict m targetPoint inputData = Return v →
  ∃ sum, v = VStr (prediction_text sum (offset m)).
Proof.
  unfold predict.
  destruct (calculateComponent m "palmas" _ _) as [a|e]; [|discriminate].
  destruct (calculateComponent m "itu" _ _) as [b|e]; [|discriminate].
  destruct (calculateComponent m "ba" _ _) as [c|e]; [|discriminate].
  cbn [mbind outcome_bind]. rewrite calculateWindComponent_default.
  intros [= <-]. exists (a + b + c)%float. reflexivity.
Qed.

Lemma sub_nan_r (a b : float) : is_nan_f b → is_nan_f (a - b).
Proof. unfold is_nan_f. rewrite sub_spec. intros ->. now destruct (Prim2SF a). Qed.

Lemma nan_is_nan : is_nan_f PrimFloat.nan.
Proof. reflexivity. Qed.

(** What the loop of [evaluate] has pushed when it ends: an observation and
    an error for every target point, each error [NaN]. *)
Lemma evaluate_points_pushes (m : RiverModel) (data : InputData) (targets : list Pt.t)
    (results results' : Results) :
  evaluate_points m data targets results = Return results' →
  observations results' = observations results ++ (Pt.y <$> targets)
  ∧ ∃ errs, errors results' = errors results ++ errs
            ∧ length errs = length targets
            ∧ List.Forall is_nan_f errs.
Proof.
  revert results. induction targets as [|p targets IH]; intros results; cbn [evaluate_points].
  - intros [= <-]. rewrite app_nil_r. split; [reflexivity|].
    exists []. rewrite app_nil_r. repeat split. constructor.
  - destruct (predict m p data) as [v|e] eqn:Ep; [|discriminate].
    cbn [mbind outcome_bind]. intros Hrest.
    destruct (predict_returns_text _ _ _ _ Ep) as [sum ->].
    destruct (IH _ Hrest) as (Hobs & errs & Herr & Hlen & Hnan).
    cbn [observations errors] in Hobs, Herr.
    split; [rewrite Hobs, <- app_assoc; reflexivity|].
    eexists (_ :: errs). rewrite Herr, <- app_assoc. split; [reflexivity|].
    split; [cbn; now rewrite Hlen|].
    constructor; [|exact Hnan].
    apply sub_nan_r. cbn [JS.ToNumber]. rewrite StringToNumber_prediction_text.
    reflexivity.
Qed.

Lemma sumSquaredErrors_nan (errs : list float) :
  errs ≠ [] → List.Forall is_nan_f errs → is_nan_f (sumSquaredErrors_of errs).
Proof.
  intros Hne Hall. destruct errs as [|e errs]; [congruence|].
  inversion Hall as [|? ? He _]; subst.
  apply (fold_nan_term (λ v, v * v)%float (e :: errs) 0%float e).
  right. split; [now left | now apply mul_nan].
Qed.

Lemma div_nan_l (a b : float) : is_nan_f a → is_nan_f (a / b).
Proof. unfold is_nan_f. rewrite div_spec. now intros ->. Qed.

Lemma sqrt_nan (a : float) : is_nan_f a → is_nan_f (PrimFloat.sqrt a).
Proof. unfold is_nan_f. rewrite sqrt_spec. now intros ->. Qed.

Lemma parseFloat_toFixed4_nan (a : float) : is_nan_f a → is_nan_f (parseFloat_toFixed4 a).
Proof. unfold is_nan_f, parseFloat_toFixed4. intros E. now rewrite E. Qed.

(** With an error that is [NaN] for every observation, RMSE is [NaN], and R2
    is 0 or [NaN]. *)
Lemma calculateMetrics_nan_errors (res : Results) :
  observations res ≠ [] → errors res ≠ [] → List.Forall is_nan_f (errors res) →
  is_nan_f (rmse (calculateMetrics res))
  ∧ (r2 (calculateMetrics res) = 0%float ∨ is_nan_f (r2 (calculateMetrics res))).
Proof.
  intros Hobs Herr Hnan. unfold calculateMetrics.
  destruct (Nat.eqb_spec (length (observations res)) 0) as [E|_].
  - destruct (observations res); [congruence | discriminate E].
  - pose proof (sumSquaredErrors_nan _ Herr Hnan) as Hsse.
    cbn [rmse r2]. split.
    + now apply parseFloat_toFixed4_nan, sqrt_nan, div_nan_l.
    + destruct (ssTotal_of (observations res) <=? 1e-10)%float; [now left|].
      right. now apply parseFloat_toFixed4_nan, sub_nan_r, div_nan_l.
Qed.

Lemma evaluate_metrics_not_finite (m : RiverModel) (data : InputData)
    (metrics : Metrics) :
  evaluate m data = Return metrics →
  (target data = [] ∧ r2 metrics = 0%float ∧ rmse metrics = PrimFloat.infinity)
  ∨ (target data ≠ []
     ∧ is_nan_f (rmse metrics)
     ∧ (r2 metrics = 0%float ∨ is_nan_f (r2 metrics))).
Proof.
  unfold evaluate.
  destruct (evaluate_points m data (target data) _) as [res|e] eqn:E; [|discriminate].
  cbn [mbind outcome_bind]. intros [= <-].
  destruct (evaluate_points_pushes _ _ _ _ _ E) as (Hobs & errs & Herr & Hlen & Hnan).
  cbn [observations errors app] in Hobs, Herr.
  destruct (target data) as [|p targets] eqn:Et.
  - left. split; [reflexivity|]. unfold calculateMetrics. rewrite Hobs. split; reflexivity.
  - right. split; [discriminate|].
    apply calculateMetrics_nan_errors.
    + rewrite Hobs. discriminate.
    + rewrite Herr. destruct errs; [discriminate Hlen | discriminate].
    + now rewrite Herr.
Qed.

(** Whenever [evaluate] returns: with no target point R2 is 0 and RMSE is
    [Infinity]; with one target point or more RMSE is [NaN], and R2 is 0 or
    [NaN].  No model and no data give a finite RMSE. *)
Theorem evaluate_rmse_is_never_finite (m : RiverModel) (data : InputData)
    (metrics : Metrics) :
  evaluate m data = Return metrics →
  (target data = [] ∧ r2 metrics = 0%float ∧ rmse metrics = PrimFloat.infinity)
  ∨ (target data ≠ []
     ∧ is_nan_f (rmse metrics)
     ∧ (r2 metrics = 0%float ∨ is_nan_f (r2 metrics))).
Proof. apply evaluate_metrics_not_finite. Qed.

Lemma evaluate_points_returns (m : RiverModel) (data : InputData) (targets : list Pt.t)
    (times : list Z) (results : Results) :
  lags_in_range m → Forall2 at_time targets times →
  ∃ results', evaluate_points m data targets results = Return results'.
Proof.
  intros Hlags Hall. revert results.
  induction Hall as [|p t targets times Hp Hall IH]; intros results; cbn [evaluate_points].
  - eauto.
  - assert (Hpred : ∃ v, predict m p data = Return v).
    { unfold predict.
      destruct (Hlags "palmas") as (h1 & Hl1 & Hh1); [cbn; tauto|].
      destruct (Hlags "itu") as (h2 & Hl2 & Hh2); [cbn; tauto|].
      destruct (Hlags "ba") as (h3 & Hl3 & Hh3); [cbn; tauto|].
      rewrite (calculateComponent_in_range m "palmas" p _ t h1 Hp Hl1 Hh1).
      rewrite (calculateComponent_in_range m "itu" p _ t h2 Hp Hl2 Hh2).
      rewrite (calculateComponent_in_range m "ba" p _ t h3 Hp Hl3 Hh3).
      cbn [mbind outcome_bind]. eauto. }
    destruct Hpred as [v ->]. cbn [mbind outcome_bind]. apply IH.
Qed.

Lemma evaluate_total (m : RiverModel) (data : InputData) (times : list Z) :
  lags_in_range m → Forall2 at_time (target data) times →
  ∃ metrics, evaluate m data = Return metrics.
Proof.
  intros Hlags Hall. unfold evaluate.
  destruct (evaluate_points_returns m data (target data) times
              {| predictions := []; observations := []; errors := [] |} Hlags Hall)
    as [res ->].
  cbn [mbind outcome_bind]. eauto.
Qed.

(** [evaluate] returns, and does not throw, when every target point has a
    time and the model a lag for each of the three river series. *)
Theorem evaluate_returns (m : RiverModel) (data : InputData) (times : list Z) :
  lags_in_range m → Forall2 at_time (target data) times →
  ∃ metrics, evaluate m data = Return metrics.
Proof. apply evaluate_total. Qed.

End EvaluateFacts.

Lemma evaluate_rmse_is_never_finite_witness :
  let metrics := {| r2 := 0; rmse := PrimFloat.nan;
                    returned_predictions :=
                      Some [VStr (@prediction_text example_runtime 0 0)] |} in
  (target example_data = [] ∧ r2 metrics = 0%float ∧ rmse metrics = PrimFloat.infinity)
  ∨ (target example_data ≠ []
     ∧ is_nan_f (rmse metrics)
     ∧ (r2 metrics = 0%float ∨ is_nan_f (r2 metrics))).
Proof.
  intros metrics.
  apply (@evaluate_rmse_is_never_finite example_runtime example_model example_data metrics).
  vm_compute. reflexivity.
Defined.

Lemma evaluate_returns_witness :
  ∃ metrics, @evaluate example_runtime example_model example_data = Return metrics.
Proof.
  apply (@evaluate_returns example_runtime example_model example_data [1700000000000]).
  - intros source Hin. exists 0. unfold lag_in_range.
    cbn in Hin. destruct Hin as [<- | [<- | [<- | []]]]; split; (reflexivity || (simpl; lia)).
  - repeat constructor.
Defined.

(** ** The dispatcher: order and end of the loop *)

Section MoreDispatcherFacts.
Context {P : Type}.
Variable cfg : Config.

Lemma in_order_initial (params : list P) : in_order cfg params (initial cfg params).
Proof.
  split; cbn [initial dispatched paramsGenerator].
  - intros i chunk Hi. discriminate Hi.
  - left. cbn [length]. now rewrite Nat.mul_0_r, drop_0.
Qed.

Lemma in_order_step (params : list P) (st : Main P) (e : event) :
  in_order cfg params st → in_order cfg params (step cfg st e).
Proof.
  intros [Hc Hg]. destruct e as [|i|]; cbn [step].
  - destruct (isDone st); [now split|]. unfold assignWork.
    destruct (find_available (workers st)) as [i|]; [|now split].
    pose proof (fill_chunk_spec (chunkSize cfg) (paramsGenerator st) []) as Hfill.
    destruct (fill_chunk (chunkSize cfg) (paramsGenerator st) []) as [[chunk|] gen'].
    + destruct Hfill as (Hn & -> & ->). cbn [app] in *.
      split; cbn [set_done dispatched paramsGenerator].
      * intros j c Hj. apply lookup_app_Some in Hj as [Hj | [Hge Hj]]; [now apply Hc|].
        destruct (j - length (dispatched st))%nat eqn:E; [|discriminate Hj].
        injection Hj as <-. assert (j = length (dispatched st)) as -> by lia.
        split; [|rewrite length_take; lia].
        destruct Hg as [-> | Hnil]; [reflexivity|].
        rewrite Hnil in *. cbn [length] in Hn.
        assert (chunkSize cfg = 0%nat) as -> by lia. now rewrite !take_0.
      * rewrite length_app. cbn [length].
        destruct Hg as [-> | ->]; [left | right; now rewrite drop_nil].
        rewrite drop_drop. f_equal. lia.
    + destruct Hfill as (_ & ->).
      split; cbn [set_done dispatched paramsGenerator]; [exact Hc | now right].
  - destruct (terminated st); [now split|].
    destruct (workers st !! i) as [[[chunk|] busy wp wr]|]; now split.
  - destruct (isDone st && negb (terminated st)); now split.
Qed.

Lemma in_order_run (params : list P) (events : list event) (st : Main P) :
  in_order cfg params st → in_order cfg params (run cfg events st).
Proof.
  revert st. induction events as [|e events IH]; intros st Hinv; [exact Hinv|].
  apply IH. now apply in_order_step.
Qed.

(** Along every run, the [i]-th chunk posted holds the parameter sets
    [chunkSize * i] to [chunkSize * i + chunkSize - 1] that the generator
    yields, in their order: no set is posted twice, none is skipped between
    two chunks, none is moved. *)
Theorem chunks_are_consecutive_slices (params : list P) (events : list event)
    (i : nat) (chunk : list P) :
  dispatched (run cfg events (initial cfg params)) !! i = Some chunk →
  chunk = take (chunkSize cfg) (drop (chunkSize cfg * i) params)
  ∧ length chunk = chunkSize cfg.
Proof.
  apply (ord_chunk _ _ _ (in_order_run params events _ (in_order_initial params))).
Qed.

Lemma never_done_step (st : Main P) (e : event) :
  chunkSize cfg = 0%nat ∨ maxWorkers cfg = 0%nat →
  isDone st = false ∧ (maxWorkers cfg = 0%nat → workers st = []) →
  isDone (step cfg st e) = false
  ∧ (maxWorkers cfg = 0%nat → workers (step cfg st e) = []).
Proof.
  intros Hcfg [Hd Hw]. destruct e as [|i|]; cbn [step].
  - rewrite Hd. unfold assignWork.
    destruct (find_available (workers st)) as [i|] eqn:Ef; [|now split].
    destruct Hcfg as [Hc | Hm].
    + rewrite Hc. cbn [fill_chunk set_done isDone workers]. split; [reflexivity|].
      intros Hm. rewrite (Hw Hm) in Ef. discriminate Ef.
    + rewrite (Hw Hm) in Ef. discriminate Ef.
  - destruct (terminated st); [now split|].
    destruct (workers st !! i) as [[[chunk|] busy wp wr]|] eqn:E; try now split.
    unfold on_message. cbn [type done_message String.eqb Ascii.eqb Bool.eqb].
    cbn [isDone workers]. split; [exact Hd|].
    intros Hm. rewrite (Hw Hm) in E. discriminate E.
  - rewrite Hd. cbn [andb]. now split.
Qed.

(** With no worker, or with chunks of no parameter set, the loop of [main]
    never ends: [isDone] stays false whatever happens. *)
Theorem loop_never_ends_without_workers_or_chunks (params : list P)
    (events : list event) :
  chunkSize cfg = 0%nat ∨ maxWorkers cfg = 0%nat →
  isDone (run cfg events (initial cfg params)) = false.
Proof.
  intros Hcfg.
  assert (Hrun : ∀ st : Main P, isDone st = false ∧ (maxWorkers cfg = 0%nat → workers st = []) →
                 isDone (run cfg events st) = false).
  { induction events as [|e events IH]; intros st Hst; [apply Hst|].
    apply IH. now apply never_done_step. }
  apply Hrun. split; [reflexivity|]. intros Hm. cbn [initial workers]. now rewrite Hm.
Qed.

(** One turn of the loop and the answer to the chunk it posts, from a state
    in which the first worker is idle and the generator has a whole chunk
    left. *)
Lemma answered_turn (st : Main P) (w0 : WorkerSlot P) (ws : list (WorkerSlot P)) :
  isDone st = false → terminated st = false →
  workers st = w0 :: ws → isBusy w0 = false → instance w0 = None →
  (chunkSize cfg ≤ length (paramsGenerator st))%nat →
  let st' := run cfg [LoopTurn; Answer 0%nat] st in
  isDone st' = false ∧ terminated st' = false
  ∧ (∃ w0', workers st' = w0' :: ws ∧ isBusy w0' = false ∧ instance w0' = None)
  ∧ paramsGenerator st' = drop (chunkSize cfg) (paramsGenerator st)
  ∧ length (received st') = S (length (received st)).
Proof.
  intros Hd Ht Hw Hb Hi Hlen. cbn [run fold_left].
  assert (E1 : step cfg st LoopTurn
               = {| workers := {| instance := Some (take (chunkSize cfg) (paramsGenerator st));
                                  isBusy := true; w_processed := w_processed w0;
                                  w_relevant := w_relevant w0 |} :: ws;
                    paramsGenerator := drop (chunkSize cfg) (paramsGenerator st);
                    totalProcessed := totalProcessed st; totalRelevant := totalRelevant st;
                    isDone := false; terminated := terminated st;
                    dispatched := dispatched st ++ [take (chunkSize cfg) (paramsGenerator st)];
                    received := received st |}).
  { cbn [step]. rewrite Hd. unfold assignWork. rewrite Hw.
    cbn [find_available]. rewrite Hb. cbn [negb].
    pose proof (fill_chunk_spec (chunkSize cfg) (paramsGenerator st) []) as Hfill.
    destruct (fill_chunk (chunkSize cfg) (paramsGenerator st) []) as [[chunk|] gen'].
    - destruct Hfill as (_ & -> & ->). reflexivity.
    - destruct Hfill as (Hlt & _). lia. }
  rewrite E1. cbn [step terminated]. rewrite Ht. cbn [workers lookup list_lookup].
  unfold on_message. cbn [type done_message String.eqb Ascii.eqb Bool.eqb].
  cbn [isDone terminated workers paramsGenerator received alter list_alter].
  repeat split.
  - eexists. repeat split.
  - rewrite length_app. cbn [length]. lia.
Qed.

Lemma idle_workers_outstanding (n : nat) :
  omap instance (replicate n {| instance := @None (list P); isBusy := false;
                                w_processed := Int 0; w_relevant := Int 0 |}) = [].
Proof. induction n as [|n IH]; [reflexivity | exact IH]. Qed.

Lemma answered_turns_run (params : list P) (n : nat) :
  (1 ≤ maxWorkers cfg)%nat → (n * chunkSize cfg ≤ length params)%nat →
  let st := run cfg (answered_turns n) (initial cfg params) in
  isDone st = false ∧ terminated st = false
  ∧ (∃ w0 ws, workers st = w0 :: ws ∧ isBusy w0 = false ∧ instance w0 = None
              ∧ omap instance ws = [])
  ∧ paramsGenerator st = drop (n * chunkSize cfg) params
  ∧ length (received st) = n.
Proof.
  intros Hm. induction n as [|n IH]; intros Hlen.
  - cbn [answered_turns replicate concat run fold_left initial
         isDone terminated workers paramsGenerator received length].
    repeat split.
    destruct (maxWorkers cfg) as [|k]; [lia|]. cbn [replicate].
    eexists _, _. repeat split. apply idle_workers_outstanding.
  - cbv zeta in *.
    assert (Es : run cfg (answered_turns (S n)) (initial cfg params)
                 = run cfg [LoopTurn; Answer 0%nat]
                     (run cfg (answered_turns n) (initial cfg params))).
    { unfold run, answered_turns. rewrite <- fold_left_app. f_equal.
      replace (S n) with (n + 1)%nat by lia. rewrite replicate_add, concat_app.
      cbn [replicate concat]. now rewrite app_nil_r. }
    destruct IH as (Hd & Ht & (w0 & ws & Hw & Hb & Hi & Hws) & Hg & Hr); [lia|].
    destruct (answered_turn _ w0 ws Hd Ht Hw Hb Hi) as (Hd' & Ht' & (w0' & Hw' & Hb' & Hi') & Hg' & Hr').
    { rewrite Hg, length_drop. lia. }
    rewrite Es. repeat split; try assumption.
    + exists w0', ws. auto.
    + rewrite Hg', Hg, drop_drop. f_equal. lia.
    + rewrite Hr', Hr. reflexivity.
Qed.

Lemma answered_run_ends (params : list P) :
  (1 ≤ maxWorkers cfg)%nat → (1 ≤ chunkSize cfg)%nat →
  Z.of_nat (length params) < 2 ^ 53 →
  let n := (length params / chunkSize cfg)%nat in
  let st := run cfg (answered_turns n ++ [LoopTurn]) (initial cfg params) in
  isDone st = true
  ∧ outstanding st = []
  ∧ concat (dispatched st) = take (n * chunkSize cfg) params
  ∧ length (received st) = n
  ∧ totalProcessed st = Int (Z.of_nat (n * chunkSize cfg)).
Proof.
  intros Hm Hc Hbound n st.
  assert (Hn : (n * chunkSize cfg ≤ length params)%nat).
  { subst n. rewrite Nat.mul_comm. apply Nat.Div0.mul_div_le. }
  assert (Hrest : (length params - n * chunkSize cfg < chunkSize cfg)%nat).
  { subst n. pose proof (Nat.div_mod_eq (length params) (chunkSize cfg)) as Hdm.
    pose proof (Nat.mod_upper_bound (length params) (chunkSize cfg)) as Hub.
    rewrite (Nat.mul_comm (_ / _)). lia. }
  destruct (answered_turns_run params n Hm Hn)
    as (Hd & Ht & (w0 & ws & Hw & Hb & Hi & Hws) & Hg & Hr).
  set (st0 := run cfg (answered_turns n) (initial cfg params)) in *.
  assert (Es : st = step cfg st0 LoopTurn).
  { subst st st0. unfold run. now rewrite fold_left_app. }
  assert (E : st = set_done P true
                     {| workers := workers st0; paramsGenerator := [];
                        totalProcessed := totalProcessed st0;
                        totalRelevant := totalRelevant st0;
                        isDone := isDone st0; terminated := terminated st0;
                        dispatched := dispatched st0; received := received st0 |}).
  { rewrite Es. cbn [step]. rewrite Hd. unfold assignWork. rewrite Hw.
    cbn [find_available]. rewrite Hb. cbn [negb].
    pose proof (fill_chunk_spec (chunkSize cfg) (paramsGenerator st0) []) as Hfill.
    destruct (fill_chunk (chunkSize cfg) (paramsGenerator st0) []) as [[chunk|] gen'].
    - destruct Hfill as (Hle & _). rewrite Hg, length_drop in Hle. lia.
    - destruct Hfill as (_ & ->). reflexivity. }
  pose proof (invariant_run cfg params (answered_turns n) _
                (invariant_initial cfg params Hbound)) as Hinv. fold st0 in Hinv.
  pose proof (in_order_run params (answered_turns n) _ (in_order_initial params)) as Hord.
  fold st0 in Hord.
  assert (Hout : outstanding st0 = []).
  { unfold outstanding. rewrite Hw. cbn [omap list_omap]. now rewrite Hi. }
  assert (Hdisp : length (dispatched st0) = n).
  { pose proof (inv_count _ _ _ Hinv) as Hcount. rewrite Hout, Hr in Hcount.
    cbn [length] in Hcount. lia. }
  rewrite E. unfold set_done, outstanding in *.
  cbn [isDone workers dispatched received totalProcessed].
  split; [reflexivity|]. split; [exact Hout|]. split; [|split; [exact Hr|]].
  - clear - Hord Hdisp Hn. destruct Hord as [Hchunk _]. revert Hchunk Hdisp.
    generalize (dispatched st0) as chunks. subst n. generalize (length params / chunkSize cfg)%nat as n.
    intros n chunks. revert n. induction chunks as [|c chunks IH] using rev_ind; intros n Hchunk <-.
    + reflexivity.
    + rewrite length_app in *. cbn [length] in *.
      rewrite concat_app. cbn [concat]. rewrite app_nil_r.
      rewrite (IH (length chunks)); [| |reflexivity].
      * destruct (Hchunk (length chunks) c) as [-> _].
        { now rewrite lookup_app_r, Nat.sub_diag by lia. }
        rewrite (Nat.mul_comm (length chunks)), (Nat.mul_comm (length chunks + 1)).
        replace (chunkSize cfg * (length chunks + 1))%nat
          with (chunkSize cfg * length chunks + chunkSize cfg)%nat by lia.
        apply take_take_drop.
      * intros i ch Hi. apply Hchunk. now apply lookup_app_l_Some.
  - rewrite (inv_total _ _ _ Hinv), (inv_sum _ _ _ Hinv), Hr. do 2 f_equal. lia.
Qed.

(** When every chunk is answered before the next turn of the loop, the loop
    ends at the turn that finds fewer than [chunkSize] parameter sets left:
    by then every whole chunk has been posted and answered, none is
    outstanding, and [totalProcessed] counts the sets of the whole chunks. *)
Theorem loop_ends_when_chunks_are_answered (params : list P) :
  (1 ≤ maxWorkers cfg)%nat → (1 ≤ chunkSize cfg)%nat →
  Z.of_nat (length params) < 2 ^ 53 →
  let n := (length params / chunkSize cfg)%nat in
  let st := run cfg (answered_turns n ++ [LoopTurn]) (initial cfg params) in
  isDone st = true
  ∧ outstanding st = []
  ∧ concat (dispatched st) = take (n * chunkSize cfg) params
  ∧ length (received st) = n
  ∧ totalProcessed st = Int (Z.of_nat (n * chunkSize cfg)).
Proof. apply answered_run_ends. Qed.

End MoreDispatcherFacts.

Lemma chunks_are_consecutive_slices_witness :
  [3; 4]%nat = take 2 (drop (2 * 1) [1; 2; 3; 4; 5]%nat) ∧ length [3; 4]%nat = 2%nat.
Proof.
  apply (chunks_are_consecutive_slices small_config [1; 2; 3; 4; 5]%nat
           [LoopTurn; LoopTurn; Answer 0; LoopTurn] 1 [3; 4]%nat).
  reflexivity.
Defined.

Lemma loop_never_ends_without_workers_or_chunks_witness :
  isDone (run no_worker_config [LoopTurn; Answer 0; LoopTurn; Terminate]
            (initial no_worker_config [1; 2; 3]%nat)) = false.
Proof.
  apply (loop_never_ends_without_workers_or_chunks no_worker_config [1; 2; 3]%nat
           [LoopTurn; Answer 0; LoopTurn; Terminate]).
  right. reflexivity.
Defined.

Lemma loop_ends_when_chunks_are_answered_witness :
  let st := run small_config (answered_turns 2 ++ [LoopTurn])
              (initial small_config [1; 2; 3; 4; 5]%nat) in
  isDone st = true
  ∧ outstanding st = []
  ∧ concat (dispatched st) = take (2 * 2) [1; 2; 3; 4; 5]%nat
  ∧ length (received st) = 2%nat
  ∧ totalProcessed st = Int (Z.of_nat (2 * 2)).
Proof.
  apply (loop_ends_when_chunks_are_answered small_config [1; 2; 3; 4; 5]%nat).
  - cbn. lia.
  - cbn. lia.
  - reflexivity.
Defined.

(** ** The sink and the merger, end to end *)

#[local] Open Scope string_scope.
#[local] Open Scope list_scope.

(** *** Strings *)

Lemma append_nil_r (s : string) : s +:+ "" = s.
Proof.
  induction s as [|c s IH]; [reflexivity|].
  change (String c s +:+ "") with (String c (s +:+ "")). now rewrite IH.
Qed.

Lemma append_assoc (a b c : string) : (a +:+ b) +:+ c = a +:+ (b +:+ c).
Proof.
  induction a as [|x a IH]; [reflexivity|].
  change (String x ((a +:+ b) +:+ c) = String x (a +:+ (b +:+ c))). now rewrite IH.
Qed.

Lemma concat_empty_cons (a : string) (l : list string) :
  String.concat "" (a :: l) = a +:+ String.concat "" l.
Proof. destruct l; simpl; [now rewrite append_nil_r | reflexivity]. Qed.

Lemma concat_empty_app (l k : list string) :
  String.concat "" (l ++ k) = String.concat "" l +:+ String.concat "" k.
Proof.
  induction l as [|a l IH]; [reflexivity|].
  rewrite <- app_comm_cons, !concat_empty_cons, IH. now rewrite append_assoc.
Qed.

Lemma In_trimStart (c : ascii) (s : string) :
  In c (list_ascii_of_string s) → is_white c = false →
  In c (list_ascii_of_string (trimStart s)).
Proof.
  induction s as [|d s IH]; simpl; [tauto|]. intros [-> | Hin] Hc.
  - rewrite Hc. now left.
  - destruct (is_white d); [now apply IH | now right].
Qed.

Lemma In_reverse_string (c : ascii) (s : string) :
  In c (list_ascii_of_string s) → In c (list_ascii_of_string (reverse_string s)).
Proof.
  intros Hin. unfold reverse_string. rewrite list_ascii_of_string_of_list_ascii.
  now apply in_rev in Hin.
Qed.

(** A text with a character that is not white space does not trim to the
    empty text. *)
Lemma trim_nonblank (s : string) : nonblank s → String.eqb (trim s) "" = false.
Proof.
  intros (c & Hin & Hc). unfold trim.
  assert (H : In c (list_ascii_of_string
                      (reverse_string (trimStart (reverse_string (trimStart s)))))).
  { apply In_reverse_string, In_trimStart; [|exact Hc].
    apply In_reverse_string, In_trimStart; assumption. }
  destruct (reverse_string _); [destruct H | reflexivity].
Qed.

Lemma prefix_empty (s : string) : String.prefix "" s = true.
Proof. now destruct s. Qed.

(** Whether a text begins with [p] shows on its first part, when [p] holds
    no separator. *)
Lemma prefix_first_part (sep : ascii) (p s : string) :
  free_of sep p →
  String.prefix p s = String.prefix p (hd "" (split_on sep s)).
Proof.
  unfold free_of. revert p. induction s as [|c s IH]; intros p Hp.
  - reflexivity.
  - destruct p as [|d p]; [now rewrite !prefix_empty|]. cbn [split_on String.prefix].
    destruct (Ascii.eqb_spec c sep) as [-> | Hne].
    + cbn [hd String.prefix]. destruct (ascii_dec d sep) as [-> | Hd]; [|reflexivity].
      exfalso. apply Hp. now left.
    + pose proof (split_on_nonempty sep s) as Hn.
      destruct (split_on sep s) as [|q qs] eqn:E; [congruence|].
      cbn [hd String.prefix]. destruct (ascii_dec d c); [|reflexivity].
      specialize (IH p). cbn [hd] in IH. apply IH.
      intros Hin. apply Hp. now right.
Qed.

Lemma split_on_keeps_free (c sep : ascii) (s part : string) :
  free_of c s → In part (split_on sep s) → free_of c part.
Proof.
  unfold free_of. revert part. induction s as [|d s IH]; simpl; intros part Hs Hin.
  - destruct Hin as [<- | []]. simpl. tauto.
  - destruct (Ascii.eqb d sep).
    + destruct Hin as [<- | Hin]; [simpl; tauto|]. apply IH; [tauto | exact Hin].
    + destruct (split_on sep s) as [|q qs] eqn:E.
      * destruct Hin as [<- | []]. simpl. intros [<- | []]. tauto.
      * destruct Hin as [<- | Hin].
        -- simpl. intros [<- | Hq]; [tauto|]. apply (IH q); [tauto | now left | exact Hq].
        -- apply IH; [tauto | now right].
Qed.

Lemma free_of_append (c : ascii) (a b : string) :
  free_of c a → free_of c b → free_of c (a +:+ b).
Proof.
  unfold free_of. rewrite list_ascii_of_string_app. intros Ha Hb Hin.
  apply in_app_or in Hin. tauto.
Qed.

Lemma free_of_concat (c sep : ascii) (cells : list string) :
  c ≠ sep → List.Forall (free_of c) cells →
  free_of c (String.concat (String sep "") cells).
Proof.
  intros Hne. induction 1 as [|a cells Ha Hall IH]; [unfold free_of; simpl; tauto|].
  destruct cells as [|b cells]; [exact Ha|].
  change (String.concat (String sep "") (a :: b :: cells))
    with (a +:+ String sep (String.concat (String sep "") (b :: cells))).
  apply free_of_append; [exact Ha|].
  unfold free_of in *. simpl. intros [E | Hin]; [congruence | now apply IH].
Qed.

(** Lines that hold no line break, each followed by one, split back into
    themselves. *)
Lemma split_on_lines (lines : list string) (last : string) :
  List.Forall (free_of newline) lines →
  split_on newline (String.concat "" (map (λ l, l +:+ nl) lines) +:+ last)
    = lines ++ split_on newline last.
Proof.
  induction 1 as [|l lines Hl Hall IH]; [reflexivity|].
  cbn [map]. rewrite concat_empty_cons, !append_assoc.
  change (nl +:+ ?x) with (String newline x).
  rewrite split_on_app by exact Hl. now rewrite IH.
Qed.

(** *** Rows the merger leaves as they are *)

Lemma normalizedParts_nonblank (cells : list string) :
  length cells = 30%nat →
  List.Forall (λ c, String.eqb (trim c) "" = false) cells →
  normalizedParts cells = cells.
Proof.
  intros Hlen Hall. apply list_eq. intros i.
  destruct (Nat.lt_ge_cases i 30) as [Hi | Hi].
  - rewrite normalizedParts_lookup by exact Hi.
    destruct (cells !! i) as [c|] eqn:E.
    + rewrite List.Forall_forall in Hall. rewrite Hall; [reflexivity|].
      apply list_elem_of_In. eapply list_elem_of_lookup_2, E.
    + apply lookup_ge_None in E. lia.
  - rewrite !lookup_ge_None_2; [reflexivity | lia | unfold normalizedParts].
    rewrite length_map, length_seq. lia.
Qed.

Lemma semicolon_in_concat (a b : string) (cells : list string) :
  In semicolon (list_ascii_of_string (String.concat ";" (a :: b :: cells))).
Proof.
  change (String.concat ";" (a :: b :: cells))
    with (a +:+ String semicolon (String.concat ";" (b :: cells))).
  rewrite list_ascii_of_string_app. apply in_or_app. right. now left.
Qed.

(** A line of thirty cells, none blank and none with a semicolon, that does
    not begin as the header does, is copied by the merger as it is. *)
Lemma merge_line_normal (cells : list string) :
  length cells = 30%nat →
  List.Forall (free_of semicolon) cells →
  List.Forall (λ c, String.eqb (trim c) "" = false) cells →
  String.prefix "pesoPalmas" (hd "" cells) = false →
  merge_line (String.concat ";" cells) = Some (String.concat ";" cells +:+ nl).
Proof.
  intros Hlen Hfree Hnb Hhd. unfold merge_line.
  assert (Hsplit : split_on semicolon (String.concat ";" cells) = cells).
  { apply (split_on_concat semicolon); [|exact Hfree]. now destruct cells. }
  assert (Hb : String.eqb (trim (String.concat ";" cells)) "" = false).
  { apply trim_nonblank. exists semicolon. split; [|reflexivity].
    destruct cells as [|a [|b cells]]; [discriminate Hlen | discriminate Hlen|].
    apply semicolon_in_concat. }
  assert (Hp : startsWith "pesoPalmas" (String.concat ";" cells) = false).
  { unfold startsWith. rewrite (prefix_first_part semicolon), Hsplit; [exact Hhd|].
    unfold free_of. simpl. intros H. repeat (destruct H as [H | H]; [discriminate H|]).
    exact H. }
  rewrite Hb, Hp, Hsplit. cbn [negb andb].
  now rewrite (normalizedParts_nonblank cells Hlen Hnb).
Qed.

Lemma default_part_nonblank (i : nat) : String.eqb (trim (default_part i)) "" = false.
Proof.
  unfold default_part.
  repeat match goal with |- context [if ?b then _ else _] => destruct b end; reflexivity.
Qed.

Lemma default_part_no_newline (i : nat) : free_of newline (default_part i).
Proof.
  unfold default_part, free_of.
  repeat match goal with |- context [if ?b then _ else _] => destruct b end;
    simpl; intros H; repeat (destruct H as [H | H]; [discriminate H|]); exact H.
Qed.

Lemma default_part_not_header (i : nat) : String.prefix "pesoPalmas" (default_part i) = false.
Proof.
  unfold default_part.
  repeat match goal with |- context [if ?b then _ else _] => destruct b end; reflexivity.
Qed.

(** The row the merger writes for a line is a line it copies as it is. *)
Lemma merge_line_row (line row : string) :
  free_of newline line → merge_line line = Some row →
  ∃ line', row = line' +:+ nl ∧ free_of newline line'
           ∧ merge_line line' = Some (line' +:+ nl).
Proof.
  intros Hnl. unfold merge_line.
  destruct (negb (String.eqb (trim line) "")) eqn:Eb; [|discriminate].
  destruct (startsWith "pesoPalmas" line) eqn:Ep; [discriminate|].
  cbn [negb andb]. intros [= <-].
  set (parts := split_on semicolon line).
  exists (String.concat ";" (normalizedParts parts)). split; [reflexivity|].
  assert (Hcell : ∀ c, In c (normalizedParts parts) →
            free_of semicolon c ∧ free_of newline c ∧ String.eqb (trim c) "" = false).
  { intros c Hin. unfold normalizedParts in Hin. apply in_map_iff in Hin as (i & <- & _).
    destruct (parts !! i) as [part|] eqn:E.
    - destruct (negb (String.eqb (trim part) "")) eqn:Et.
      + assert (Hpart : In part parts).
        { apply list_elem_of_In. eapply list_elem_of_lookup_2, E. }
        split; [now apply (split_on_free semicolon line)|].
        split; [now apply (split_on_keeps_free newline semicolon line)|].
        now apply negb_true_iff in Et.
      + split; [apply default_part_free|].
        split; [apply default_part_no_newline | apply default_part_nonblank].
    - split; [apply default_part_free|].
      split; [apply default_part_no_newline | apply default_part_nonblank]. }
  split.
  - apply (free_of_concat newline semicolon); [discriminate|].
    apply List.Forall_forall. intros c Hc. now apply Hcell.
  - apply merge_line_normal.
    + reflexivity.
    + apply List.Forall_forall. intros c Hc. now apply Hcell.
    + apply List.Forall_forall. intros c Hc. now apply Hcell.
    + change (hd "" (normalizedParts parts))
        with (match parts !! 0%nat with
              | Some part =>
                  if negb (String.eqb (trim part) "") then part else default_part 0
              | None => default_part 0
              end).
      destruct (parts !! 0%nat) as [part|] eqn:E; [|reflexivity].
      destruct (negb (String.eqb (trim part) "")); [|reflexivity].
      unfold startsWith in Ep. rewrite (prefix_first_part semicolon) in Ep.
      * fold parts in Ep. destruct parts as [|q qs]; [discriminate E|].
        injection E as ->. exact Ep.
      * unfold free_of. simpl. intros H.
        repeat (destruct H as [H | H]; [discriminate H|]). exact H.
Qed.

(** The rows the merger writes for the lines of a text. *)
Lemma merged_rows (content : string) :
  List.Forall (λ row, ∃ line', row = line' +:+ nl ∧ free_of newline line'
                               ∧ merge_line line' = Some (line' +:+ nl))
    (omap merge_line (split_on newline content)).
Proof.
  apply List.Forall_forall. intros row Hin.
  apply list_elem_of_In, list_elem_of_omap in Hin as (line & Hline & Hrow).
  apply (merge_line_row line); [|exact Hrow].
  apply (split_on_free newline content). now apply list_elem_of_In.
Qed.

Lemma header_line : header = String.concat ";" CSV_COLUMNS +:+ nl.
Proof. reflexivity. Qed.

(** Merging a text made of the header and of rows that the merger copies
    gives the rows back. *)
Lemma merge_text_of_rows (lines : list string) :
  List.Forall (λ l, free_of newline l ∧ merge_line l = Some (l +:+ nl)) lines →
  omap merge_line
    (split_on newline (header +:+ String.concat "" (map (λ l, l +:+ nl) lines)))
  = map (λ l, l +:+ nl) lines.
Proof.
  intros Hall.
  rewrite <- (append_nil_r (String.concat "" _)).
  rewrite header_line, append_assoc.
  change (nl +:+ ?x) with (String newline x).
  rewrite split_on_app by (vm_compute; intros H;
    repeat (destruct H as [H | H]; [discriminate H|]); exact H).
  rewrite split_on_lines by (eapply List.Forall_impl; [|exact Hall]; now intros l [Hl _]).
  cbn [omap list_omap].
  replace (merge_line (String.concat ";" CSV_COLUMNS)) with (@None string)
    by (vm_compute; reflexivity).
  induction Hall as [|l lines [_ Hl] Hall IH]; [reflexivity|].
  cbn [app map omap list_omap]. rewrite Hl. cbn. f_equal. exact IH.
Qed.

Lemma rows_of_lines (rows : list string) :
  List.Forall (λ row, ∃ line', row = line' +:+ nl ∧ free_of newline line'
                               ∧ merge_line line' = Some (line' +:+ nl)) rows →
  ∃ lines, rows = map (λ l, l +:+ nl) lines
           ∧ List.Forall (λ l, free_of newline l ∧ merge_line l = Some (l +:+ nl)) lines.
Proof.
  induction 1 as [|row rows (l & -> & Hl & Hm) Hall (lines & -> & Hlines)].
  - exists []. split; [reflexivity | constructor].
  - exists (l :: lines). split; [reflexivity | constructor; auto].
Qed.

(** Merging the file the merger wrote gives that file again, and the same
    count. *)
Theorem combineResults_is_idempotent (contents : list string) :
  combineResults [fst (combineResults contents)] = combineResults contents.
Proof.
  unfold combineResults. cbn [fst flat_map]. rewrite app_nil_r.
  set (rows := flat_map (λ content, omap merge_line (split_on newline content)) contents).
  assert (Hrows : List.Forall (λ row, ∃ line', row = line' +:+ nl ∧ free_of newline line'
                                       ∧ merge_line line' = Some (line' +:+ nl)) rows).
  { unfold rows. apply List.Forall_forall. intros row Hin.
    apply in_flat_map in Hin as (content & _ & Hin).
    pose proof (merged_rows content) as Hc. rewrite List.Forall_forall in Hc. now apply Hc. }
  destruct (rows_of_lines rows Hrows) as (lines & -> & Hlines).
  now rewrite (merge_text_of_rows lines Hlines).
Qed.

(** Merging partial files one after the other: the header once, the rows
    of the first files, then the rows of the others; the counts add up. *)
Theorem combineResults_app (contents contents' : list string) :
  ∃ rows',
    fst (combineResults contents') = header +:+ rows'
    ∧ combineResults (contents ++ contents')
      = (fst (combineResults contents) +:+ rows',
         (snd (combineResults contents) + snd (combineResults contents'))%nat).
Proof.
  unfold combineResults. cbn [fst snd]. eexists. split; [reflexivity|].
  rewrite flat_map_app, concat_empty_app, length_app, append_assoc. reflexivity.
Qed.

(** *** The sink's trace *)

Section SinkTrace.
Context `{Runtime}.







End SinkTrace.

(** *** From the sink to the merger *)

Lemma number_text_chars (s : string) (c : ascii) :
  number_text s → In c (list_ascii_of_string s) →
  In c (list_ascii_of_string "0123456789+-.eInfityNa").
Proof. intros [_ Hall] Hin. rewrite List.Forall_forall in Hall. now apply Hall. Qed.

Lemma number_text_free (s : string) (c : ascii) :
  number_text s → ¬ In c (list_ascii_of_string "0123456789+-.eInfityNa") → free_of c s.
Proof. intros Hs Hc Hin. apply Hc. now apply (number_text_chars s). Qed.

Lemma number_text_first (s : string) :
  number_text s →
  ∃ c s', s = String c s' ∧ In c (list_ascii_of_string "0123456789+-.eInfityNa").
Proof.
  intros Hs. destruct s as [|c s']; [now destruct Hs|].
  exists c, s'. split; [reflexivity|]. apply (number_text_chars _ c Hs). now left.
Qed.

Lemma number_text_nonblank (s : string) :
  number_text s → String.eqb (trim s) "" = false.
Proof.
  intros Hs. apply trim_nonblank.
  destruct (number_text_first s Hs) as (c & s' & -> & Hc).
  exists c. split; [now left|].
  cbn in Hc. repeat (destruct Hc as [<- | Hc]; [reflexivity|]). contradiction.
Qed.

Lemma number_text_not_header (s : string) :
  number_text s → String.prefix "pesoPalmas" s = false.
Proof.
  intros Hs. destruct (number_text_first s Hs) as (c & s' & -> & Hc).
  cbn in Hc. repeat (destruct Hc as [<- | Hc]; [reflexivity|]). contradiction.
Qed.

Section SinkToMerger.
Context `{Runtime}.
Hypothesis Number_toString_text : ∀ f, number_text (Number_toString f).

Lemma row_cells_numeric (result : gmap string value) :
  numeric_result result →
  List.Forall (λ v, ∃ f, v = VNum f) (row_cells result).
Proof.
  intros Hr. apply List.Forall_forall. intros v Hin.
  unfold row_cells in Hin. apply in_map_iff in Hin as (col & <- & Hcol).
  rewrite row_get by exact Hcol.
  unfold JS.get. destruct (result !! col) as [v|] eqn:E; cbn [default].
  - destruct (Hr col v E) as [f ->]. cbn [JS.is_undefined]. eauto.
  - cbn [JS.is_undefined]. eauto.
Qed.

(** The row the sink writes for a result whose fields are Numbers is a
    line the merger copies as it is. *)
Lemma csv_line_merged (result : gmap string value) :
  numeric_result result →
  ∃ line, csv_line result = line +:+ nl
          ∧ free_of newline line
          ∧ merge_line line = Some (line +:+ nl).
Proof.
  intros Hr. unfold csv_line, JS.join.
  set (cells := map (λ v, match v with VUndef => "" | _ => JS.ToString v end)
                    (row_cells result)).
  assert (Hcells : List.Forall number_text cells).
  { unfold cells. apply List.Forall_forall. intros s Hin.
    apply in_map_iff in Hin as (v & <- & Hv).
    pose proof (row_cells_numeric result Hr) as Hnum.
    rewrite List.Forall_forall in Hnum. destruct (Hnum v Hv) as [f ->].
    apply Number_toString_text. }
  exists (String.concat ";" cells). split; [reflexivity|]. split.
  - apply (free_of_concat newline semicolon); [discriminate|].
    eapply List.Forall_impl; [|exact Hcells]. intros s Hs.
    apply (number_text_free s newline Hs). cbn. intros Hc.
    repeat (destruct Hc as [Hc | Hc]; [discriminate Hc|]). exact Hc.
  - apply merge_line_normal.
    + unfold cells. now rewrite length_map.
    + eapply List.Forall_impl; [|exact Hcells]. intros s Hs.
      apply (number_text_free s semicolon Hs). cbn. intros Hc.
      repeat (destruct Hc as [Hc | Hc]; [discriminate Hc|]). exact Hc.
    + eapply List.Forall_impl; [|exact Hcells]. apply number_text_nonblank.
    + destruct cells as [|c cells'] eqn:E; [reflexivity|].
      apply number_text_not_header. now inversion Hcells.
Qed.

Lemma partial_file_merged (results : list (gmap string value)) :
  List.Forall numeric_result results →
  omap merge_line (split_on newline (partial_file results)) = map csv_line results.
Proof.
  intros Hall.
  assert (Hlines : ∃ lines,
            map csv_line results = map (λ l, l +:+ nl) lines
            ∧ List.Forall (λ l, free_of newline l ∧ merge_line l = Some (l +:+ nl)) lines).
  { induction Hall as [|r results Hr Hall (lines & E & Hlines)].
    - exists []. split; [reflexivity | constructor].
    - destruct (csv_line_merged r Hr) as (l & El & Hl & Hm).
      exists (l :: lines). cbn [map]. rewrite El, E. split; [reflexivity|].
      constructor; auto. }
  destruct Hlines as (lines & E & Hlines).
  unfold partial_file. rewrite E. now apply merge_text_of_rows.
Qed.

(** Merging partial files that hold the rows a sink writes for results
    whose fields are Numbers gives one file with the header and those rows,
    in their order, and counts them. *)
Theorem merger_keeps_the_rows_of_the_sink (files : list (list (gmap string value))) :
  List.Forall (List.Forall numeric_result) files →
  combineResults (map partial_file files)
  = (partial_file (concat files), length (concat files)).
Proof.
  intros Hall. unfold combineResults.
  assert (E : flat_map (λ content, omap merge_line (split_on newline content))
                (map partial_file files)
              = map csv_line (concat files)).
  { induction Hall as [|results files Hr Hall IH]; [reflexivity|].
    cbn [map flat_map concat]. rewrite IH, (partial_file_merged results Hr).
    now rewrite map_app. }
  rewrite E, length_map. reflexivity.
Qed.

End SinkToMerger.

Lemma merger_keeps_the_rows_of_the_sink_witness :
  combineResults (map (@partial_file example_runtime) [[∅]; [∅; ∅]])
  = (@partial_file example_runtime (concat [[∅]; [∅; ∅]]),
     length (concat [[∅]; [∅; ∅]] : list (gmap string value))).
Proof.
  apply (@merger_keeps_the_rows_of_the_sink example_runtime).
  - intros f. split; [discriminate|]. repeat constructor.
  - repeat constructor; intros col v Hv; rewrite lookup_empty in Hv; discriminate Hv.
Defined.

(** *** Thirty cells a row *)

Section RowsOfTheSinkAndOfTheMerger.
Context `{Runtime}.
Hypothesis Number_toString_text : ∀ f, number_text (Number_toString f).




End RowsOfTheSinkAndOfTheMerger.


#[local] Open Scope Z_scope.

(** ** Compass degrees, in general *)

Lemma sector_table :
  forallb (λ n, match List.find (λ s, le_max (Int n) (max s)) sectors with
                | Some s => String.eqb (dir s) (nearest_compass_point n)
                | None => false
                end)
          (map Z.of_nat (seq 0 360)) = true.
Proof. vm_compute. reflexivity. Qed.

Lemma sector_nearest (n : Z) :
  0 <= n < 360 →
  ∃ s, List.find (λ s, le_max (Int n) (max s)) sectors = Some s
       ∧ dir s = nearest_compass_point n.
Proof.
  intros Hn. pose proof sector_table as Ht. rewrite forallb_forall in Ht.
  specialize (Ht n). 
  assert (Hin : In n (map Z.of_nat (seq 0 360))).
  { apply in_map_iff. exists (Z.to_nat n). split; [lia|]. apply in_seq. lia. }
  specialize (Ht Hin).
  destruct (List.find (λ s, le_max (Int n) (max s)) sectors) as [s|]; [|discriminate].
  exists s. split; [reflexivity|]. now apply String.eqb_eq.
Qed.

(** On an input whose digits denote a number [z] below [2^53] (0 when the
    input has no digit), [gradosACardinal] returns the compass point nearest
    to [z] degrees.  Every character that is not a digit is dropped first, a
    sign and a decimal point too. *)
Theorem gradosACardinal_is_the_nearest_compass_point (grados : string) :
  Z_of_digits (keep_digits grados) < 2 ^ 53 →
  gradosACardinal grados
    = Return (nearest_compass_point (Z_of_digits (keep_digits grados))).
Proof.
  intros Hb.
  pose proof (Z_of_digits_nonneg _ (keep_digits_digits grados)) as Hnn.
  set (z := Z_of_digits (keep_digits grados)) in *.
  assert (Hz : Num.or_else (parseInt (keep_digits grados)) (Int 0) = Int z).
  { subst z. destruct (keep_digits grados) as [|c s] eqn:E; [reflexivity|].
    cbn [parseInt]. rewrite Number_of_Z_exact by lia.
    unfold Num.or_else. now destruct (Z_of_digits (String c s)). }
  unfold gradosACardinal. rewrite Hz.
  assert (Hr : 0 <= Z.rem z 360 < 360) by (apply Z.rem_bound_pos; lia).
  cbn [Num.rem Z.eqb]. rewrite add_exact by lia. cbn [Num.rem Z.eqb].
  assert (Hn : Z.rem (Z.rem z 360 + 360) 360 = z mod 360).
  { rewrite !Z.rem_mod_nonneg by lia.
    rewrite <- Z.add_mod_idemp_l by lia. rewrite Z.mod_mod by lia.
    replace (z mod 360 + 360) with (z mod 360 + 1 * 360) by lia.
    rewrite Z.mod_add by lia. apply Z.mod_mod. lia. }
  rewrite Hn.
  destruct (sector_nearest (z mod 360)) as (s & -> & ->).
  - apply Z.mod_pos_bound. lia.
  - unfold nearest_compass_point. now rewrite Z.mod_mod by lia.
Qed.

Lemma gradosACardinal_is_the_nearest_compass_point_witness :
  gradosACardinal "-383.0" = Return (nearest_compass_point 3830).
Proof.
  apply (gradosACardinal_is_the_nearest_compass_point "-383.0"). reflexivity.
Defined.

(** ** The validation of the series *)

#[local] Open Scope string_scope.
#[local] Open Scope list_scope.

Lemma SFcompare_refl (x : spec_float) : x ≠ S754_nan → SFcompare x x = Some Eq.
Proof.
  destruct x as [s|s| |s m e]; cbn [SFcompare]; try congruence; intros _.
  - now destruct s.
  - rewrite Z.compare_refl, Pos.compare_cont_refl. now destruct s.
Qed.

Lemma is_nan_iff (x : float) : PrimFloat.is_nan x = true ↔ is_nan_f x.
Proof.
  unfold PrimFloat.is_nan, is_nan_f. rewrite FloatAxioms.eqb_spec. unfold SFeqb. split.
  - intros Hn. destruct (Prim2SF x) as [s|s| |s m e] eqn:E; [| |reflexivity|];
      rewrite SFcompare_refl in Hn by discriminate; discriminate Hn.
  - now intros ->.
Qed.

Lemma Math_min_nan (a b : float) :
  PrimFloat.is_nan (Math_min a b) = PrimFloat.is_nan a || PrimFloat.is_nan b.
Proof.
  unfold Math_min.
  destruct (PrimFloat.is_nan a) eqn:Ea, (PrimFloat.is_nan b) eqn:Eb; cbn [orb];
    try reflexivity.
  destruct (b <? a)%float; [exact Eb|].
  destruct (is_positive_zero a && is_negative_zero b); assumption.
Qed.

Lemma Math_max_nan (a b : float) :
  PrimFloat.is_nan (Math_max a b) = PrimFloat.is_nan a || PrimFloat.is_nan b.
Proof.
  unfold Math_max.
  destruct (PrimFloat.is_nan a) eqn:Ea, (PrimFloat.is_nan b) eqn:Eb; cbn [orb];
    try reflexivity.
  destruct (a <? b)%float; [exact Eb|].
  destruct (is_negative_zero a && is_positive_zero b); assumption.
Qed.

(** The scan of a series: the least and the greatest value are [NaN]
    together, and they are when a sample's value is. *)
Lemma scan_nan (series : list Pt.t) (st : Stats.t) :
  let st' := fold_left (λ st point,
                          Stats.mk (Math_min (Stats.min st) (Pt.y point))
                                   (Math_max (Stats.max st) (Pt.y point)))
                       series st in
  PrimFloat.is_nan (Stats.min st')
    = PrimFloat.is_nan (Stats.min st) || existsb (λ p, PrimFloat.is_nan (Pt.y p)) series
  ∧ PrimFloat.is_nan (Stats.max st')
    = PrimFloat.is_nan (Stats.max st) || existsb (λ p, PrimFloat.is_nan (Pt.y p)) series.
Proof.
  revert st. induction series as [|p series IH]; intros st; cbn [fold_left existsb].
  - now rewrite !orb_false_r.
  - destruct (IH (Stats.mk (Math_min (Stats.min st) (Pt.y p))
                           (Math_max (Stats.max st) (Pt.y p)))) as [Hmin Hmax].
    cbn zeta in *. rewrite Hmin, Hmax. cbn [Stats.min Stats.max].
    rewrite Math_min_nan, Math_max_nan, !orb_assoc. auto.
Qed.

Lemma series_stats_nan (series : list Pt.t) :
  PrimFloat.is_nan (Stats.min (series_stats series))
  || PrimFloat.is_nan (Stats.max (series_stats series)) = true
  ↔ has_nan series.
Proof.
  unfold series_stats. destruct (scan_nan series (Stats.mk PrimFloat.infinity PrimFloat.neg_infinity))
    as [Hmin Hmax]. cbn zeta in *. rewrite Hmin, Hmax. cbn [Stats.min Stats.max].
  change (PrimFloat.is_nan PrimFloat.infinity) with false.
  change (PrimFloat.is_nan PrimFloat.neg_infinity) with false.
  cbn [orb]. rewrite orb_diag, existsb_exists. unfold has_nan.
  split; intros (p & Hin & Hp); exists p; (split; [exact Hin|]); now apply is_nan_iff.
Qed.

(** [validateData] returns exactly when no sample of the three river series
    and of the target series has [NaN] for its value; otherwise it throws
    for the first of these four series, in that order, that has one.  The
    wind series is not looked at. *)
Theorem validateData_rejects_NaN (data : DataSet.t) :
  (validateData data = Validated
   ↔ ¬ has_nan (DataSet.palmas data) ∧ ¬ has_nan (DataSet.itu data)
     ∧ ¬ has_nan (DataSet.ba data) ∧ ¬ has_nan (DataSet.ram data))
  ∧ (∀ key, validateData data = InvalidData key →
       ∃ before series after,
         [("palmas", DataSet.palmas data); ("itu", DataSet.itu data);
          ("ba", DataSet.ba data); ("ram", DataSet.ram data)]
         = before ++ (key, series) :: after
         ∧ has_nan series
         ∧ List.Forall (λ entry, ¬ has_nan (snd entry)) before).
Proof.
  unfold validateData, stats_entries. cbn [List.find].
  pose proof (series_stats_nan (DataSet.palmas data)) as H1.
  pose proof (series_stats_nan (DataSet.itu data)) as H2.
  pose proof (series_stats_nan (DataSet.ba data)) as H3.
  pose proof (series_stats_nan (DataSet.ram data)) as H4.
  destruct (_ || _) eqn:E1 in |- *.
  { split; [split; [discriminate | intros [Hn _]; exfalso; apply Hn, H1; exact E1]|].
    intros key [= <-]. eexists [], (DataSet.palmas data), _.
    split; [reflexivity|]. split; [apply H1; exact E1 | constructor]. }
  assert (N1 : ¬ has_nan (DataSet.palmas data)) by (intros Hn; apply H1 in Hn; congruence).
  clear H1 E1.
  destruct (_ || _) eqn:E2 in |- *.
  { split; [split; [discriminate | intros (_ & Hn & _); exfalso; apply Hn, H2; exact E2]|].
    intros key [= <-]. eexists [("palmas", DataSet.palmas data)], (DataSet.itu data), _.
    split; [reflexivity|]. split; [apply H2; exact E2 | repeat constructor; exact N1]. }
  assert (N2 : ¬ has_nan (DataSet.itu data)) by (intros Hn; apply H2 in Hn; congruence).
  clear H2 E2.
  destruct (_ || _) eqn:E3 in |- *.
  { split; [split; [discriminate | intros (_ & _ & Hn & _); exfalso; apply Hn, H3; exact E3]|].
    intros key [= <-].
    eexists [("palmas", DataSet.palmas data); ("itu", DataSet.itu data)], (DataSet.ba data), _.
    split; [reflexivity|]. split; [apply H3; exact E3 | repeat constructor; assumption]. }
  assert (N3 : ¬ has_nan (DataSet.ba data)) by (intros Hn; apply H3 in Hn; congruence).
  clear H3 E3.
  destruct (_ || _) eqn:E4 in |- *.
  { split; [split; [discriminate | intros (_ & _ & _ & Hn); exfalso; apply Hn, H4; exact E4]|].
    intros key [= <-].
    exists [("palmas", DataSet.palmas data); ("itu", DataSet.itu data);
            ("ba", DataSet.ba data)], (DataSet.ram data), [].
    split; [reflexivity|]. split; [apply H4; exact E4 | repeat constructor; assumption]. }
  assert (N4 : ¬ has_nan (DataSet.ram data)) by (intros Hn; apply H4 in Hn; congruence).
  split; [tauto | discriminate].
Qed.

#[local] Open Scope Z_scope.

(** ** The generator and the grid *)

#[local] Open Scope string_scope.
#[local] Open Scope list_scope.

Section GeneratorFacts.
Variable random : nat → float.

(** A loop whose body appends, for each [x], sets with the base values
    [L x], appends those of all the [x] in turn. *)
Lemma for_of_appends {A : Type} (l : list A)
    (body : A → nat * list (gmap string value) → nat * list (gmap string value))
    (L : A → list (list value)) :
  (∀ x st, map base_values (snd (body x st)) = map base_values (snd st) ++ L x) →
  ∀ st, map base_values (snd (for_of l body st))
        = map base_values (snd st) ++ (x ← l; L x).
Proof.
  intros Hbody. unfold for_of. induction l as [|x l IH]; intros st; cbn [fold_left].
  - cbn. now rewrite app_nil_r.
  - rewrite IH, Hbody, <- app_assoc. reflexivity.
Qed.

Lemma prefix_append (p s : string) : String.prefix p (p +:+ s) = true.
Proof.
  induction p as [|c p IH]; [apply prefix_empty|].
  change (String c p +:+ s) with (String c (p +:+ s)). cbn [String.prefix].
  destruct (ascii_dec c c); [exact IH | congruence].
Qed.

(** The keys of the object [getWindCoefs] returns begin with [coef_]. *)
Lemma getWindCoefs_keys (ranges : Ranges.t) (calls : nat) (k : string) :
  String.prefix "coef_" k = false →
  fst (getWindCoefs random ranges calls) !! k = None.
Proof.
  intros Hk. unfold getWindCoefs, for_of.
  assert (Hgen : ∀ entries (st : gmap string value * nat),
            fst st !! k = None →
            fst (fold_left
                   (λ s x, (let '(dir, values) := x in
                            λ '(coefs, calls),
                              let randomValue :=
                                at_floor values
                                  (random calls * Number_of_length (length values))%float in
                              let coefs := <[coef_factor dir := randomValue]> coefs in
                              let coefs :=
                                <[coef_peso dir := VNum (0.3 + random (S calls) * 0.7)%float]>
                                  coefs in
                              (coefs, S (S calls))) s)
                   entries st) !! k = None).
  { induction entries as [|[dir values] entries IH]; intros [coefs n] Hst; [exact Hst|].
    cbn [fold_left]. apply IH. cbn [fst] in *.
    rewrite !lookup_insert_ne; [exact Hst | |].
    - unfold coef_factor. intros <-. rewrite prefix_append in Hk.
      discriminate Hk.
    - unfold coef_peso. intros <-. rewrite prefix_append in Hk.
      discriminate Hk. }
  apply Hgen. apply lookup_empty.
Qed.

Lemma length_bind_uniform {A B : Type} (l : list A) (f : A → list B) (k : nat) :
  (∀ x, length (f x) = k) → length (l ≫= f) = (length l * k)%nat.
Proof.
  intros Hf. induction l as [|x l IH]; [reflexivity|].
  rewrite bind_cons, length_app, Hf, IH. cbn [length]. lia.
Qed.

Lemma generator_grid (ranges : Ranges.t) :
  map base_values (generateParametersLazy random ranges) = combinations ranges
  ∧ length (generateParametersLazy random ranges) = grid_size ranges.
Proof.
  assert (Hbase : map base_values (generateParametersLazy random ranges)
                  = combinations ranges).
  { unfold generateParametersLazy, combinations.
    change (@nil (list value)) with (map base_values (snd (0%nat, @nil (gmap string value)))) at 1.
    erewrite for_of_appends; [reflexivity|]. intros pesoPalmas st1.
    apply for_of_appends. intros pesoItu st2.
    apply for_of_appends. intros pesoBa st3.
    apply for_of_appends. intros pesoVientos st4.
    apply for_of_appends. intros lagPalmas st5.
    apply for_of_appends. intros lagItu st6.
    apply for_of_appends. intros lagBa st7.
    apply for_of_appends. intros lagVientos st8.
    apply for_of_appends. intros factorViento st9.
    apply for_of_appends. intros offset [calls yielded].
    pose proof (getWindCoefs_keys ranges calls) as Hkeys.
    destruct (getWindCoefs random ranges calls) as [coefs calls'].
    cbn [snd fst] in *. rewrite map_app. f_equal. cbn [map]. f_equal.
    unfold base_values, base_columns, JS.get. cbn [map fmap list_fmap].
    repeat (rewrite (lookup_union_r coefs) by (apply Hkeys; reflexivity)).
    reflexivity. }
  split; [exact Hbase|].
  rewrite <- (length_map base_values), Hbase. unfold combinations, grid_size.
  do 9 (apply length_bind_uniform; intros ?).
  rewrite (length_bind_uniform _ _ 1%nat) by reflexivity. lia.
Qed.

(** The base values of the parameter sets are the combinations of the
    ranges, in the order of the nested loops, whatever [Math.random] returns;
    there are as many sets as combinations. *)
Theorem generateParametersLazy_enumerates_the_grid (ranges : Ranges.t) :
  map base_values (generateParametersLazy random ranges) = combinations ranges
  ∧ length (generateParametersLazy random ranges) = grid_size ranges.
Proof. apply generator_grid. Qed.

(** The grid of [CONFIG] has 1 080 000 parameter sets, which is 4 320 whole
    chunks: when every chunk is answered before the next turn of the loop,
    the loop ends after 4 321 turns with every set of the grid posted, in
    order, and counted in [totalProcessed], and with no chunk outstanding. *)
Theorem the_grid_of_CONFIG_is_processed_whole :
  let params := generateParametersLazy random CONFIG_ranges in
  let st := run CONFIG (answered_turns 4320 ++ [LoopTurn]) (initial CONFIG params) in
  Z.of_nat (length params) = 1080000
  ∧ isDone st = true
  ∧ outstanding st = []
  ∧ concat (dispatched st) = params
  ∧ totalProcessed st = Int 1080000.
Proof.
  intros params st.
  assert (Hlen : length params = (4320 * chunkSize CONFIG)%nat).
  { unfold params. rewrite (proj2 (generator_grid CONFIG_ranges)).
    apply Nat2Z.inj. unfold grid_size. cbn [CONFIG_ranges Ranges.pesos Ranges.lags
      Ranges.palmas Ranges.itu Ranges.ba Ranges.vientos Ranges.factorViento
      Ranges.offset length CONFIG chunkSize].
    rewrite !Nat2Z.inj_mul. reflexivity. }
  assert (Hz : Z.of_nat (length params) = 1080000).
  { rewrite Hlen, Nat2Z.inj_mul. reflexivity. }
  assert (Hn : (length params / chunkSize CONFIG)%nat = 4320%nat).
  { rewrite Hlen. apply Nat.div_mul. discriminate. }
  destruct (answered_run_ends CONFIG params) as (Hd & Ho & Hc & _ & Ht).
  - cbn. lia.
  - cbn. lia.
  - rewrite Hz. reflexivity.
  - rewrite Hn in Hd, Ho, Hc, Ht. fold st in Hd, Ho, Hc, Ht.
    split; [exact Hz|]. split; [exact Hd|]. split; [exact Ho|]. split.
    + rewrite Hc. apply take_ge. rewrite Hlen. apply Nat.le_refl.
    + rewrite Ht, <- Hlen, Hz. reflexivity.
Qed.

End GeneratorFacts.

#[local] Open Scope Z_scope.

#[local] Open Scope Z_scope.

(** ** Rounding, from the specification of the primitive floats *)

Lemma digits2_upper (p : positive) : Z.pos p < 2 ^ Z.pos (digits2_pos p).
Proof.
  induction p as [p IH | p IH |]; cbn [digits2_pos].
  - rewrite Pos2Z.inj_succ, Z.pow_succ_r by lia. lia.
  - rewrite Pos2Z.inj_succ, Z.pow_succ_r by lia. lia.
  - simpl. lia.
Qed.

Lemma digits2_unique (p : positive) (k : Z) :
  2 ^ (k - 1) <= Z.pos p < 2 ^ k → Z.pos (digits2_pos p) = k.
Proof.
  intros [Hl Hu]. pose proof (digits2_lower p) as Hl'. pose proof (digits2_upper p) as Hu'.
  assert (Hk : 0 < k).
  { destruct (Z.lt_ge_cases 0 k) as [|Hle]; [assumption|].
    assert (2 ^ k <= 2 ^ 0) by (destruct (Z.lt_ge_cases k 0);
      [rewrite Z.pow_neg_r by lia; cbn; lia | apply Z.pow_le_mono_r; lia]).
    cbn in *. lia. }
  destruct (Z.lt_trichotomy (Z.pos (digits2_pos p)) k) as [Hlt | [E | Hgt]]; [|exact E|].
  - assert (2 ^ Z.pos (digits2_pos p) <= 2 ^ (k - 1)) by (apply Z.pow_le_mono_r; lia). lia.
  - assert (2 ^ k <= 2 ^ (Z.pos (digits2_pos p) - 1)) by (apply Z.pow_le_mono_r; lia). lia.
Qed.

Lemma shr_1_m (mrs : shr_record) :
  0 <= shr_m mrs → shr_m (shr_1 mrs) = shr_m mrs / 2 ∧ 0 <= shr_m (shr_1 mrs).
Proof.
  destruct mrs as [m r s]. cbn [shr_m shr_1]. intros Hm.
  destruct m as [|[p|p|]|p]; cbn [shr_m]; try lia.
  - split; [reflexivity | lia].
  - split; [|lia]. change (Z.pos p~1) with (2 * Z.pos p + 1).
    apply Z.div_unique with 1; lia.
  - split; [|lia]. change (Z.pos p~0) with (2 * Z.pos p).
    apply Z.div_unique with 0; lia.
  - split; [reflexivity | lia].
Qed.

Lemma iter_pos_nat {A : Type} (f : A → A) (p : positive) (x : A) :
  SpecFloat.iter_pos f p x = Nat.iter (Pos.to_nat p) f x.
Proof.
  revert x. induction p as [p IH | p IH |]; intros x; cbn [SpecFloat.iter_pos].
  - rewrite !IH, <- Nat.iter_succ_r, <- Nat.iter_add. f_equal. lia.
  - rewrite !IH, <- Nat.iter_add. f_equal. lia.
  - reflexivity.
Qed.

Lemma shr_1_r (mrs : shr_record) :
  0 <= shr_m mrs → shr_r (shr_1 mrs) = Z.odd (shr_m mrs).
Proof.
  destruct mrs as [m r s]. cbn [shr_m shr_1]. intros Hm.
  destruct m as [|[p|p|]|p]; try reflexivity. lia.
Qed.

(** [k] bits of a mantissa shifted out: the mantissa left, and the last bit
    that went out. *)
Lemma shr_nat (M : Z) (k : nat) :
  0 <= M →
  let mrs := Nat.iter k shr_1 {| shr_m := M; shr_r := false; shr_s := false |} in
  shr_m mrs = M / 2 ^ Z.of_nat k ∧ 0 <= shr_m mrs
  ∧ ((0 < k)%nat → shr_r mrs = Z.odd (M / 2 ^ (Z.of_nat k - 1))).
Proof.
  intros HM. induction k as [|k IH].
  - cbn. rewrite Z.div_1_r. split; [reflexivity|]. split; [exact HM | lia].
  - cbn zeta in IH. destruct IH as (Em & Hm & _).
    rewrite Nat.iter_succ. cbn zeta.
    destruct (shr_1_m _ Hm) as [E1 H1].
    split; [|split; [exact H1|]].
    + rewrite E1, Em, Z.div_div by lia. f_equal.
      rewrite Nat2Z.inj_succ, Z.pow_succ_r by lia. lia.
    + intros _. rewrite (shr_1_r _ Hm), Em. f_equal. f_equal. f_equal. lia.
Qed.

Lemma shr_pos (mrs : shr_record) (e n : Z) :
  0 < n → shr mrs e n = (Nat.iter (Z.to_nat n) shr_1 mrs, e + n).
Proof.
  intros Hn. destruct n as [|p|p]; [lia | | lia]. unfold shr. now rewrite iter_pos_nat.
Qed.

(** Rounding to nearest adds one only when the last bit shifted out is
    set. *)
Lemma round_up_needs_half (mrs : shr_record) :
  round_nearest_even (shr_m mrs) (loc_of_shr_record mrs) = shr_m mrs
  ∨ (round_nearest_even (shr_m mrs) (loc_of_shr_record mrs) = shr_m mrs + 1
     ∧ shr_r mrs = true).
Proof.
  destruct mrs as [m [|] [|]]; cbn [shr_m shr_r loc_of_shr_record round_nearest_even]; auto.
  destruct (Z.even m); auto.
Qed.

(** Rounding a mantissa to binary64, below the largest exponents: the bits
    under the exponent of the result are cut, and one is added only when the
    first bit cut is set; the sign is kept. *)
Lemma binary_round_aux_nearest (s : bool) (M : positive) (E0 : Z) :
  let d := Z.pos (digits2_pos M) in
  let p := Z.max 0 (fexp prec emax (d + E0) - E0) in
  let Q := Z.pos M / 2 ^ p in
  d + E0 <= 1000 → E0 <= 971 →
  ∃ q',
    (q' = Q ∨ (q' = Q + 1 ∧ 1 <= p ∧ (2 * Q + 1) * 2 ^ (p - 1) <= Z.pos M))
    ∧ ((q' = 0 ∧ binary_round_aux prec emax s (Z.pos M) E0 loc_Exact = S754_zero s)
       ∨ (∃ m' e',
            binary_round_aux prec emax s (Z.pos M) E0 loc_Exact = S754_finite s m' e'
            ∧ ((e' = E0 + p ∧ Z.pos m' = q')
               ∨ (e' = E0 + p + 1 ∧ 2 * Z.pos m' = q' ∧ q' = 2 ^ 53)))).
Proof.
  intros d p Q Hd HE0.
  pose proof (digits2_lower M) as Hl. pose proof (digits2_upper M) as Hu. fold d in Hl, Hu.
  assert (Hfexp : ∀ k, fexp prec emax k = Z.max (k - 53) (-1074)) by reflexivity.
  assert (Hd0 : 0 < d) by (unfold d; lia).
  unfold binary_round_aux, shr_fexp. cbn [Zdigits2 shr_record_of_loc]. fold d.
  destruct (Z.le_gt_cases (fexp prec emax (d + E0) - E0) 0) as [Hp0 | Hp1].
  - (* nothing to cut *)
    assert (Ep : p = 0) by (unfold p; lia).
    assert (Eshr : ∀ mrs, shr mrs E0 (fexp prec emax (d + E0) - E0) = (mrs, E0)).
    { intros mrs. unfold shr. destruct (fexp prec emax (d + E0) - E0); [reflexivity | lia | reflexivity]. }
    rewrite Eshr. cbn [shr_m loc_of_shr_record round_nearest_even Zdigits2 shr_record_of_loc].
    fold d. rewrite Eshr. cbn [shr_m].
    destruct (Z.leb_spec E0 (emax - prec)) as [_|Hgt]; [|unfold emax, prec in Hgt; lia].
    exists (Z.pos M). split.
    + left. unfold Q. now rewrite Ep, Z.pow_0_r, Z.div_1_r.
    + right. exists M, E0. split; [reflexivity|]. left. split; [lia | reflexivity].
  - (* [p] bits are cut *)
    assert (Ep : fexp prec emax (d + E0) - E0 = p) by (unfold p; lia).
    rewrite Ep.
    assert (HE1 : -1074 <= E0 + p <= 947) by (rewrite <- Ep, Hfexp; lia).
    assert (Hpd : d - 53 <= p) by (rewrite <- Ep, Hfexp; lia).
    rewrite shr_pos by lia.
    destruct (shr_nat (Z.pos M) (Z.to_nat p)) as (Em & Hm & Hr); [lia|].
    cbn zeta in Em, Hm, Hr.
    rewrite Z2Nat.id in Em, Hr by lia. fold Q in Em.
    set (mrs := Nat.iter (Z.to_nat p) shr_1
                  {| shr_m := Z.pos M; shr_r := false; shr_s := false |}) in *.
    assert (HQ : 0 <= Q < 2 ^ 53).
    { split; [lia|]. unfold Q. apply Z.div_lt_upper_bound; [apply Z.pow_pos_nonneg; lia|].
      apply Z.lt_le_trans with (2 ^ d); [exact Hu|].
      rewrite <- Z.pow_add_r by lia. apply Z.pow_le_mono_r; lia. }
    set (q' := round_nearest_even (shr_m mrs) (loc_of_shr_record mrs)).
    assert (Hq' : q' = Q ∨ (q' = Q + 1 ∧ 1 <= p ∧ (2 * Q + 1) * 2 ^ (p - 1) <= Z.pos M)).
    { destruct (round_up_needs_half mrs) as [E | [E Hbit]]; fold q' in E; rewrite Em in E.
      - now left.
      - right. split; [exact E|]. split; [lia|].
        rewrite Hr in Hbit by lia.
        assert (Ehalf : Z.pos M / 2 ^ (p - 1) = 2 * Q + 1).
        { assert (EQ : Q = Z.pos M / 2 ^ (p - 1) / 2).
          { unfold Q. rewrite Z.div_div by (try apply Z.pow_pos_nonneg; lia).
            f_equal. replace p with ((p - 1) + 1) at 1 by lia.
            now rewrite Z.pow_add_r by lia. }
          rewrite EQ. rewrite (Z.div_mod (Z.pos M / 2 ^ (p - 1)) 2) at 1 by lia.
          rewrite Zmod_odd, Hbit. reflexivity. }
        rewrite <- Ehalf, Z.mul_comm. apply Z.mul_div_le. apply Z.pow_pos_nonneg; lia. }
    exists q'. split; [exact Hq'|].
    assert (Hq0 : 0 <= q' <= 2 ^ 53) by (destruct Hq' as [-> | [-> _]]; lia).
    destruct q' as [|pq|pq] eqn:Eq'; [| |lia].
    + (* the result is a zero *)
      left. split; [reflexivity|]. cbn [Zdigits2 shr_record_of_loc].
      assert (En : fexp prec emax (0 + (E0 + p)) - (E0 + p) <= 0) by (rewrite Hfexp; lia).
      unfold shr. destruct (fexp prec emax (0 + (E0 + p)) - (E0 + p)); [reflexivity | lia | reflexivity].
    + right. cbn [Zdigits2 shr_record_of_loc].
      destruct (Z.eq_dec (Z.pos pq) (2 ^ 53)) as [Etop | Hlow].
      * (* the mantissa rounds up to [2^53]: one more bit is cut *)
        assert (Hdq : Z.pos (digits2_pos pq) = 54).
        { apply digits2_unique. rewrite Etop. split; [apply Z.pow_le_mono_r; lia|].
          apply Z.pow_lt_mono_r; lia. }
        assert (Hnormal : p = d - 53).
        { destruct Hq' as [E | (E & _ & _)]; [lia|].
          (* [Q + 1 = 2^53] leaves [Q] with 53 bits *)
          destruct (Z.eq_dec p (d - 53)) as [|Hne]; [assumption|]. exfalso.
          assert (Q < 2 ^ 52); [|lia].
          unfold Q. apply Z.div_lt_upper_bound; [apply Z.pow_pos_nonneg; lia|].
          apply Z.lt_le_trans with (2 ^ d); [exact Hu|].
          rewrite <- Z.pow_add_r by lia. apply Z.pow_le_mono_r; lia. }
        rewrite Hdq, Hfexp.
        replace (Z.max (54 + (E0 + p) - 53) (-1074) - (E0 + p)) with 1 by lia.
        assert (Epq : pq = (4503599627370496~0)%positive) by (apply Pos2Z.inj; rewrite Etop; reflexivity).
        rewrite Epq. cbn [shr SpecFloat.iter_pos shr_1 shr_m].
        destruct (Z.leb_spec (E0 + p + 1) (emax - prec)) as [_|Hgt];
          [|unfold emax, prec in Hgt; lia].
        exists 4503599627370496%positive, (E0 + p + 1).
        split; [reflexivity|]. right. split; [reflexivity|]. split; reflexivity.
      * assert (Hdq : Z.pos (digits2_pos pq) <= 53).
        { destruct (Z.le_gt_cases (Z.pos (digits2_pos pq)) 53) as [|Hgt]; [assumption|].
          pose proof (digits2_lower pq) as Hlq.
          assert (2 ^ 53 <= 2 ^ (Z.pos (digits2_pos pq) - 1)) by (apply Z.pow_le_mono_r; lia).
          lia. }
        assert (En : fexp prec emax (Z.pos (digits2_pos pq) + (E0 + p)) - (E0 + p) <= 0)
          by (rewrite Hfexp; lia).
        assert (Eshr : ∀ x, shr x (E0 + p)
                              (fexp prec emax (Z.pos (digits2_pos pq) + (E0 + p)) - (E0 + p))
                            = (x, E0 + p)).
        { intros x. unfold shr.
          destruct (fexp prec emax (Z.pos (digits2_pos pq) + (E0 + p)) - (E0 + p));
            [reflexivity | lia | reflexivity]. }
        rewrite Eshr. cbn [shr_m].
        destruct (Z.leb_spec (E0 + p) (emax - prec)) as [_|Hgt];
          [|unfold emax, prec in Hgt; lia].
        exists pq, (E0 + p). split; [reflexivity|]. left. split; reflexivity.
Qed.

(** *** Integers in binary64: products and differences without rounding *)

Lemma holds_nonzero (s : bool) (m : positive) (e : Z) (z : Z) :
  holds (S754_finite s m e) z →
  z ≠ 0 ∧ Z.pos m = Z.abs z * 2 ^ (- e) ∧ s = (z <? 0).
Proof.
  intros [He Hm]. assert (H2 : 0 < 2 ^ (- e)) by (apply Z.pow_pos_nonneg; lia).
  destruct s; cbn [cond_Zopp] in Hm.
  - assert (z < 0) by nia. split; [lia|]. split; [nia|]. symmetry. now apply Z.ltb_lt.
  - assert (0 < z) by nia. split; [lia|]. split; [nia|]. symmetry. apply Z.ltb_ge. lia.
Qed.

(** A mantissa that is an integer below [2^53] shifted left rounds to that
    integer. *)
Lemma binary_round_aux_holds (s : bool) (M : positive) (K a : Z) :
  0 <= K <= 1074 → 0 < a < 2 ^ 53 → Z.pos M = a * 2 ^ K →
  holds (binary_round_aux prec emax s (Z.pos M) (- K) loc_Exact) (cond_Zopp s a).
Proof.
  intros HK Ha HM.
  pose proof (digits2_lower M) as Hl. pose proof (digits2_upper M) as Hu.
  set (d := Z.pos (digits2_pos M)) in *.
  assert (H2K : 0 < 2 ^ K) by (apply Z.pow_pos_nonneg; lia).
  assert (Hd : 0 < d <= 53 + K).
  { split; [unfold d; lia|].
    destruct (Z.le_gt_cases d (53 + K)) as [|Hgt]; [assumption|].
    assert (2 ^ (53 + K) <= 2 ^ (d - 1)) by (apply Z.pow_le_mono_r; lia).
    rewrite Z.pow_add_r in * by lia. nia. }
  destruct (binary_round_aux_nearest s M (- K)) as (q' & Hq' & Hres); fold d; [lia | lia |].
  fold d in Hq', Hres.
  assert (Ep : Z.max 0 (fexp prec emax (d + - K) - - K) = Z.max 0 (Z.max (d - 53) (-1074 + K))).
  { change (fexp prec emax (d + - K)) with (Z.max (d + - K - 53) (-1074)). lia. }
  rewrite Ep in Hq', Hres. set (p := Z.max 0 (Z.max (d - 53) (-1074 + K))) in *.
  assert (Hp : 0 <= p <= K) by (unfold p; lia).
  assert (H2p : 0 < 2 ^ p) by (apply Z.pow_pos_nonneg; lia).
  assert (EM : Z.pos M = a * 2 ^ (K - p) * 2 ^ p).
  { rewrite HM, <- Z.mul_assoc, <- Z.pow_add_r by lia. do 2 f_equal. lia. }
  assert (EQ : Z.pos M / 2 ^ p = a * 2 ^ (K - p)).
  { rewrite EM. apply Z.div_mul. lia. }
  rewrite EQ in Hq'.
  assert (H2Kp : 0 < 2 ^ (K - p)) by (apply Z.pow_pos_nonneg; lia).
  assert (Eq' : q' = a * 2 ^ (K - p)).
  { destruct Hq' as [E | (_ & Hp1 & Hhalf)]; [exact E|]. exfalso.
    rewrite EM in Hhalf. replace (2 ^ p) with (2 * 2 ^ (p - 1)) in Hhalf.
    - assert (0 < 2 ^ (p - 1)) by (apply Z.pow_pos_nonneg; lia). nia.
    - replace p with (1 + (p - 1)) at 2 by lia. now rewrite Z.pow_add_r by lia. }
  assert (Hq53 : q' < 2 ^ 53).
  { rewrite Eq'. apply Z.mul_lt_mono_pos_r with (2 ^ p); [exact H2p|].
    rewrite <- EM. apply Z.lt_le_trans with (2 ^ d); [exact Hu|].
    rewrite <- Z.pow_add_r by lia. apply Z.pow_le_mono_r; unfold p in *; lia. }
  destruct Hres as [[E0 _] | (m' & e' & -> & Hcase)]; [nia|].
  destruct Hcase as [[-> Hm'] | (_ & _ & Etop)]; [|lia].
  assert (K - p <= 52).
  { destruct (Z.le_gt_cases (K - p) 52) as [|Hgt]; [assumption|].
    assert (2 ^ 53 <= 2 ^ (K - p)) by (apply Z.pow_le_mono_r; lia). nia. }
  cbn [holds]. split; [lia|].
  replace (- (- K + p)) with (K - p) by lia. rewrite Hm', Eq'.
  destruct s; cbn [cond_Zopp]; lia.
Qed.

Lemma shl_align_spec (m : positive) (e e' : Z) :
  ∃ j m', shl_align m e e' = (m', e - j)
          ∧ j = Z.max 0 (e - e') ∧ Z.pos m' = Z.pos m * 2 ^ j.
Proof.
  unfold shl_align. destruct (e' - e) as [|k|k] eqn:E.
  - exists 0, m. split; [f_equal; lia|]. split; lia.
  - exists 0, m. split; [f_equal; lia|]. split; lia.
  - exists (Z.pos k), (Pos.iter xO m k). split; [f_equal; lia|]. split; [lia|].
    apply pos_iter_xO.
Qed.

Lemma binary_round_holds (s : bool) (M : positive) (K a : Z) :
  0 <= K <= 1074 → 0 < a < 2 ^ 53 → Z.pos M = a * 2 ^ K →
  holds (binary_round prec emax s M (- K)) (cond_Zopp s a).
Proof.
  intros HK Ha HM. unfold binary_round.
  destruct (shl_align_spec M (- K) (fexp prec emax (Z.pos (digits2_pos M) + - K)))
    as (j & m' & -> & Ej & Hm).
  assert (Hfexp : -1074 <= fexp prec emax (Z.pos (digits2_pos M) + - K)).
  { change (fexp prec emax (Z.pos (digits2_pos M) + - K))
      with (Z.max (Z.pos (digits2_pos M) + - K - 53) (-1074)). lia. }
  replace (- K - j) with (- (K + j)) by lia.
  apply binary_round_aux_holds; [lia | exact Ha|].
  rewrite Hm, HM, Z.pow_add_r by lia. ring.
Qed.

Lemma binary_normalize_holds (D K z : Z) :
  0 <= K <= 1074 → Z.abs z < 2 ^ 53 → D = z * 2 ^ K →
  holds (binary_normalize prec emax D (- K) false) z.
Proof.
  intros HK Hz HD. assert (H2K : 0 < 2 ^ K) by (apply Z.pow_pos_nonneg; lia).
  unfold binary_normalize. destruct D as [|M|M].
  - cbn [holds]. nia.
  - replace z with (cond_Zopp false (Z.abs z)) by (cbn [cond_Zopp]; nia).
    apply binary_round_holds; [exact HK | nia | nia].
  - replace z with (cond_Zopp true (Z.abs z)) by (cbn [cond_Zopp]; nia).
    apply binary_round_holds; [exact HK | nia | nia].
Qed.

Lemma mul_holds (x y : spec_float) (a b : Z) :
  holds x a → holds y b → Z.abs (a * b) < 2 ^ 53 →
  holds (SFmul prec emax x y) (a * b).
Proof.
  intros Hx Hy Hab.
  destruct x as [sx|sx| |sx mx ex], y as [sy|sy| |sy my ey]; cbn [holds] in *;
    try contradiction; cbn [SFmul holds]; try (subst; lia).
  destruct (holds_nonzero _ _ _ _ Hx) as (Ha0 & Ema & ->).
  destruct (holds_nonzero _ _ _ _ Hy) as (Hb0 & Emb & ->).
  destruct Hx as [Hex _], Hy as [Hey _].
  replace (ex + ey) with (- (- ex + - ey)) by lia.
  replace (a * b) with (cond_Zopp (xorb (a <? 0) (b <? 0)) (Z.abs (a * b))).
  - apply binary_round_aux_holds; [lia | nia|].
    rewrite Pos2Z.inj_mul, Ema, Emb, Z.pow_add_r, Z.abs_mul by lia. ring.
  - destruct (Z.ltb_spec a 0), (Z.ltb_spec b 0); cbn [xorb cond_Zopp]; nia.
Qed.

Lemma sub_holds (x y : spec_float) (a b : Z) :
  holds x a → holds y b → Z.abs (a - b) < 2 ^ 53 →
  holds (SFsub prec emax x y) (a - b).
Proof.
  intros Hx Hy Hab.
  destruct x as [sx|sx| |sx mx ex], y as [sy|sy| |sy my ey]; cbn [holds] in *;
    try contradiction; cbn [SFsub].
  - subst. destruct sx, sy; cbn [holds]; lia.
  - subst. cbn [holds]. destruct Hy as [He Hm]. split; [exact He|].
    destruct sy; cbn [negb cond_Zopp] in *; lia.
  - subst. cbn [holds]. destruct Hx as [He Hm]. split; [exact He|].
    rewrite Hm. f_equal. lia.
  - destruct Hx as [Hex Hma], Hy as [Hey Hmb].
    change (IntDef.Z.min ex ey) with (Z.min ex ey).
    destruct (shl_align_spec mx ex (Z.min ex ey)) as (j1 & m1 & -> & Ej1 & E1).
    destruct (shl_align_spec my ey (Z.min ex ey)) as (j2 & m2 & -> & Ej2 & E2).
    cbn [fst].
    assert (H1 : cond_Zopp sx (Z.pos m1) = a * 2 ^ (- Z.min ex ey)).
    { rewrite E1. replace (- Z.min ex ey) with (- ex + j1) by lia.
      rewrite Z.pow_add_r by lia. destruct sx; cbn [cond_Zopp] in *; nia. }
    assert (H2 : cond_Zopp sy (Z.pos m2) = b * 2 ^ (- Z.min ex ey)).
    { rewrite E2. replace (- Z.min ex ey) with (- ey + j2) by lia.
      rewrite Z.pow_add_r by lia. destruct sy; cbn [cond_Zopp] in *; nia. }
    rewrite H1, H2. replace (Z.min ex ey) with (- - Z.min ex ey) at 3 by lia.
    apply binary_normalize_holds; [lia | exact Hab | ring].
Qed.

(** *** The lagged date of the worker's model *)

Lemma binary64_of_holds (t : Z) : Z.abs t < 2 ^ 53 → holds (binary64_of (Int t)) t.
Proof. intros Ht. cbn [binary64_of]. apply (binary_normalize_holds t 0 t); lia. Qed.

Lemma truncate_holds (x : spec_float) (z : Z) : holds x z → truncate x = Int z.
Proof.
  destruct x as [s|s| |s m e]; cbn [holds truncate]; try tauto.
  - now intros ->.
  - intros Hx. destruct (holds_nonzero s m e z Hx) as (Hz & Hm & ->).
    destruct Hx as [He _]. f_equal.
    replace (Z.shiftl (Z.pos m) e) with (Z.abs z).
    + destruct (Z.ltb_spec z 0); cbn [cond_Zopp]; lia.
    + assert (Hs : Z.shiftl (Z.pos m) e = Z.pos m / 2 ^ (- e))
        by (rewrite <- Z.shiftl_div_pow2 by lia; f_equal; lia).
      rewrite Hs, Hm. symmetry. apply Z.div_mul.
      apply Z.pow_nonzero; lia.
Qed.

(** A Number that is a whole number of at most a million is held without
    an exponent above 0. *)
Lemma integral_of_holds (f : float) (h : Z) :
  integral_of f = Some h → lag_in_range h → holds (Prim2SF f) h.
Proof.
  unfold integral_of, lag_in_range. pose proof (Prim2SF_valid f) as Hv.
  destruct (Prim2SF f) as [s|s| |s m e]; try discriminate.
  - now intros [= <-].
  - unfold SpecFloat.valid_binary, bounded, canonical_mantissa, fexp in Hv.
    apply andb_prop in Hv. destruct Hv as [Hc _]. apply Z.eqb_eq in Hc.
    pose proof (digits2_lower m) as Hlo. pose proof (digits2_upper m) as Hup.
    change (SpecFloat.emin prec emax) with (-1074) in Hc. change prec with 53 in Hc.
    set (d := Z.pos (digits2_pos m)) in *.
    assert (Hd : 0 < d) by (unfold d; lia).
    destruct (Z.leb_spec 0 e) as [He|He].
    + intros [= <-] Hh. rewrite Z.shiftl_mul_pow2 in Hh by lia.
      assert (Ecase : e = 0 ∨ 0 < e) by lia. destruct Ecase as [-> | Hpos].
      * cbn [holds]. split; [lia|]. rewrite Z.shiftl_mul_pow2 by lia.
        change (2 ^ 0) with 1. change (2 ^ (- 0)) with 1.
        destruct s; cbn [cond_Zopp]; lia.
      * exfalso. assert (d = 53) by lia.
        assert (2 ^ 52 <= Z.pos m) by (replace 52 with (d - 1) by lia; exact Hlo).
        assert (1 <= 2 ^ e) by (apply (Z.pow_le_mono_r 2 0 e); lia).
        assert (Z.abs (cond_Zopp s (Z.pos m * 2 ^ e)) = Z.pos m * 2 ^ e)
          by (destruct s; cbn [cond_Zopp]; lia).
        assert (2 ^ 52 = 4503599627370496) by reflexivity. nia.
    + destruct (Z.eqb_spec (Z.pos m mod 2 ^ (- e)) 0) as [Hmod|]; [|discriminate].
      intros [= <-] Hh. rewrite Z.shiftr_div_pow2 in * by lia.
      assert (H2 : 0 < 2 ^ (- e)) by (apply Z.pow_pos_nonneg; lia).
      assert (Hm : Z.pos m = Z.pos m / 2 ^ (- e) * 2 ^ (- e)).
      { pose proof (Z.div_mod (Z.pos m) (2 ^ (- e))). lia. }
      assert (Hq : 0 < Z.pos m / 2 ^ (- e)) by nia.
      assert (He52 : -52 <= e).
      { destruct (Z.max_spec (d + e - 53) (-1074)) as [[_ Hmax] | [_ Hmax]];
          rewrite Hmax in Hc.
        - exfalso. assert (2 ^ 53 <= 2 ^ (- e)) by (apply Z.pow_le_mono_r; lia).
          assert (Z.pos m < 2 ^ 53).
          { eapply Z.lt_le_trans; [exact Hup|]. apply Z.pow_le_mono_r; lia. }
          nia.
        - assert (d = 53) by lia.
          destruct (Z.le_gt_cases (-52) e) as [|Hlt]; [assumption|]. exfalso.
          assert (2 ^ 53 <= 2 ^ (- e)) by (apply Z.pow_le_mono_r; lia).
          assert (Z.pos m < 2 ^ 53) by (replace 53 with d by lia; exact Hup).
          nia. }
      cbn [holds]. split; [lia|].
      destruct s; cbn [cond_Zopp]; lia.
Qed.

Section DynFacts.
Context `{Runtime}.

(** The lagged date for a whole lag, at a time in range: the arithmetic is
    exact, and the date is the one [h] hours before. *)
Lemma laggedDate_in_range (t : Z) (f : float) (h : Z) :
  in_range t → integral_of f = Some h → lag_in_range h →
  Dyn.laggedDate (Int t) f = mkDate (Int (t - h * 3600000)).
Proof.
  intros Ht Hf Hh. unfold Dyn.laggedDate. rewrite !mul_spec. unfold SF64mul.
  pose proof (integral_of_holds f h Hf Hh) as H1.
  unfold in_range in Ht. unfold lag_in_range in Hh.
  assert (H3600 : holds (Prim2SF 3600) 3600) by (vm_compute; split; [split; discriminate | reflexivity]).
  assert (H1000 : holds (Prim2SF 1000) 1000) by (vm_compute; split; [split; discriminate | reflexivity]).
  assert (E52 : 2 ^ 52 = 4503599627370496) by reflexivity.
  assert (E53 : 2 ^ 53 = 9007199254740992) by reflexivity.
  pose proof (mul_holds _ _ _ _ H1 H3600 ltac:(lia)) as H2.
  pose proof (mul_holds _ _ _ _ H2 H1000 ltac:(lia)) as H3.
  pose proof (binary64_of_holds t ltac:(lia)) as H4.
  pose proof (sub_holds _ _ _ _ H4 H3 ltac:(lia)) as H5.
  rewrite (truncate_holds _ _ H5).
  replace (h * 3600 * 1000) with (h * 3600000) by lia.
  unfold new_Date. f_equal.
  apply (lagged_time_exact t h); [exact Ht | exact Hh].
Qed.

Lemma dyn_calculateComponent_in_range (m : Dyn.t) (source : string)
    (targetPoint : Pt.t) (data : list Pt.t) (t h : Z) :
  at_time targetPoint t → integral_of (Dyn.lag_hours m source) = Some h → lag_in_range h →
  Dyn.calculateComponent m source targetPoint data
    = Return (findClosestValue data (mkDate (Int (t - h * 3600000)))
              * Dyn.weight_of m source)%float.
Proof.
  intros [Hx Ht] Hlag Hh. unfold Dyn.calculateComponent.
  rewrite Hx. cbn [getTime].
  rewrite (laggedDate_in_range t _ h Ht Hlag Hh). reflexivity.
Qed.

(** On a whole lag, the method of the worker's model computes what
    [calculateComponent] of [RiverModel] does. *)
Lemma dyn_calculateComponent_agrees (dm : Dyn.t) (m : RiverModel) (source : string)
    (targetPoint : Pt.t) (data : list Pt.t) (t h : Z) :
  at_time targetPoint t → lag_in_range h →
  integral_of (Dyn.lag_hours dm source) = Some h → lags m !! source = Some h →
  Dyn.weight_of dm source = weight_of m source →
  Dyn.calculateComponent dm source targetPoint data
  = calculateComponent m source targetPoint data.
Proof.
  intros Hp Hh Hd Hm Hw.
  rewrite (dyn_calculateComponent_in_range dm source targetPoint data t h Hp Hd Hh).
  rewrite (calculateComponent_in_range m source targetPoint data t h Hp Hm Hh).
  now rewrite Hw.
Qed.







End DynFacts.

(** ** The worker *)

#[local] Open Scope string_scope.
#[local] Open Scope list_scope.

Section WorkerFacts.
Context `{Runtime}.





(** *** Every parameter set gets its row when the data are well formed *)




End WorkerFacts.


(** The worker keeps a parameter set whose lag is half an hour: the lagged
    date is a valid one, and the set gets its row. *)
Lemma half_hour_lag_is_kept :
  @process_all example_runtime example_trainData [half_hour_params; example_params]
  = [result_row 0 half_hour_params; result_row 0 example_params].
Proof. vm_compute. reflexivity. Qed.

#[local] Open Scope Z_scope.

(** ** The partial files, by name *)

#[local] Open Scope string_scope.
#[local] Open Scope list_scope.

(** *** Decimal numerals *)

Lemma string_of_uint_digits (d : Decimal.uint) :
  List.Forall (λ c, is_digit c = true) (list_ascii_of_string (NilEmpty.string_of_uint d)).
Proof. induction d; cbn; constructor; (reflexivity || assumption). Qed.

Lemma decimal_digits (n : nat) :
  List.Forall (λ c, is_digit c = true) (list_ascii_of_string (decimal n)).
Proof.
  unfold decimal, NilZero.string_of_uint.
  destruct (Nat.to_uint n) eqn:E; try (rewrite <- E; apply string_of_uint_digits).
  repeat constructor.
Qed.

Lemma decimal_nonempty (n : nat) : decimal n ≠ "".
Proof.
  unfold decimal, NilZero.string_of_uint. destruct (Nat.to_uint n); discriminate.
Qed.

Lemma digits_value (d : Decimal.uint) (a : nat) :
  fold_left (λ acc c, 10 * acc + (Z.of_N (N_of_ascii c) - 48))%Z
            (list_ascii_of_string (NilEmpty.string_of_uint d)) (Z.of_nat a)
  = Z.of_nat (Nat.of_uint_acc d a).
Proof.
  revert a. induction d; intros a; cbn [NilEmpty.string_of_uint list_ascii_of_string
                                        fold_left Nat.of_uint_acc];
    [reflexivity | ..];
    rewrite <- IHd; f_equal; rewrite Nat.tail_mul_spec; cbn; lia.
Qed.

(** Reading the decimal numeral of [n] gives [n] back. *)
Lemma Z_of_digits_decimal (n : nat) : Z_of_digits (decimal n) = Z.of_nat n.
Proof.
  unfold Z_of_digits, decimal, NilZero.string_of_uint.
  rewrite <- (DecimalNat.Unsigned.of_to n) at 2. unfold Nat.of_uint.
  destruct (Nat.to_uint n) eqn:E; try (rewrite <- E; apply (digits_value _ 0)).
  reflexivity.
Qed.

Lemma parseInt_decimal (n : nat) :
  (Z.of_nat n < 2 ^ 53)%Z → parseInt (decimal n) = Int (Z.of_nat n).
Proof.
  intros Hn. unfold parseInt. pose proof (decimal_nonempty n) as Hne.
  destruct (decimal n) eqn:E; [congruence|]. rewrite <- E, Z_of_digits_decimal.
  apply Number_of_Z_exact. lia.
Qed.

(** *** The number in a file name *)

Lemma leading_digits_app (s after : string) :
  List.Forall (λ c, is_digit c = true) (list_ascii_of_string s) →
  leading_digits (s +:+ String "." after) = (s, String "." after).
Proof.
  induction s as [|c s IH]; intros Hs; [reflexivity|].
  inversion Hs as [|? ? Hc Hs']; subst.
  change (String c s +:+ String "." after) with (String c (s +:+ String "." after)).
  cbn [leading_digits]. rewrite Hc, (IH Hs'). reflexivity.
Qed.

Lemma match_results_file_name (n : nat) : match_results (file_name n) = Some (decimal n).
Proof.
  unfold file_name.
  assert (E : match_here ("results_" +:+ decimal n +:+ ".csv") = Some (decimal n)).
  { unfold match_here. rewrite prefix_append.
    change (string_drop 8 ("results_" +:+ decimal n +:+ ".csv"))
      with (decimal n +:+ String "." "csv").
    rewrite (leading_digits_app _ _ (decimal_digits n)).
    pose proof (decimal_nonempty n) as Hne.
    destruct (String.eqb_spec (decimal n) ""); [congruence | reflexivity]. }
  change ("results_" +:+ decimal n +:+ ".csv")
    with (String "r" ("esults_" +:+ decimal n +:+ ".csv")) in *.
  cbn [match_results]. now rewrite E.
Qed.

Lemma file_number_file_name (n : nat) :
  (Z.of_nat n < 2 ^ 53)%Z → file_number (file_name n) = Return (Int (Z.of_nat n)).
Proof.
  intros Hn. unfold file_number. now rewrite match_results_file_name, parseInt_decimal.
Qed.

Lemma reverse_string_app (a b : string) :
  reverse_string (a +:+ b) = reverse_string b +:+ reverse_string a.
Proof.
  unfold reverse_string. rewrite list_ascii_of_string_app, rev_app_distr.
  generalize (rev (list_ascii_of_string b)) as l, (rev (list_ascii_of_string a)) as k.
  induction l as [|c l IH]; intros k; [reflexivity|].
  cbn [app string_of_list_ascii].
  change (String c (string_of_list_ascii l) +:+ string_of_list_ascii k)
    with (String c (string_of_list_ascii l +:+ string_of_list_ascii k)).
  now rewrite IH.
Qed.

Lemma file_name_is_partial (n : nat) :
  startsWith "results_" (file_name n) && endsWith ".csv" (file_name n) = true.
Proof.
  unfold startsWith, endsWith, file_name. rewrite prefix_append. cbn [andb].
  rewrite !reverse_string_app. rewrite append_assoc. apply prefix_append.
Qed.

(** *** The order of the files *)

Lemma insert_name_file_names (b : nat) (sorted : list nat) :
  (Z.of_nat b < 2 ^ 53)%Z → List.Forall (λ n, Z.of_nat n < 2 ^ 53)%Z sorted →
  insert_name (file_name b) (map file_name sorted)
  = Return (map file_name (insert_number b sorted)).
Proof.
  intros Hb. induction 1 as [|a rest Ha Hrest IH]; [reflexivity|].
  cbn [map insert_name insert_number]. unfold compare_names.
  rewrite (file_number_file_name a Ha), (file_number_file_name b Hb).
  cbn [mbind outcome_bind]. rewrite sub_exact by lia. cbn [Num.ltb].
  destruct (Nat.ltb_spec b a) as [Hlt | Hge].
  - destruct (Z.ltb_spec 0 (Z.of_nat a - Z.of_nat b)); [reflexivity | lia].
  - destruct (Z.ltb_spec 0 (Z.of_nat a - Z.of_nat b)); [lia|].
    rewrite IH. reflexivity.
Qed.

Lemma insert_number_perm (b : nat) (sorted : list nat) :
  Permutation (insert_number b sorted) (b :: sorted).
Proof.
  induction sorted as [|a rest IH]; cbn [insert_number]; [reflexivity|].
  destruct (b <? a)%nat; [reflexivity|].
  rewrite IH. apply perm_swap.
Qed.

Lemma insert_number_sorted (b : nat) (sorted : list nat) :
  Sorted le sorted → Sorted le (insert_number b sorted).
Proof.
  induction 1 as [|a rest Hrest IH Hhd]; cbn [insert_number].
  - repeat constructor.
  - destruct (Nat.ltb_spec b a) as [Hlt | Hge].
    + constructor; [now constructor|]. constructor. lia.
    + constructor; [exact IH|].
      destruct rest as [|c rest]; cbn [insert_number]; [constructor; exact Hge|].
      inversion Hhd; subst. destruct (b <? c)%nat; constructor; assumption.
Qed.

Lemma insert_number_bound (b : nat) (sorted : list nat) :
  (Z.of_nat b < 2 ^ 53)%Z → List.Forall (λ n, Z.of_nat n < 2 ^ 53)%Z sorted →
  List.Forall (λ n, Z.of_nat n < 2 ^ 53)%Z (insert_number b sorted).
Proof.
  intros Hb Hall. rewrite List.Forall_forall in *. intros n Hin.
  apply (Permutation_in _ (insert_number_perm b sorted)) in Hin.
  destruct Hin as [<- | Hin]; auto.
Qed.

(** Given the names of the partial files a sink has written, in any order,
    the merger reads them in the order of their numbers: [results_2.csv]
    before [results_10.csv]. *)
Theorem partial_files_are_read_in_numeric_order (numbers : list nat) :
  List.Forall (λ n, Z.of_nat n < 2 ^ 53)%Z numbers →
  ∃ sorted,
    Permutation sorted numbers
    ∧ Sorted le sorted
    ∧ partial_files (map file_name numbers) = Return (map file_name sorted).
Proof.
  intros Hall. unfold partial_files.
  assert (Hfilter : filter (λ f, startsWith "results_" f && endsWith ".csv" f)
                      (map file_name numbers) = map file_name numbers).
  { clear Hall. induction numbers as [|n numbers IH]; [reflexivity|].
    cbn [map]. rewrite filter_cons, decide_True by (rewrite file_name_is_partial; exact I).
    now rewrite IH. }
  rewrite Hfilter. clear Hfilter. unfold sort_names.
  assert (Hgen : ∀ acc, List.Forall (λ n, Z.of_nat n < 2 ^ 53)%Z acc → Sorted le acc →
            ∃ sorted, Permutation sorted (numbers ++ acc) ∧ Sorted le sorted
              ∧ fold_left (λ sorted b, sorted ← sorted; insert_name b sorted)
                  (map file_name numbers) (Return (map file_name acc))
                = Return (map file_name sorted)).
  { induction Hall as [|n numbers Hn Hall IH]; intros acc Hacc Hsorted.
    - exists acc. auto.
    - cbn [map fold_left mbind outcome_bind].
      rewrite (insert_name_file_names n acc Hn Hacc).
      destruct (IH (insert_number n acc)) as (sorted & Hperm & Hs & Hfold).
      + now apply insert_number_bound.
      + now apply insert_number_sorted.
      + exists sorted. split; [|auto].
        rewrite Hperm, insert_number_perm. cbn. symmetry. apply Permutation_middle. }
  destruct (Hgen []) as (sorted & Hperm & Hs & Hfold); [constructor | constructor|].
  exists sorted. rewrite app_nil_r in Hperm. auto.
Qed.

Lemma partial_files_are_read_in_numeric_order_witness :
  ∃ sorted,
    Permutation sorted [1; 10; 2]%nat
    ∧ Sorted le sorted
    ∧ partial_files (map file_name [1; 10; 2]%nat) = Return (map file_name sorted).
Proof.
  apply (partial_files_are_read_in_numeric_order [1; 10; 2]%nat).
  repeat constructor.
Defined.

(** *** A name with no number *)

Lemma sort_thrown (names : list string) (e : error) :
  fold_left (λ sorted b, sorted ← sorted; insert_name b sorted) names (Throw e) = Throw e.
Proof. induction names as [|b names IH]; [reflexivity | exact IH]. Qed.

Lemma insert_name_numbered (b : string) (sorted : list string) :
  sorted ≠ [] → List.Forall (λ a, match_results a ≠ None) sorted →
  match insert_name b sorted with
  | Throw e => e = TypeError ∧ match_results b = None
  | Return sorted' =>
      match_results b ≠ None ∧ sorted' ≠ []
      ∧ List.Forall (λ a, match_results a ≠ None) sorted'
  end.
Proof.
  intros Hne Hall. induction Hall as [|a rest Ha Hrest IH]; [congruence|].
  cbn [insert_name]. unfold compare_names, file_number.
  destruct (match_results a) as [da|] eqn:Ea; [|congruence].
  destruct (match_results b) as [db|] eqn:Eb; cbn [mbind outcome_bind]; [|auto].
  destruct (Num.ltb _ _).
  - split; [discriminate|]. split; [discriminate|].
    constructor; [congruence|]. constructor; [congruence | exact Hrest].
  - destruct rest as [|c rest].
    + cbn [insert_name mbind outcome_bind]. split; [discriminate|]. split; [discriminate|].
      repeat constructor; congruence.
    + specialize (IH ltac:(discriminate)).
      destruct (insert_name b (c :: rest)) as [sorted'|e]; cbn [mbind outcome_bind].
      * destruct IH as (_ & _ & Hall'). split; [discriminate|]. split; [discriminate|].
        constructor; [congruence | exact Hall'].
      * destruct IH as [-> Hb]. congruence.
Qed.

Lemma sort_numbered (names sorted : list string) :
  sorted ≠ [] → List.Forall (λ a, match_results a ≠ None) sorted →
  fold_left (λ sorted b, sorted ← sorted; insert_name b sorted) names (Return sorted)
    = Throw TypeError
  ∨ List.Forall (λ a, match_results a ≠ None) names.
Proof.
  revert sorted. induction names as [|b names IH]; intros sorted Hne Hall; [now right|].
  cbn [fold_left mbind outcome_bind].
  pose proof (insert_name_numbered b sorted Hne Hall) as Hins.
  destruct (insert_name b sorted) as [sorted'|e].
  - destruct Hins as (Hb & Hne' & Hall').
    destruct (IH sorted' Hne' Hall') as [Ht | Hn]; [now left|].
    right. now constructor.
  - destruct Hins as [-> _]. left. apply sort_thrown.
Qed.

(** With two partial files or more (names that begin with [results_] and
    end with [.csv]), one whose name has no number between the two makes
    [combineResults] throw a TypeError in the comparison of the names. *)
Theorem partial_files_throw_on_a_name_without_a_number (names : list string)
    (name : string) :
  let files := filter (λ f, startsWith "results_" f && endsWith ".csv" f) names in
  (2 ≤ length files)%nat → In name files → match_results name = None →
  partial_files names = Throw TypeError.
Proof.
  intros files Hlen Hin Hname. unfold partial_files. fold files.
  destruct files as [|a [|b rest]]; [cbn in Hlen; lia | cbn in Hlen; lia|].
  unfold sort_names. cbn [fold_left mbind outcome_bind insert_name].
  unfold compare_names, file_number.
  destruct (match_results a) as [da|] eqn:Ea; [|apply sort_thrown].
  destruct (match_results b) as [db|] eqn:Eb; [|apply sort_thrown].
  cbn [mbind outcome_bind].
  assert (Hrest : ∀ sorted, sorted = [b; a] ∨ sorted = [a; b] →
            fold_left (λ sorted b, sorted ← sorted; insert_name b sorted) rest
              (Return sorted) = Throw TypeError).
  { intros sorted Hs.
    destruct (sort_numbered rest sorted) as [Ht | Hn]; [| |exact Ht|].
    - destruct Hs as [-> | ->]; discriminate.
    - destruct Hs as [-> | ->]; repeat constructor; congruence.
    - exfalso. rewrite List.Forall_forall in Hn.
      destruct Hin as [<- | [<- | Hin]]; [congruence | congruence|].
      now apply (Hn name). }
  destruct (Num.ltb _ _); apply Hrest; auto.
Qed.

Lemma partial_files_throw_on_a_name_without_a_number_witness :
  partial_files ["results_1.csv"; "notes.txt"; "results_old.csv"] = Throw TypeError.
Proof.
  apply (partial_files_throw_on_a_name_without_a_number
           ["results_1.csv"; "notes.txt"; "results_old.csv"] "results_old.csv").
  - vm_compute. lia.
  - vm_compute. right. left. reflexivity.
  - reflexivity.
Defined.

#[local] Open Scope Z_scope.

(** *** Mantissas of 53 bits or more *)

(** The same for a mantissa of 53 bits or more, away from the smallest
    exponents: the mantissa is cut to its first 53 bits, and one is added or
    not. *)
Lemma binary_round_aux_cut (M : positive) (E0 : Z) :
  let d := Z.pos (digits2_pos M) in
  53 <= d → -1000 <= E0 → d + E0 <= 1000 →
  ∃ m' e' q',
    binary_round_aux prec emax false (Z.pos M) E0 loc_Exact = S754_finite false m' e'
    ∧ Z.pos M / 2 ^ (d - 53) <= q' <= Z.pos M / 2 ^ (d - 53) + 1
    ∧ ((Z.pos m' = q' ∧ e' = E0 + (d - 53))
       ∨ (2 * Z.pos m' = q' ∧ e' = E0 + (d - 53) + 1)).
Proof.
  intros d Hd HE0 HE1.
  destruct (binary_round_aux_nearest false M E0) as (q' & Hq' & Hres); fold d; [lia | lia |].
  fold d in Hq', Hres.
  assert (Ep : Z.max 0 (fexp prec emax (d + E0) - E0) = d - 53).
  { change (fexp prec emax (d + E0)) with (Z.max (d + E0 - 53) (-1074)). lia. }
  rewrite Ep in Hq', Hres.
  pose proof (digits2_lower M) as Hl. fold d in Hl.
  assert (HQ : 2 ^ 52 <= Z.pos M / 2 ^ (d - 53)).
  { apply Z.div_le_lower_bound; [apply Z.pow_pos_nonneg; lia|].
    rewrite <- Z.pow_add_r by lia. replace (d - 53 + 52) with (d - 1) by lia. exact Hl. }
  assert (H52 : 0 < 2 ^ 52) by reflexivity.
  destruct Hres as [[E0' _] | (m' & e' & Hr & Hcase)]; [destruct Hq' as [E | [E _]]; lia|].
  exists m', e', q'. split; [exact Hr|]. split; [destruct Hq' as [E | [E _]]; lia|].
  destruct Hcase as [[-> <-] | (-> & <- & _)]; auto.
Qed.

(** ** loadAllData: the split of the data *)

(** A length below [2^53] as a binary64: the length shifted to 53 bits. *)
Lemma Number_of_length_mantissa (n : nat) :
  (0 < n)%nat → Z.of_nat n < 2 ^ 53 →
  ∃ m k, Prim2SF (Number_of_length n) = S754_finite false m (- k)
         ∧ 0 <= k ∧ Z.pos m = Z.of_nat n * 2 ^ k ∧ 2 ^ 52 <= Z.pos m < 2 ^ 53.
Proof.
  intros Hn Hb. unfold Number_of_length.
  rewrite of_uint63_spec, Uint63.of_Z_spec.
  rewrite Z.mod_small by (change wB with (2 ^ 63); lia).
  destruct (Z.of_nat n) as [|p|p] eqn:E; [lia | | lia].
  cbn [binary_normalize].
  pose proof (digits2_lower p) as Hl. pose proof (digits2_upper p) as Hu.
  assert (Hd : Z.pos (digits2_pos p) <= 53).
  { destruct (Z.le_gt_cases (Z.pos (digits2_pos p)) 53) as [|Hgt]; [assumption|].
    assert (2 ^ 53 <= 2 ^ (Z.pos (digits2_pos p) - 1)) by (apply Z.pow_le_mono_r; lia).
    lia. }
  unfold binary_round.
  assert (Hf : ∀ d, 1 <= d <= 53 → fexp prec emax d = d - 53).
  { intros d Hd'. unfold fexp, emin, prec, emax. lia. }
  rewrite Z.add_0_r, Hf by lia.
  unfold shl_align.
  destruct (Z.pos (digits2_pos p) - 53 - 0) as [|k|k] eqn:Ek; [| lia |].
  - assert (E53 : Z.pos (digits2_pos p) = 53) by lia.
    unfold binary_round_aux, shr_fexp. cbn [Zdigits2 shr_record_of_loc].
    rewrite Z.add_0_r, Hf by lia.
    replace (Z.pos (digits2_pos p) - 53 - 0) with 0 by lia.
    cbn [shr shr_m loc_of_shr_record round_nearest_even Zdigits2 shr_record_of_loc].
    rewrite Z.add_0_r, Hf by lia.
    replace (Z.pos (digits2_pos p) - 53 - 0) with 0 by lia.
    cbn [shr shr_m]. change (0 <=? emax - prec) with true. cbn iota.
    exists p, 0. split; [reflexivity|]. split; [lia|]. split; [lia|].
    rewrite E53 in Hl, Hu. change (53 - 1) with 52 in Hl. lia.
  - unfold binary_round_aux, shr_fexp. cbn [Zdigits2 shr_record_of_loc].
    rewrite digits2_iter_xO.
    replace (Z.pos (digits2_pos p) + Z.pos k + (Z.pos (digits2_pos p) - 53))
      with (Z.pos (digits2_pos p)) by lia.
    rewrite Hf by lia. rewrite Z.sub_diag.
    cbn [shr shr_m loc_of_shr_record round_nearest_even Zdigits2 shr_record_of_loc].
    rewrite digits2_iter_xO.
    replace (Z.pos (digits2_pos p) + Z.pos k + (Z.pos (digits2_pos p) - 53))
      with (Z.pos (digits2_pos p)) by lia.
    rewrite Hf by lia. rewrite Z.sub_diag.
    cbn [shr shr_m].
    destruct (Z.leb_spec (Z.pos (digits2_pos p) - 53) (emax - prec)) as [|Hgt];
      [|unfold emax, prec in Hgt; lia].
    exists (Pos.iter xO p k), (Z.pos k).
    split; [f_equal; lia|]. split; [lia|].
    rewrite pos_iter_xO. split; [reflexivity|].
    replace (Z.pos k) with (53 - Z.pos (digits2_pos p)) by lia.
    split.
    + replace 52 with ((Z.pos (digits2_pos p) - 1) + (53 - Z.pos (digits2_pos p))) by lia.
      rewrite Z.pow_add_r by lia. apply Z.mul_le_mono_nonneg_r; [apply Z.pow_nonneg; lia | exact Hl].
    + replace 53 with (Z.pos (digits2_pos p) + (53 - Z.pos (digits2_pos p))) at 2 by lia.
      rewrite Z.pow_add_r by lia. apply Z.mul_lt_mono_pos_r; [apply Z.pow_pos_nonneg; lia | exact Hu].
Qed.

(** [Math.floor(n * 0.7)] for a length [n]: seven tenths of [n] rounded
    down, or one less. *)
Lemma floor_of_seven_tenths (n : nat) :
  (0 < n)%nat → Z.of_nat n < 2 ^ 32 →
  ∃ i, floor_index (Number_of_length n * 0.7) = Some i
       ∧ 7 * Z.of_nat n - 10 <= 10 * Z.of_nat i <= 7 * Z.of_nat n.
Proof.
  intros Hn Hb.
  destruct (Number_of_length_mantissa n Hn) as (m & k & Em & Hk & Hm & Hm52 & Hm53); [lia|].
  unfold floor_index. rewrite mul_spec, Em.
  change (Prim2SF 0.7) with (S754_finite false 6305039478318694 (-53)).
  cbn [SF64mul SFmul xorb].
  set (c := 6305039478318694%positive).
  pose proof (digits2_lower (m * c)) as Hl. pose proof (digits2_upper (m * c)) as Hu.
  set (d := Z.pos (digits2_pos (m * c))) in *.
  assert (Hc : 2 ^ 52 <= Z.pos c < 2 ^ 53) by (unfold c; split; [apply Z.leb_le | apply Z.ltb_lt]; reflexivity).
  rewrite Pos2Z.inj_mul in Hl, Hu.
  assert (Hd : 105 <= d <= 106).
  { split.
    - destruct (Z.le_gt_cases 105 d) as [|Hlt]; [assumption|].
      assert (2 ^ d <= 2 ^ 104) by (apply Z.pow_le_mono_r; lia).
      assert (2 ^ 52 * 2 ^ 52 <= Z.pos m * Z.pos c) by (apply Z.mul_le_mono_nonneg; lia).
      change (2 ^ 52 * 2 ^ 52) with (2 ^ 104) in *. lia.
    - destruct (Z.le_gt_cases d 106) as [|Hgt]; [assumption|].
      assert (2 ^ 106 <= 2 ^ (d - 1)) by (apply Z.pow_le_mono_r; lia).
      assert (Z.pos m * Z.pos c < 2 ^ 53 * 2 ^ 53) by (apply Z.mul_lt_mono_nonneg; lia).
      change (2 ^ 53 * 2 ^ 53) with (2 ^ 106) in *. lia. }
  assert (Hk21 : 21 <= k).
  { destruct (Z.le_gt_cases 21 k) as [|Hlt]; [assumption|].
    assert (2 ^ k <= 2 ^ 20) by (apply Z.pow_le_mono_r; lia).
    assert (Z.of_nat n * 2 ^ k < 2 ^ 32 * 2 ^ 20).
    { apply Z.le_lt_trans with (Z.of_nat n * 2 ^ 20).
      - apply Z.mul_le_mono_nonneg_l; lia.
      - apply Z.mul_lt_mono_pos_r; [reflexivity | lia]. }
    change (2 ^ 32 * 2 ^ 20) with (2 ^ 52) in *. lia. }
  assert (Hk52 : k <= 52).
  { destruct (Z.le_gt_cases k 52) as [|Hgt]; [assumption|].
    assert (2 ^ 53 <= 2 ^ k) by (apply Z.pow_le_mono_r; lia).
    assert (1 * 2 ^ k <= Z.of_nat n * 2 ^ k) by (apply Z.mul_le_mono_nonneg_r; lia).
    lia. }
  destruct (binary_round_aux_cut (m * c) (- k + -53)) as (m' & e' & q' & -> & Hq' & Hcase);
    fold d; [lia | lia | lia |].
  fold d in Hq', Hcase. set (t := d - 53) in *. set (s := 106 + k - d).
  set (Q := Z.pos (m * c) / 2 ^ t) in *.
  assert (Ht : 0 < 2 ^ t) by (apply Z.pow_pos_nonneg; lia).
  assert (Hs : 0 < 2 ^ s) by (apply Z.pow_pos_nonneg; lia).
  assert (HQ : Q * 2 ^ t <= Z.pos m * Z.pos c < (Q + 1) * 2 ^ t).
  { rewrite <- Pos2Z.inj_mul. unfold Q.
    pose proof (Z.mul_div_le (Z.pos (m * c)) (2 ^ t) Ht).
    pose proof (Z.mul_succ_div_gt (Z.pos (m * c)) (2 ^ t) Ht). lia. }
  set (i := q' / 2 ^ s).
  assert (Hi : Z.shiftl (Z.pos m') e' = i).
  { unfold i. destruct Hcase as [[Hm' ->] | [Hm' ->]].
    - rewrite Z.shiftl_div_pow2 by (unfold t; lia). rewrite Hm'. f_equal. f_equal. unfold s, t. lia.
    - rewrite Z.shiftl_div_pow2 by (unfold t; lia). rewrite <- Hm'.
      replace s with (1 + (- (- k + -53 + t + 1))) by (unfold s, t; lia).
      rewrite Z.pow_add_r by (unfold t; lia). change (2 ^ 1) with 2.
      now rewrite Z.div_mul_cancel_l by (try apply Z.pow_nonzero; unfold t; lia). }
  assert (Hi' : i * 2 ^ s <= q' < (i + 1) * 2 ^ s).
  { unfold i. pose proof (Z.mul_div_le q' (2 ^ s) Hs).
    pose proof (Z.mul_succ_div_gt q' (2 ^ s) Hs). lia. }
  assert (Hst : 2 ^ s * 2 ^ t = 2 ^ 53 * 2 ^ k).
  { rewrite <- !Z.pow_add_r by (unfold s, t; lia). f_equal. unfold s, t. lia. }
  assert (H2k : 0 < 2 ^ k) by (apply Z.pow_pos_nonneg; lia).
  assert (Hi0 : 0 <= i) by (apply Z.div_pos; lia).
  exists (Z.to_nat i). rewrite Hi. split; [reflexivity|]. rewrite Z2Nat.id by exact Hi0.
  rewrite Hm in HQ.
  (* the product, cut and rounded, against the index *)
  assert (Hup : i * 2 ^ 53 * 2 ^ k <= (Z.of_nat n * Z.pos c + 2 ^ 33) * 2 ^ k).
  { assert (2 ^ t <= 2 ^ 33 * 2 ^ k).
    { apply Z.le_trans with (2 ^ 53); [apply Z.pow_le_mono_r; unfold t; lia|].
      replace (2 ^ 33 * 2 ^ k) with (2 ^ (33 + k)) by (rewrite Z.pow_add_r by lia; reflexivity).
      apply Z.pow_le_mono_r; lia. }
    assert (i * (2 ^ s * 2 ^ t) <= (Q + 1) * 2 ^ t).
    { rewrite Z.mul_assoc. apply Z.mul_le_mono_nonneg_r; lia. }
    rewrite Hst in *. lia. }
  assert (Hlow : Z.of_nat n * Z.pos c * 2 ^ k < (i + 1) * 2 ^ 53 * 2 ^ k).
  { assert ((Q + 1) * 2 ^ t <= (i + 1) * (2 ^ s * 2 ^ t)).
    { rewrite Z.mul_assoc. apply Z.mul_le_mono_nonneg_r; lia. }
    rewrite Hst in *. lia. }
  apply Z.mul_le_mono_pos_r in Hup; [|exact H2k].
  apply Z.mul_lt_mono_pos_r in Hlow; [|exact H2k].
  unfold c in Hup, Hlow. change (2 ^ 53) with 9007199254740992 in Hup, Hlow.
  change (2 ^ 33) with 8589934592 in Hup. change (2 ^ 32) with 4294967296 in Hb.
  lia.
Qed.

Lemma x_getTime_at_time (p : Pt.t) (t : Z) : at_time p t → x_getTime p = Int t.
Proof. intros [Hx _]. unfold x_getTime. now rewrite Hx. Qed.

Lemma filter_all {A : Type} (P : A → Prop) `{!∀ x, Decision (P x)} (l : list A) :
  List.Forall P l → filter P l = l.
Proof.
  induction 1 as [|a l Ha _ IH]; [reflexivity|].
  now rewrite filter_cons_True, IH.
Qed.

Lemma filter_none {A : Type} (P : A → Prop) `{!∀ x, Decision (P x)} (l : list A) :
  List.Forall (λ a, ¬ P a) l → filter P l = [].
Proof.
  induction 1 as [|a l Ha _ IH]; [reflexivity|].
  now rewrite filter_cons_False.
Qed.

(** The points sampled up to the time of the split point stay before the
    split, those sampled later go after it. *)
Lemma split_early (splitPoint : Pt.t) (ts : Z) (series : list Pt.t) (times : list Z) :
  at_time splitPoint ts → Forall2 at_time series times → List.Forall (λ t, t <= ts) times →
  until splitPoint series = series ∧ after splitPoint series = [].
Proof.
  intros Hs Hall Hle. unfold until, after. rewrite (x_getTime_at_time _ _ Hs).
  split.
  - apply filter_all. rewrite List.Forall_forall. intros p Hp.
    apply list_elem_of_In, list_elem_of_lookup in Hp as [j Hj].
    destruct (Forall2_lookup_l _ _ _ _ _ Hall Hj) as (t & Ht & Hpt).
    rewrite (x_getTime_at_time _ _ Hpt). cbn [Num.leb]. apply Is_true_true, Z.leb_le.
    rewrite List.Forall_forall in Hle. apply Hle, list_elem_of_In.
    eapply list_elem_of_lookup_2, Ht.
  - apply filter_none. rewrite List.Forall_forall. intros p Hp.
    apply list_elem_of_In, list_elem_of_lookup in Hp as [j Hj].
    destruct (Forall2_lookup_l _ _ _ _ _ Hall Hj) as (t & Ht & Hpt).
    rewrite (x_getTime_at_time _ _ Hpt). cbn [Num.ltb]. intros Hlt.
    apply Is_true_true, Z.ltb_lt in Hlt.
    rewrite List.Forall_forall in Hle. specialize (Hle t).
    assert (t <= ts) by (apply Hle, list_elem_of_In; eapply list_elem_of_lookup_2, Ht). lia.
Qed.

Lemma split_late (splitPoint : Pt.t) (ts : Z) (series : list Pt.t) (times : list Z) :
  at_time splitPoint ts → Forall2 at_time series times → List.Forall (λ t, ts < t) times →
  until splitPoint series = [] ∧ after splitPoint series = series.
Proof.
  intros Hs Hall Hlt. unfold until, after. rewrite (x_getTime_at_time _ _ Hs).
  split.
  - apply filter_none. rewrite List.Forall_forall. intros p Hp.
    apply list_elem_of_In, list_elem_of_lookup in Hp as [j Hj].
    destruct (Forall2_lookup_l _ _ _ _ _ Hall Hj) as (t & Ht & Hpt).
    rewrite (x_getTime_at_time _ _ Hpt). cbn [Num.leb]. intros Hle.
    apply Is_true_true, Z.leb_le in Hle.
    rewrite List.Forall_forall in Hlt. specialize (Hlt t).
    assert (ts < t) by (apply Hlt, list_elem_of_In; eapply list_elem_of_lookup_2, Ht). lia.
  - apply filter_all. rewrite List.Forall_forall. intros p Hp.
    apply list_elem_of_In, list_elem_of_lookup in Hp as [j Hj].
    destruct (Forall2_lookup_l _ _ _ _ _ Hall Hj) as (t & Ht & Hpt).
    rewrite (x_getTime_at_time _ _ Hpt). cbn [Num.ltb]. apply Is_true_true, Z.ltb_lt.
    rewrite List.Forall_forall in Hlt. apply Hlt, list_elem_of_In.
    eapply list_elem_of_lookup_2, Ht.
Qed.

Lemma until_app (splitPoint : Pt.t) (l1 l2 : list Pt.t) :
  until splitPoint (l1 ++ l2) = until splitPoint l1 ++ until splitPoint l2.
Proof. apply filter_app. Qed.

Lemma after_app (splitPoint : Pt.t) (l1 l2 : list Pt.t) :
  after splitPoint (l1 ++ l2) = after splitPoint l1 ++ after splitPoint l2.
Proof. apply filter_app. Qed.

(** A series in the order of time is cut in two by the split. *)
Lemma split_sorted (splitPoint : Pt.t) (ts : Z) (series : list Pt.t) (times : list Z) :
  at_time splitPoint ts → Forall2 at_time series times → Sorted Z.le times →
  ∃ k, until splitPoint series = take k series ∧ after splitPoint series = drop k series
       ∧ List.Forall (λ t, t <= ts) (take k times) ∧ List.Forall (λ t, ts < t) (drop k times).
Proof.
  intros Hs Hall Hsorted. apply Sorted_StronglySorted in Hsorted; [|intros a b c; lia].
  revert series Hall. induction Hsorted as [|t times Hsorted IH Hge]; intros series Hall.
  - apply Forall2_nil_inv_r in Hall as ->. exists 0%nat. repeat split; constructor.
  - apply Forall2_cons_inv_r in Hall as (p & rest & Hp & Hrest & ->).
    destruct (Z.le_gt_cases t ts) as [Hle | Hgt].
    + destruct (IH rest Hrest) as (k & Hu & Ha & Hbefore & Hafter).
      destruct (split_early splitPoint ts [p] [t] Hs) as [Hu1 Ha1];
        [constructor; [exact Hp | constructor] | constructor; [exact Hle | constructor] |].
      exists (S k). change (p :: rest) with ([p] ++ rest).
      rewrite until_app, after_app, Hu1, Ha1, Hu, Ha. cbn [take drop app].
      repeat split; [now constructor | exact Hafter].
    + destruct (split_late splitPoint ts (p :: rest) (t :: times) Hs) as [Hu Ha].
      * now constructor.
      * constructor; [lia|]. eapply List.Forall_impl; [|exact Hge]. cbn. intros; lia.
      * exists 0%nat. rewrite Hu, Ha. cbn [take drop].
        repeat split; [constructor|].
        constructor; [lia|]. eapply List.Forall_impl; [|exact Hge]. cbn. intros; lia.
Qed.

(** With a split point that has no date, or an invalid one, nothing passes
    either comparison. *)
Lemma split_undated (splitPoint : Pt.t) (series : list Pt.t) :
  x_getTime splitPoint = NaN →
  until splitPoint series = [] ∧ after splitPoint series = [].
Proof.
  intros Hs. unfold until, after. rewrite Hs.
  split; apply filter_none, List.Forall_forall; intros p _.
  - destruct (x_getTime p); exact id.
  - destruct (x_getTime p); exact id.
Qed.

(** [loadAllData] finds a split point, within one of seven tenths of the
    way through [ram]. *)
Lemma loadAllData_split_point (data : DataSet.t) :
  DataSet.ram data ≠ [] → Z.of_nat (length (DataSet.ram data)) < 2 ^ 32 →
  ∃ i splitPoint,
    DataSet.ram data !! i = Some splitPoint
    ∧ 7 * Z.of_nat (length (DataSet.ram data)) - 10 <= 10 * Z.of_nat i
        <= 7 * Z.of_nat (length (DataSet.ram data))
    ∧ loadAllData data
      = Loaded (each_series (until splitPoint) data) (each_series (after splitPoint) data).
Proof.
  intros Hne Hlen. unfold loadAllData.
  destruct (DataSet.ram data) as [|p0 ram] eqn:Eram; [congruence|].
  destruct (floor_of_seven_tenths (length (p0 :: ram))) as (i & -> & Hi);
    [cbn; lia | exact Hlen |].
  cbn [mbind option_bind].
  destruct (lookup_lt_is_Some_2 (p0 :: ram) i) as [splitPoint Hsp];
    [cbn [length] in *; lia|].
  exists i, splitPoint. rewrite Hsp. auto.
Qed.

Lemma sorted_lookup_lt (l : list Z) (i j : nat) (a b : Z) :
  StronglySorted Z.lt l → l !! i = Some a → l !! j = Some b → (i < j)%nat → a < b.
Proof.
  intros Hsorted. revert i j. induction Hsorted as [|c l Hsorted IH Hall]; intros i j Hi Hj Hlt.
  - discriminate Hi.
  - destruct j as [|j]; [lia|]. destruct i as [|i].
    + injection Hi as <-. rewrite List.Forall_forall in Hall. apply Hall, list_elem_of_In.
      eapply list_elem_of_lookup_2, Hj.
    + apply (IH i j Hi Hj). lia.
Qed.

(** A series in the strict order of time is cut after the split point when
    the split point is one of its own. *)
Lemma split_own_point (series : list Pt.t) (times : list Z) (i : nat) (splitPoint : Pt.t) :
  Forall2 at_time series times → Sorted Z.lt times → series !! i = Some splitPoint →
  until splitPoint series = take (S i) series ∧ after splitPoint series = drop (S i) series.
Proof.
  intros Hall Hsorted Hi.
  apply Sorted_StronglySorted in Hsorted; [|intros a b c; lia].
  destruct (Forall2_lookup_l _ _ _ _ _ Hall Hi) as (ts & Hts & Hs).
  destruct (split_early splitPoint ts (take (S i) series) (take (S i) times) Hs) as [Hu1 Ha1].
  { now apply Forall2_take. }
  { apply Forall_lookup. intros j t Hj. apply lookup_take_Some in Hj as [Hj Hlt].
    destruct (decide (j = i)) as [-> | Hne]; [rewrite Hts in Hj; injection Hj as <-; lia|].
    assert (t < ts) by (apply (sorted_lookup_lt times j i t ts Hsorted Hj Hts); lia). lia. }
  destruct (split_late splitPoint ts (drop (S i) series) (drop (S i) times) Hs) as [Hu2 Ha2].
  { now apply Forall2_drop. }
  { apply Forall_lookup. intros j t Hj. rewrite lookup_drop in Hj.
    apply (sorted_lookup_lt times i (S i + j) ts t Hsorted Hts Hj). lia. }
  rewrite <- (take_drop (S i) series) at 1 3.
  rewrite until_app, after_app, Hu1, Ha1, Hu2, Ha2, app_nil_r. auto.
Qed.

(** Once the files are loaded, [loadAllData] throws only when [ram] is
    empty.  Otherwise it splits every series at the date of a point of
    [ram]: the point at seven tenths of the length of [ram] rounded down,
    or the one before. *)
Theorem loadAllData_splits_at_seven_tenths (data : DataSet.t) :
  let ram := DataSet.ram data in
  Z.of_nat (length ram) < 2 ^ 32 →
  (ram = [] ∧ loadAllData data = NoRamData)
  ∨ (∃ i splitPoint,
       ram !! i = Some splitPoint
       ∧ 7 * Z.of_nat (length ram) - 10 <= 10 * Z.of_nat i <= 7 * Z.of_nat (length ram)
       ∧ loadAllData data
         = Loaded (each_series (until splitPoint) data)
                  (each_series (after splitPoint) data)).
Proof.
  intros ram Hlen. subst ram. destruct (DataSet.ram data) as [|p0 rest] eqn:Eram.
  - left. split; [reflexivity|]. unfold loadAllData. now rewrite Eram.
  - right. rewrite <- Eram.
    apply loadAllData_split_point; rewrite Eram; [discriminate | exact Hlen].
Qed.

Lemma loadAllData_splits_at_seven_tenths_witness :
  let ram := DataSet.ram example_loaded in
  (ram = [] ∧ loadAllData example_loaded = NoRamData)
  ∨ (∃ i splitPoint,
       ram !! i = Some splitPoint
       ∧ 7 * Z.of_nat (length ram) - 10 <= 10 * Z.of_nat i <= 7 * Z.of_nat (length ram)
       ∧ loadAllData example_loaded
         = Loaded (each_series (until splitPoint) example_loaded)
                  (each_series (after splitPoint) example_loaded)).
Proof.
  apply (loadAllData_splits_at_seven_tenths example_loaded). reflexivity.
Defined.

(** When every point of [ram] has a time, the split date is the time of
    one of them, and every series that is in the order of time is cut in
    two: the training data get its points up to the split date, the split
    date included, the test data the points after it. *)
Theorem loadAllData_cuts_the_series_in_time_order (data : DataSet.t) (ramTimes : list Z) :
  DataSet.ram data ≠ [] → Z.of_nat (length (DataSet.ram data)) < 2 ^ 32 →
  Forall2 at_time (DataSet.ram data) ramTimes →
  ∃ ts trainData testData,
    In ts ramTimes ∧ loadAllData data = Loaded trainData testData
    ∧ ∀ series times,
        In series the_series → Forall2 at_time (series data) times → Sorted Z.le times →
        ∃ k, series trainData = take k (series data)
             ∧ series testData = drop k (series data)
             ∧ List.Forall (λ t, t <= ts) (take k times)
             ∧ List.Forall (λ t, ts < t) (drop k times).
Proof.
  intros Hne Hlen Hram.
  destruct (loadAllData_split_point data Hne Hlen) as (i & splitPoint & Hi & _ & ->).
  destruct (Forall2_lookup_l _ _ _ _ _ Hram Hi) as (ts & Hts & Hs).
  exists ts, (each_series (until splitPoint) data), (each_series (after splitPoint) data).
  split; [apply list_elem_of_In; eapply list_elem_of_lookup_2, Hts|].
  split; [reflexivity|].
  intros series times Hin Hall Hsorted.
  assert (Hser : series (each_series (until splitPoint) data) = until splitPoint (series data)
                 ∧ series (each_series (after splitPoint) data)
                   = after splitPoint (series data)).
  { cbn in Hin. destruct Hin as [<- | [<- | [<- | [<- | [<- | []]]]]]; split; reflexivity. }
  destruct Hser as [-> ->]. now apply (split_sorted splitPoint ts (series data) times).
Qed.

Lemma loadAllData_cuts_the_series_in_time_order_witness :
  ∃ ts trainData testData,
    In ts [0; 3600000; 7200000; 10800000]
    ∧ loadAllData example_loaded = Loaded trainData testData
    ∧ ∀ series times,
        In series the_series → Forall2 at_time (series example_loaded) times →
        Sorted Z.le times →
        ∃ k, series trainData = take k (series example_loaded)
             ∧ series testData = drop k (series example_loaded)
             ∧ List.Forall (λ t, t <= ts) (take k times)
             ∧ List.Forall (λ t, ts < t) (drop k times).
Proof.
  apply (loadAllData_cuts_the_series_in_time_order example_loaded
           [0; 3600000; 7200000; 10800000]).
  - discriminate.
  - reflexivity.
  - repeat constructor.
Defined.

(** When the points of [ram] are in the strict order of time, the training
    data get the first points of [ram], up to the split point, and the test
    data the others: seven tenths of the points or up to one point more go
    to the training data, and all of them when [ram] has three points or
    fewer. *)
Theorem loadAllData_keeps_the_first_points_of_ram (data : DataSet.t) (ramTimes : list Z) :
  let ram := DataSet.ram data in
  ram ≠ [] → Z.of_nat (length ram) < 2 ^ 32 →
  Forall2 at_time ram ramTimes → Sorted Z.lt ramTimes →
  ∃ i trainData testData,
    7 * Z.of_nat (length ram) - 10 <= 10 * Z.of_nat i <= 7 * Z.of_nat (length ram)
    ∧ loadAllData data = Loaded trainData testData
    ∧ DataSet.ram trainData = take (S i) ram
    ∧ DataSet.ram testData = drop (S i) ram
    ∧ ((length ram <= 3)%nat → DataSet.ram testData = []).
Proof.
  intros ram Hne Hlen Hram Hsorted.
  destruct (loadAllData_split_point data Hne Hlen) as (i & splitPoint & Hi & Hbounds & ->).
  destruct (split_own_point ram ramTimes i splitPoint Hram Hsorted Hi) as [Hu Ha].
  exists i, (each_series (until splitPoint) data), (each_series (after splitPoint) data).
  split; [exact Hbounds|]. split; [reflexivity|]. split; [exact Hu|]. split; [exact Ha|].
  intros Hsmall. cbn [each_series DataSet.ram]. fold ram. rewrite Ha.
  apply drop_ge. unfold ram in *. lia.
Qed.

Lemma loadAllData_keeps_the_first_points_of_ram_witness :
  let ram := DataSet.ram example_loaded in
  ∃ i trainData testData,
    7 * Z.of_nat (length ram) - 10 <= 10 * Z.of_nat i <= 7 * Z.of_nat (length ram)
    ∧ loadAllData example_loaded = Loaded trainData testData
    ∧ DataSet.ram trainData = take (S i) ram
    ∧ DataSet.ram testData = drop (S i) ram
    ∧ ((length ram <= 3)%nat → DataSet.ram testData = []).
Proof.
  apply (loadAllData_keeps_the_first_points_of_ram example_loaded
           [0; 3600000; 7200000; 10800000]).
  - discriminate.
  - reflexivity.
  - repeat constructor.
  - repeat constructor.
Defined.

(** When no point of [ram] has a valid date, [loadAllData] does not throw:
    it returns training and test data without a single point. *)
Theorem loadAllData_without_dates_returns_no_data (data : DataSet.t) :
  DataSet.ram data ≠ [] → Z.of_nat (length (DataSet.ram data)) < 2 ^ 32 →
  List.Forall (λ p, x_getTime p = NaN) (DataSet.ram data) →
  loadAllData data = Loaded no_data no_data.
Proof.
  intros Hne Hlen Hram.
  destruct (loadAllData_split_point data Hne Hlen) as (i & splitPoint & Hi & _ & ->).
  assert (Hs : x_getTime splitPoint = NaN).
  { rewrite List.Forall_forall in Hram. apply Hram, list_elem_of_In.
    eapply list_elem_of_lookup_2, Hi. }
  unfold each_series, no_data.
  now rewrite !(proj1 (split_undated splitPoint _ Hs)), !(proj2 (split_undated splitPoint _ Hs)).
Qed.

Lemma loadAllData_without_dates_returns_no_data_witness :
  loadAllData {| DataSet.palmas := [sampled 0 1.5];
                 DataSet.itu := [];
                 DataSet.ba := [];
                 DataSet.ram := [Pt.mk None 2.5 None None;
                                 Pt.mk (Some (mkDate NaN)) 2.75 None None];
                 DataSet.vientos := [] |}%float
  = Loaded no_data no_data.
Proof.
  apply loadAllData_without_dates_returns_no_data.
  - discriminate.
  - reflexivity.
  - repeat constructor.
Defined.

(** ** The wind coefficients of a parameter set *)

(** A Number at least 0 and below 1, as a binary64: a zero, or a positive
    mantissa of 53 bits at most, with a value of [1 - 2^-53] at most. *)
Lemma below_one (r : float) :
  (0 <=? r)%float = true → (r <? 1)%float = true →
  (∃ s, Prim2SF r = S754_zero s)
  ∨ (∃ mr er, Prim2SF r = S754_finite false mr er
              ∧ er <= -52 ∧ Z.pos mr < 2 ^ 53
              ∧ 2 ^ 53 * Z.pos mr <= 2 ^ (- er) * (2 ^ 53 - 1)).
Proof.
  rewrite leb_spec, ltb_spec. intros H0 H1. pose proof (Prim2SF_valid r) as Hvalid.
  change (Prim2SF 0) with (S754_zero false) in H0.
  change (Prim2SF 1) with (S754_finite false 4503599627370496 (-52)) in H1.
  destruct (Prim2SF r) as [s|s| |s mr er].
  - left. now exists s.
  - destruct s; discriminate.
  - discriminate.
  - destruct s; [discriminate|]. right. exists mr, er. split; [reflexivity|].
    unfold SpecFloat.valid_binary, bounded in Hvalid. apply andb_prop in Hvalid as [Hcanon _].
    unfold canonical_mantissa in Hcanon. apply Z.eqb_eq in Hcanon.
    assert (Hdr : Z.pos (digits2_pos mr) <= 53).
    { change (fexp prec emax (Z.pos (digits2_pos mr) + er))
        with (Z.max (Z.pos (digits2_pos mr) + er - 53) (-1074)) in Hcanon. lia. }
    assert (Hmr : Z.pos mr < 2 ^ 53).
    { apply Z.lt_le_trans with (2 ^ Z.pos (digits2_pos mr)); [apply digits2_upper|].
      apply Z.pow_le_mono_r; lia. }
    unfold SFltb, SFcompare in H1.
    destruct (Z.compare_spec er (-52)) as [-> | Hlt | Hgt]; [| |discriminate].
    + split; [lia|]. split; [exact Hmr|].
      destruct (PosDef.Pos.compare_cont Eq mr 4503599627370496) eqn:Ec; try discriminate.
      assert (Hlt : Z.pos mr < 4503599627370496)
        by (apply Pos2Z.pos_lt_pos; unfold Pos.lt, Pos.compare; exact Ec).
      change (- -52) with 52. change (2 ^ 52) with 4503599627370496.
      change (2 ^ 53) with 9007199254740992. lia.
    + split; [lia|]. split; [exact Hmr|].
      assert (2 ^ 53 <= 2 ^ (- er)) by (apply Z.pow_le_mono_r; lia).
      assert (0 <= 2 ^ 53 - 1) by (change (2 ^ 53) with 9007199254740992; lia).
      apply Z.le_trans with (2 ^ 53 * (2 ^ 53 - 1)).
      * apply Z.mul_le_mono_nonneg_l; lia.
      * apply Z.mul_le_mono_nonneg_r; lia.
Qed.

(** [Math.floor(r * n)], for a Number [r] at least 0 and below 1 and a
    length [n]: an index below [n]. *)
Lemma floor_below_length (r : float) (n : nat) :
  (0 <=? r)%float = true → (r <? 1)%float = true →
  (0 < n)%nat → Z.of_nat n < 2 ^ 32 →
  ∃ i, floor_index (r * Number_of_length n) = Some i ∧ (i < n)%nat.
Proof.
  intros H0 H1 Hn Hb.
  destruct (Number_of_length_mantissa n Hn) as (m & k & Em & Hk & Hm & Hm52 & Hm53); [lia|].
  unfold floor_index. rewrite mul_spec, Em.
  destruct (below_one r H0 H1) as [[s ->] | (mr & er & -> & Her & Hmr & Hr)].
  { cbn [SF64mul SFmul]. exists 0%nat. split; [reflexivity | exact Hn]. }
  cbn [SF64mul SFmul xorb].
  assert (Hk21 : 21 <= k).
  { destruct (Z.le_gt_cases 21 k) as [|Hlt]; [assumption|].
    assert (2 ^ k <= 2 ^ 20) by (apply Z.pow_le_mono_r; lia).
    assert (Z.of_nat n * 2 ^ k < 2 ^ 32 * 2 ^ 20).
    { apply Z.le_lt_trans with (Z.of_nat n * 2 ^ 20).
      - apply Z.mul_le_mono_nonneg_l; lia.
      - apply Z.mul_lt_mono_pos_r; [reflexivity | lia]. }
    change (2 ^ 32 * 2 ^ 20) with (2 ^ 52) in *. lia. }
  set (E0 := er + - k).
  set (N := Z.of_nat n * 2 ^ (- E0)).
  assert (H2k : 0 < 2 ^ k) by (apply Z.pow_pos_nonneg; lia).
  assert (H2er : 0 < 2 ^ (- er)) by (apply Z.pow_pos_nonneg; lia).
  assert (EN : N = Z.pos m * 2 ^ (- er)).
  { unfold N, E0. replace (- (er + - k)) with (k + - er) by lia.
    rewrite Z.pow_add_r, Hm by lia. ring. }
  assert (HN : 2 ^ 53 * Z.pos (mr * m) <= N * (2 ^ 53 - 1)).
  { rewrite EN, Pos2Z.inj_mul.
    replace (2 ^ 53 * (Z.pos mr * Z.pos m)) with (Z.pos m * (2 ^ 53 * Z.pos mr)) by ring.
    rewrite <- Z.mul_assoc. apply Z.mul_le_mono_nonneg_l; lia. }
  assert (HN0 : 0 < N) by (rewrite EN; lia).
  assert (HMN : Z.pos (mr * m) < N).
  { assert (N * (2 ^ 53 - 1) < 2 ^ 53 * N) by lia.
    apply Z.mul_lt_mono_pos_l with (2 ^ 53); lia. }
  pose proof (digits2_lower (mr * m)) as Hl. pose proof (digits2_upper (mr * m)) as Hu.
  set (d := Z.pos (digits2_pos (mr * m))) in *.
  assert (Hd : 53 <= d <= 106).
  { split.
    - destruct (Z.le_gt_cases 53 d) as [|Hlt]; [assumption|].
      assert (2 ^ d <= 2 ^ 52) by (apply Z.pow_le_mono_r; lia).
      assert (1 * Z.pos m <= Z.pos mr * Z.pos m) by (apply Z.mul_le_mono_nonneg_r; lia).
      rewrite Pos2Z.inj_mul in Hu. lia.
    - destruct (Z.le_gt_cases d 106) as [|Hgt]; [assumption|].
      assert (2 ^ 106 <= 2 ^ (d - 1)) by (apply Z.pow_le_mono_r; lia).
      assert (Z.pos mr * Z.pos m < 2 ^ 53 * 2 ^ 53) by (apply Z.mul_lt_mono_nonneg; lia).
      rewrite Pos2Z.inj_mul in Hl. change (2 ^ 53 * 2 ^ 53) with (2 ^ 106) in *. lia. }
  destruct (binary_round_aux_nearest false (mr * m) E0) as (q' & Hq' & Hres); fold d;
    [unfold E0; lia | unfold E0; lia |].
  fold d in Hq', Hres.
  assert (Ep : Z.max 0 (fexp prec emax (d + E0) - E0) = Z.max (d - 53) (-1074 - E0)).
  { change (fexp prec emax (d + E0)) with (Z.max (d + E0 - 53) (-1074)). lia. }
  rewrite Ep in Hq', Hres. set (p := Z.max (d - 53) (-1074 - E0)) in *.
  set (Q := Z.pos (mr * m) / 2 ^ p) in *.
  assert (Hp0 : 0 <= p) by (unfold p; lia).
  assert (H2p : 0 < 2 ^ p) by (apply Z.pow_pos_nonneg; lia).
  assert (HQ : Q * 2 ^ p <= Z.pos (mr * m)).
  { unfold Q. rewrite Z.mul_comm. apply Z.mul_div_le. exact H2p. }
  assert (HQ53 : Q < 2 ^ 53).
  { unfold Q. apply Z.div_lt_upper_bound; [exact H2p|].
    apply Z.lt_le_trans with (2 ^ d); [exact Hu|].
    rewrite <- Z.pow_add_r by lia. apply Z.pow_le_mono_r; unfold p; lia. }
  assert (HQ0 : 0 <= Q) by (apply Z.div_pos; lia).
  (* the rounded product is below the length *)
  assert (Hbelow : q' * 2 ^ p < N).
  { destruct Hq' as [-> | (-> & Hp1 & Hhalf)]; [lia|].
    assert (HW : 0 < 2 ^ (p - 1)) by (apply Z.pow_pos_nonneg; lia).
    assert (E2p : 2 ^ p = 2 * 2 ^ (p - 1)).
    { replace p with (1 + (p - 1)) at 1 by lia. now rewrite Z.pow_add_r by lia. }
    destruct (Z.eq_dec p (d - 53)) as [Enormal | Hsub].
    - (* a product in the normal range: [Q] has 53 bits *)
      assert (HQ52 : 2 ^ 52 <= Q).
      { unfold Q. apply Z.div_le_lower_bound; [exact H2p|].
        rewrite <- Z.pow_add_r by lia. replace (p + 52) with (d - 1) by lia. exact Hl. }
      set (W := 2 ^ (p - 1)) in *.
      assert (Hh1 : 2 ^ 53 * ((2 * Q + 1) * W) <= N * (2 ^ 53 - 1)).
      { apply Z.le_trans with (2 ^ 53 * Z.pos (mr * m)); [|exact HN].
        apply Z.mul_le_mono_nonneg_l; lia. }
      assert (Hh2 : (2 * Q + 2) * (2 ^ 53 - 1) * W < 2 ^ 53 * (2 * Q + 1) * W).
      { apply Z.mul_lt_mono_pos_r; [exact HW|].
        change (2 ^ 53) with 9007199254740992. change (2 ^ 52) with 4503599627370496 in HQ52.
        lia. }
      rewrite E2p. apply Z.mul_lt_mono_pos_r with (2 ^ 53 - 1); [reflexivity|].
      replace ((Q + 1) * (2 * W) * (2 ^ 53 - 1)) with ((2 * Q + 2) * (2 ^ 53 - 1) * W) by ring.
      replace (2 ^ 53 * (2 * Q + 1) * W) with (2 ^ 53 * ((2 * Q + 1) * W)) in Hh2 by ring.
      lia.
    - (* a product in the subnormal range *)
      assert (Esub : p = -1074 - E0) by (unfold p in *; lia).
      assert ((Q + 1) * 2 ^ p <= 2 ^ 53 * 2 ^ p) by (apply Z.mul_le_mono_nonneg_r; lia).
      assert (2 ^ 53 * 2 ^ p < 1 * 2 ^ (- E0)).
      { rewrite <- Z.pow_add_r, Z.mul_1_l by lia. apply Z.pow_lt_mono_r; lia. }
      assert (1 * 2 ^ (- E0) <= N).
      { unfold N. apply Z.mul_le_mono_nonneg_r; [apply Z.pow_nonneg|]; lia. }
      lia. }
  destruct Hres as [[_ ->] | (m' & e' & -> & Hcase)].
  { exists 0%nat. split; [reflexivity | exact Hn]. }
  assert (He' : E0 + p <= e' < 0 ∧ Z.pos m' * 2 ^ (e' - E0) = q' * 2 ^ p).
  { assert (E0 + p + 1 < 0) by (unfold p, E0; lia).
    destruct Hcase as [[-> <-] | (-> & <- & _)].
    - split; [lia|]. f_equal. f_equal. lia.
    - split; [lia|]. replace (E0 + p + 1 - E0) with (1 + p) by lia.
      rewrite Z.pow_add_r by lia. ring. }
  destruct He' as [He' Hval].
  exists (Z.to_nat (Z.shiftl (Z.pos m') e')). split; [reflexivity|].
  assert (Z.shiftl (Z.pos m') e' < Z.of_nat n); [|lia].
  rewrite Z.shiftl_div_pow2 by lia.
  apply Z.div_lt_upper_bound; [apply Z.pow_pos_nonneg; lia|].
  apply Z.mul_lt_mono_pos_r with (2 ^ (e' - E0)); [apply Z.pow_pos_nonneg; lia|].
  rewrite Hval. replace (2 ^ (- e') * Z.of_nat n * 2 ^ (e' - E0)) with N; [exact Hbelow|].
  unfold N. replace (- E0) with (- e' + (e' - E0)) by lia.
  rewrite Z.pow_add_r by lia. ring.
Qed.

Lemma at_floor_index (values : list float) (x : float) :
  at_floor values x = match floor_index x with
                      | Some i => from_option VNum VUndef (values !! i)
                      | None => VUndef
                      end.
Proof.
  unfold at_floor, floor_index. destruct (Prim2SF x) as [s|s| |[|] m e]; reflexivity.
Qed.

Lemma coef_factor_inj (d1 d2 : string) : coef_factor d1 = coef_factor d2 → d1 = d2.
Proof.
  unfold coef_factor. intros E.
  apply (f_equal list_ascii_of_string) in E.
  rewrite !list_ascii_of_string_app in E.
  apply app_inv_head, app_inv_tail in E.
  rewrite <- (string_of_list_ascii_of_string d1), <- (string_of_list_ascii_of_string d2).
  now rewrite E.
Qed.

Lemma coef_peso_not_factor (d1 d2 : string) : coef_peso d1 ≠ coef_factor d2.
Proof.
  unfold coef_peso, coef_factor. intros E.
  apply (f_equal list_ascii_of_string) in E.
  rewrite !list_ascii_of_string_app in E.
  apply app_inv_head in E. apply (f_equal (@rev ascii)) in E.
  rewrite !rev_app_distr in E. discriminate E.
Qed.

Section WindCoefficients.
Variable random : nat → float.
Hypothesis random_unit : in_unit_interval random.

(** The element picked at random is an element of the array. *)
Lemma random_element (values : list float) (calls : nat) :
  values ≠ [] → Z.of_nat (length values) < 2 ^ 32 →
  ∃ v, In v values
       ∧ at_floor values (random calls * Number_of_length (length values)) = VNum v.
Proof.
  intros Hne Hlen. destruct (random_unit calls) as [H0 H1].
  destruct (floor_below_length (random calls) (length values) H0 H1) as (i & Hi & Hlt);
    [destruct values; [congruence | cbn; lia] | exact Hlen |].
  rewrite at_floor_index, Hi.
  destruct (lookup_lt_is_Some_2 values i Hlt) as [v Hv].
  exists v. rewrite Hv. split; [|reflexivity].
  apply list_elem_of_In. eapply list_elem_of_lookup_2, Hv.
Qed.

Lemma getWindCoefs_factors (ranges : Ranges.t) (calls : nat) (dir : string) :
  proper_values (Ranges.coeficientesViento ranges) →
  In dir (map fst (Ranges.coeficientesViento ranges)) →
  factor_from (Ranges.coeficientesViento ranges) (fst (getWindCoefs random ranges calls)) dir.
Proof.
  unfold getWindCoefs, for_of. generalize (Ranges.coeficientesViento ranges). intros entries Hall.
  set (body := λ (s : gmap string value * nat) (x : string * list float),
         (let '(dir, values) := x in
          λ '(coefs, calls),
            let randomValue :=
              at_floor values (random calls * Number_of_length (length values))%float in
            let coefs := <[coef_factor dir := randomValue]> coefs in
            let coefs :=
              <[coef_peso dir := VNum (0.3 + random (S calls) * 0.7)%float]> coefs in
            (coefs, S (S calls))) s).
  assert (Hgen : ∀ st,
            (In dir (map fst entries) → factor_from entries (fst (fold_left body entries st)) dir)
            ∧ (¬ In dir (map fst entries) →
               fst (fold_left body entries st) !! coef_factor dir
               = fst st !! coef_factor dir)).
  { induction Hall as [|[d values] entries [Hne Hlen] Hall IH]; intros [coefs n].
    - split; [intros [] | reflexivity].
    - cbn [fold_left map fst snd] in *.
      destruct (random_element values n Hne Hlen) as (v & Hv & Hpick).
      set (st1 := body (coefs, n) (d, values)).
      assert (Hst1 : fst st1 !! coef_factor d = Some (VNum v)).
      { unfold st1, body. cbn [fst]. rewrite lookup_insert_ne by apply coef_peso_not_factor.
        rewrite lookup_insert_eq. now f_equal. }
      assert (Hother : dir ≠ d → fst st1 !! coef_factor dir = coefs !! coef_factor dir).
      { intros Hd. unfold st1, body. cbn [fst].
        rewrite lookup_insert_ne by apply coef_peso_not_factor.
        apply lookup_insert_ne. intros E. apply coef_factor_inj in E. congruence. }
      destruct (IH st1) as [IHin IHout].
      destruct (in_dec string_dec dir (map fst entries)) as [Hin | Hout].
      + split; [|intros Hno; exfalso; apply Hno; now right].
        intros _. destruct (IHin Hin) as (values' & v' & Hentry & Hv' & Hlook).
        exists values', v'. split; [now right|]. split; [exact Hv' | exact Hlook].
      + split.
        * intros [<- | Hin]; [|contradiction].
          exists values, v. split; [now left|]. split; [exact Hv|].
          now rewrite (IHout Hout).
        * intros Hno. rewrite (IHout Hout). apply Hother. intros ->. apply Hno. now left. }
  intros Hin. now apply (Hgen (∅, calls)).
Qed.

(** A loop whose body keeps a property of the sets yielded keeps it. *)
Lemma for_of_yields {A : Type} (P : gmap string value → Prop) (l : list A)
    (body : A → nat * list (gmap string value) → nat * list (gmap string value)) :
  (∀ x st, List.Forall P (snd st) → List.Forall P (snd (body x st))) →
  ∀ st, List.Forall P (snd st) → List.Forall P (snd (for_of l body st)).
Proof.
  intros Hbody. unfold for_of. induction l as [|x l IH]; intros st Hst; [exact Hst|].
  cbn [fold_left]. apply IH, Hbody, Hst.
Qed.

(** Every parameter set gets, for each direction of the ranges, a factor
    that is one of the values of the range for that direction: a factor is
    never [undefined], whatever [Math.random] returns from 0 up to 1. *)
Theorem wind_factors_come_from_the_ranges (ranges : Ranges.t) :
  proper_values (Ranges.coeficientesViento ranges) →
  List.Forall
    (λ params, List.Forall (factor_from (Ranges.coeficientesViento ranges) params)
                           (map fst (Ranges.coeficientesViento ranges)))
    (generateParametersLazy random ranges).
Proof.
  intros Hproper. unfold generateParametersLazy.
  apply for_of_yields; [|constructor].
  do 9 (intros ? ? ?; apply for_of_yields; [|assumption]).
  intros offset [calls yielded] Hyielded.
  pose proof (getWindCoefs_factors ranges calls) as Hcoefs.
  destruct (getWindCoefs random ranges calls) as [coefs calls'].
  cbn [fst snd] in *. apply Forall_app. split; [exact Hyielded|].
  constructor; [|constructor].
  apply List.Forall_forall. intros dir Hdir.
  destruct (Hcoefs dir Hproper Hdir) as (values & v & Hentry & Hv & Hlook).
  exists values, v. split; [exact Hentry|]. split; [exact Hv|].
  now apply lookup_union_Some_l.
Qed.

End WindCoefficients.

Lemma wind_factors_come_from_the_ranges_witness :
  List.Forall
    (λ params, List.Forall (factor_from (Ranges.coeficientesViento CONFIG_ranges) params)
                           (map fst (Ranges.coeficientesViento CONFIG_ranges)))
    (generateParametersLazy example_random CONFIG_ranges).
Proof.
  apply (wind_factors_come_from_the_ranges example_random).
  - intros n. unfold example_random. destruct (Nat.even n); split; reflexivity.
  - repeat (constructor; [split; [discriminate | reflexivity]|]). constructor.
Defined.
